(** * A shallow embedding of [graph.py]

    The weighted graph of [graph.py], its path-weight functions and its three
    relaxing traversals, embedded as executable Rocq definitions, followed by
    the properties of the specification that were checked against them.

    Modelling conventions.
    - A [Vertex] is its name; equality and hashing are by name.
    - Weights are Python floats; they are modelled by exact rationals [Q]
      (the weights used by the tests, 0.5 and 2.0, and all their sums are
      dyadic, so float addition is exact on them).  The general theorems
      that depend on the value of a sum assume weights whose sums binary64
      forms without rounding ([exact_sums]); the binary64 operations
      themselves are those of [SpecFloat].
    - A Python [dict] is an insertion-ordered association list with unique
      keys; a [defaultdict] inserts the default value on a failed lookup.
    - The graph object is mutable shared state (the adjacency mapping and the
      memo table of [functools.cache]); it is threaded by the monad [M], and
      it survives an exception.
    - [while] loops and the recursion of [dfs] take a fuel argument; running
      out of fuel is the outcome [OutOfFuel], never a result. *)

From Stdlib Require Import List String Bool Arith Lia ZArith QArith Lqa.
From Stdlib Require SpecFloat.
Import ListNotations.

Set Implicit Arguments.
Local Open Scope string_scope.
Local Open Scope list_scope.

(* ===================================================================== *)
(** ** Vertices and edges *)
(* ===================================================================== *)

(** [class Vertex]: a dataclass with one field; [__eq__] compares the names,
    [__hash__] hashes the name. *)
Record Vertex : Type := mkVertex { name : string }.

Definition Vertex_eqb (u v : Vertex) : bool := String.eqb (name u) (name v).

(** [TypingPath = Tuple[Vertex, ...]] *)
Definition TypingPath : Type := list Vertex.

(** Tuple equality, element by element. *)
Fixpoint path_eqb (p q : TypingPath) : bool :=
  match p, q with
  | [], [] => true
  | u :: p', v :: q' => Vertex_eqb u v && path_eqb p' q'
  | _, _ => false
  end.

(** [TypingEdge = Union[DirectedEdge, UndirectedEdge]] *)
Inductive TypingEdge : Type :=
| DirectedEdge (v1 v2 : Vertex) (w : Q)
| UndirectedEdge (v1 v2 : Vertex) (w : Q).

Definition vertex1 (e : TypingEdge) : Vertex :=
  match e with DirectedEdge v _ _ | UndirectedEdge v _ _ => v end.
Definition vertex2 (e : TypingEdge) : Vertex :=
  match e with DirectedEdge _ v _ | UndirectedEdge _ v _ => v end.
Definition weight (e : TypingEdge) : Q :=
  match e with DirectedEdge _ _ w | UndirectedEdge _ _ w => w end.

Definition is_directed_edge (e : TypingEdge) : bool :=
  match e with DirectedEdge _ _ _ => true | UndirectedEdge _ _ _ => false end.

(** [UndirectedEdge.__post_init__]: swap the end points when
    [vertex2.name < vertex1.name]. *)
Definition UndirectedEdge_post_init (v1 v2 : Vertex) (w : Q) : TypingEdge :=
  if String.ltb (name v2) (name v1)
  then UndirectedEdge v2 v1 w
  else UndirectedEdge v1 v2 w.

(** Truth value of an [Optional[bool]] flag: [None] is falsy. *)
Definition truthy (flag : option bool) : bool :=
  match flag with Some b => b | None => false end.

(* ===================================================================== *)
(** ** Dictionaries *)
(* ===================================================================== *)

Section Dict.
Variable V : Type.

Definition dict : Type := list (Vertex * V).

Fixpoint dict_get (d : dict) (k : Vertex) : option V :=
    match d with
    | [] => None
    | (k', x) :: d' => if Vertex_eqb k' k then Some x else dict_get d' k
    end.

  (** [d[k] = x]: an existing key keeps its position, a new key goes last. *)
Fixpoint dict_set (d : dict) (k : Vertex) (x : V) : dict :=
    match d with
    | [] => [(k, x)]
    | (k', y) :: d' =>
        if Vertex_eqb k' k then (k', x) :: d' else (k', y) :: dict_set d' k x
    end.

Definition dict_mem (d : dict) (k : Vertex) : bool :=
    match dict_get d k with Some _ => true | None => false end.

Definition dict_keys (d : dict) : list Vertex := map fst d.
End Dict.

Arguments dict_get {V} d k.
Arguments dict_set {V} d k x.
Arguments dict_mem {V} d k.
Arguments dict_keys {V} d.

(** [TypingVisited = defaultdict[Vertex, TypingPath]], default [tuple()]. *)
Definition TypingVisited : Type := dict TypingPath.

Definition visited_factory : TypingVisited := [].

(** [visited[v]] read through the default factory: a missing key is inserted
    with the empty tuple. *)
Definition visited_get (visited : TypingVisited) (v : Vertex)
  : TypingPath * TypingVisited :=
  match dict_get visited v with
  | Some p => (p, visited)
  | None => ([], dict_set visited v [])
  end.

(** Equality of two Python dictionaries: same keys, equal values; the
    insertion order does not count. *)
Definition visited_incl (d1 d2 : TypingVisited) : bool :=
  forallb (fun kv => match dict_get d2 (fst kv) with
                     | Some p => path_eqb (snd kv) p
                     | None => false
                     end) d1.

Definition visited_eqb (d1 d2 : TypingVisited) : bool :=
  visited_incl d1 d2 && visited_incl d2 d1.

(* ===================================================================== *)
(** ** The graph object and the monad of its methods *)
(* ===================================================================== *)

Record Graph : Type := mkGraph {
  graph_name : string;
  directed : option bool;
  (** [defaultdict(dict)]: vertex -> (neighbour -> edge) *)
  adjacency_list : dict (dict TypingEdge);
  (** the memo table that [functools.cache] keeps for
      [total_vertex_sequence_weight], restricted to this instance *)
  cache : list (TypingPath * Q)
}.

(** [Graph.__init__] *)
Definition Graph_init (nm : string) (flag : option bool) : Graph :=
  mkGraph nm flag [] [].

Inductive exn : Type :=
| KeyError (k : Vertex)
| IndexError
| NotImplementedError (msg : string)
| RuntimeError (msg : string).

Inductive outcome (A : Type) : Type :=
| Return (a : A)
| Raise (e : exn)
| OutOfFuel.

Arguments Raise {A} e.
Arguments OutOfFuel {A}.

(** A method of [Graph]: it reads and updates the object, and either returns,
    raises or does not finish within the fuel. *)
Definition M (A : Type) : Type := Graph -> outcome A * Graph.

Definition ret {A} (a : A) : M A := fun g => (Return a, g).

Definition bind {A B} (m : M A) (k : A -> M B) : M B :=
  fun g =>
    match m g with
    | (Return a, g') => k a g'
    | (Raise e, g') => (Raise e, g')
    | (OutOfFuel, g') => (OutOfFuel, g')
    end.

Definition raise {A} (e : exn) : M A := fun g => (Raise e, g).
Definition out_of_fuel {A} : M A := fun g => (OutOfFuel, g).
Definition get_graph : M Graph := fun g => (Return g, g).

Declare Scope graph_scope.
Delimit Scope graph_scope with graph.
Notation "x <- m ;; k" := (bind m (fun x => k))
  (at level 61, m at next level, right associativity) : graph_scope.
Notation "' pat <- m ;; k" := (bind m (fun x => match x with pat => k end))
  (at level 61, pat pattern, m at next level, right associativity) : graph_scope.
Local Open Scope graph_scope.

(** [self.adjacency_list[v]] read through the default factory. *)
Definition adjacency_get (v : Vertex) : M (dict TypingEdge) :=
  fun g =>
    match dict_get (adjacency_list g) v with
    | Some inner => (Return inner, g)
    | None =>
        (Return [],
         mkGraph (graph_name g) (directed g)
                 (dict_set (adjacency_list g) v []) (cache g))
    end.

(* ===================================================================== *)
(** ** Edge construction *)
(* ===================================================================== *)

(** [edge_factory]; it touches no graph, so it is a pure function with an
    exceptional result. *)
Definition edge_factory (vertex_name1 vertex_name2 : string) (w : Q)
           (flag : option bool) : exn + TypingEdge :=
  if String.eqb vertex_name1 vertex_name2
  then inl (NotImplementedError "Edge such that vertex1 == vertex2 are not relevant")
  else
    let v1 := mkVertex vertex_name1 in
    let v2 := mkVertex vertex_name2 in
    if truthy flag
    then inr (DirectedEdge v1 v2 w)
    else inr (UndirectedEdge_post_init v1 v2 w).

(** [Graph.add_edge]: the factory is called with its default
    [directed=True]; the edge goes under its [vertex1], keyed by [vertex2]. *)
Definition add_edge (n1 n2 : string) (w : Q) : M unit :=
  match edge_factory n1 n2 w (Some true) with
  | inl e => raise e
  | inr edge =>
      inner <- adjacency_get (vertex1 edge) ;;
      fun g =>
        (Return tt,
         mkGraph (graph_name g) (directed g)
                 (dict_set (adjacency_list g) (vertex1 edge)
                           (dict_set inner (vertex2 edge) edge))
                 (cache g))
  end.

(* ===================================================================== *)
(** ** Path weights *)
(* ===================================================================== *)

Definition Qltb (x y : Q) : bool := negb (Qle_bool y x).

Fixpoint cache_get (c : list (TypingPath * Q)) (p : TypingPath) : option Q :=
  match c with
  | [] => None
  | (q, w) :: c' => if path_eqb q p then Some w else cache_get c' p
  end.

(** The [for vertex2 in vertex_sequence[1:]] loop. *)
Fixpoint total_loop (v1 : Vertex) (rest : list Vertex) (acc : Q) : M Q :=
  match rest with
  | [] => ret acc
  | v2 :: rest' =>
      inner <- adjacency_get v1 ;;
      match dict_get inner v2 with
      | None => raise (KeyError v2)
      | Some edge => total_loop v2 rest' (acc + weight edge)
      end
  end.

(** The body of [total_vertex_sequence_weight], under the decorator. *)
Definition total_body (vertex_sequence : TypingPath) : M Q :=
  match vertex_sequence with
  | [] => raise IndexError
  | v1 :: rest => total_loop v1 rest 0
  end.

(** [@functools.cache def total_vertex_sequence_weight]: a hit returns the
    stored number without running the body; a miss runs the body and stores
    what it returns (an exception stores nothing). *)
Definition total_vertex_sequence_weight (vertex_sequence : TypingPath) : M Q :=
  fun g =>
    match cache_get (cache g) vertex_sequence with
    | Some w => (Return w, g)
    | None =>
        match total_body vertex_sequence g with
        | (Return w, g') =>
            (Return w,
             mkGraph (graph_name g') (directed g') (adjacency_list g')
                     (cache g' ++ [(vertex_sequence, w)]))
        | r => r
        end
    end.

Definition min_vertex_sequence_weight (sequence1 sequence2 : TypingPath)
  : M TypingPath :=
  sequence1_weight <- total_vertex_sequence_weight sequence1 ;;
  sequence2_weight <- total_vertex_sequence_weight sequence2 ;;
  if Qltb sequence1_weight sequence2_weight
  then ret sequence1
  else ret sequence2.

(* ===================================================================== *)
(** ** Neighbour enumeration *)
(* ===================================================================== *)

(** [neighbors] is a generator: its consumer runs between two [yield]s and
    may itself change the graph.  The iteration is therefore modelled with
    the loop body of the consumer as a parameter.
    - The first loop walks the items of [self.adjacency_list[target_vertex]],
      an inner dictionary that only [add_edge] changes.
    - The second loop, for a graph that is not directed, walks the keys of
      the outer dictionary.  Each step of a dictionary iterator first checks
      that the size of the dictionary is the one it started with and raises
      [RuntimeError] otherwise. *)
Section ForNeighbors.
Variable S : Type.
Variable body : Vertex -> TypingEdge -> S -> M S.

Fixpoint for_items (items : dict TypingEdge) (s : S) : M S :=
    match items with
    | [] => ret s
    | (neighbor, edge) :: items' =>
        s' <- body neighbor edge s ;;
        for_items items' s'
    end.

Definition check_size (used : nat) : M unit :=
    fun g =>
      if Nat.eqb (List.length (adjacency_list g)) used
      then (Return tt, g)
      else (Raise (RuntimeError "dictionary changed size during iteration"), g).

Fixpoint for_reverse (keys : list Vertex) (used : nat)
           (target_vertex : Vertex) (s : S) : M S :=
    _ <- check_size used ;;
    match keys with
    | [] => ret s
    | v1 :: keys' =>
        inner <- adjacency_get v1 ;;
        match dict_get inner target_vertex with
        | Some edge =>
            s' <- body v1 edge s ;;
            for_reverse keys' used target_vertex s'
        | None => for_reverse keys' used target_vertex s
        end
    end.

Definition for_neighbors (target_vertex : Vertex) (s : S) : M S :=
    inner <- adjacency_get target_vertex ;;
    s1 <- for_items inner s ;;
    g <- get_graph ;;
    if truthy (directed g)
    then ret s1
    else for_reverse (dict_keys (adjacency_list g))
                     (List.length (adjacency_list g)) target_vertex s1.
End ForNeighbors.

(** [neighbors] run to exhaustion by a consumer that only collects. *)
Definition neighbors (target_vertex : Vertex) : M (list (Vertex * TypingEdge)) :=
  for_neighbors (fun neighbor edge acc => ret (acc ++ [(neighbor, edge)]))
                target_vertex [].

(* ===================================================================== *)
(** ** The relaxation step *)
(* ===================================================================== *)

(** [visit_vertex_neighbors].  The visited map belongs to the caller; when
    the call raises, the traversal that owns the map is abandoned with it. *)
Definition visit_vertex_neighbors (v from_vertex : Vertex)
           (visited : TypingVisited) : M (bool * TypingVisited) :=
  let '(pv, visited1) := visited_get visited v in
  match pv with
  | [] =>
      let '(pf, visited2) := visited_get visited1 from_vertex in
      ret (true, dict_set visited2 v (pf ++ [v]))
  | _ :: _ =>
      let '(pf, visited2) := visited_get visited1 from_vertex in
      let new_path := pf ++ [v] in
      let '(pv', visited3) := visited_get visited2 v in
      chosen <- min_vertex_sequence_weight pv' new_path ;;
      let visited4 := dict_set visited3 v chosen in
      let '(pv'', visited5) := visited_get visited4 v in
      ret (path_eqb pv'' new_path, visited5)
  end.

(* ===================================================================== *)
(** ** Work lists *)
(* ===================================================================== *)

(** [collections.deque], left end first. *)
Definition deque : Type := list TypingEdge.

Definition deque_append (s : deque) (e : TypingEdge) : deque := s ++ [e].
Definition deque_appendleft (s : deque) (e : TypingEdge) : deque := e :: s.

(** [s.pop()] takes from the right end. *)
Fixpoint deque_pop (s : deque) : option (TypingEdge * deque) :=
  match s with
  | [] => None
  | [e] => Some (e, [])
  | e :: s' =>
      match deque_pop s' with
      | Some (x, r) => Some (x, e :: r)
      | None => None
      end
  end.

(* ===================================================================== *)
(** ** The three traversals *)
(* ===================================================================== *)

Definition push_unvisited_neighbors (vertex : Vertex)
           (st : deque * TypingVisited) : M (deque * TypingVisited) :=
  for_neighbors
    (fun _ edge '(s, visited) =>
       '(b, visited') <- visit_vertex_neighbors (vertex2 edge) (vertex1 edge) visited ;;
       ret (if b then deque_append s edge else s, visited'))
    vertex st.

(** The [while s:] loop of [dfs_non_recursive]; one unit of fuel per test of
    the loop condition. *)
Fixpoint dfs_loop (fuel : nat) (st : deque * TypingVisited) : M TypingVisited :=
  match fuel with
  | O => out_of_fuel
  | Datatypes.S fuel' =>
      match deque_pop (fst st) with
      | None => ret (snd st)
      | Some (edge, s') =>
          st' <- push_unvisited_neighbors (vertex2 edge) (s', snd st) ;;
          dfs_loop fuel' st'
      end
  end.

Definition dfs_non_recursive (fuel : nat) (vertex : Vertex)
           (visited : TypingVisited) : M TypingVisited :=
  st <- push_unvisited_neighbors vertex ([], visited) ;;
  dfs_loop fuel st.

(** [dfs]; one unit of fuel per level of recursion (Python stops a deeper
    recursion with [RecursionError]). *)
Fixpoint dfs (fuel : nat) (vertex : Vertex) (visited : TypingVisited)
  : M TypingVisited :=
  match fuel with
  | O => out_of_fuel
  | Datatypes.S fuel' =>
      for_neighbors
        (fun neighbor_vertex edge visited0 =>
           '(b, visited') <- visit_vertex_neighbors (vertex2 edge) (vertex1 edge) visited0 ;;
           if b then dfs fuel' neighbor_vertex visited' else ret visited')
        vertex visited
  end.

Definition dfs_traversal (fuel : nat) (starting_vertex : Vertex)
           (recursive : bool) : M TypingVisited :=
  '(_, visited) <- visit_vertex_neighbors starting_vertex starting_vertex visited_factory ;;
  if recursive
  then dfs fuel starting_vertex visited
  else dfs_non_recursive fuel starting_vertex visited.

Definition enqueue_unvisited_neighbors (vertex : Vertex)
           (st : deque * TypingVisited) : M (deque * TypingVisited) :=
  for_neighbors
    (fun _ edge '(q, visited) =>
       '(b, visited') <- visit_vertex_neighbors (vertex2 edge) (vertex1 edge) visited ;;
       ret (if b then deque_appendleft q edge else q, visited'))
    vertex st.

Fixpoint bfs_loop (fuel : nat) (st : deque * TypingVisited) : M TypingVisited :=
  match fuel with
  | O => out_of_fuel
  | Datatypes.S fuel' =>
      match deque_pop (fst st) with
      | None => ret (snd st)
      | Some (edge, q') =>
          st' <- enqueue_unvisited_neighbors (vertex2 edge) (q', snd st) ;;
          bfs_loop fuel' st'
      end
  end.

Definition bfs (fuel : nat) (vertex : Vertex) (visited : TypingVisited)
  : M TypingVisited :=
  st <- enqueue_unvisited_neighbors vertex ([], visited) ;;
  bfs_loop fuel st.

Definition bfs_traversal (fuel : nat) (starting_vertex : Vertex) : M TypingVisited :=
  '(_, visited) <- visit_vertex_neighbors starting_vertex starting_vertex visited_factory ;;
  bfs fuel starting_vertex visited.

(* ===================================================================== *)
(** ** The shortest-path query *)
(* ===================================================================== *)

(** [Union[TypingPath, NotImplementedError]]: the error object is a returned
    value, it is not raised. *)
Inductive shortest_path_result : Type :=
| PathResult (p : TypingPath)
| NotImplementedResult (msg : string).

Definition shortest_path (fuel : nat) (vtx_name1 vtx_name2 search : string)
  : M shortest_path_result :=
  let v1 := mkVertex vtx_name1 in
  let v2 := mkVertex vtx_name2 in
  if String.eqb search "dfs-nonrecursive" then
    visited <- dfs_traversal fuel v1 false ;;
    ret (PathResult (fst (visited_get visited v2)))
  else if String.eqb search "dfs-recursive" then
    visited <- dfs_traversal fuel v1 true ;;
    ret (PathResult (fst (visited_get visited v2)))
  else if String.eqb search "bfs" then
    visited <- bfs_traversal fuel v1 ;;
    ret (PathResult (fst (visited_get visited v2)))
  else ret (NotImplementedResult "Unsupported search").

(* ===================================================================== *)
(** ** The graphs of the test module *)
(* ===================================================================== *)

Definition vtx_a : Vertex := mkVertex "a".
Definition vtx_b : Vertex := mkVertex "b".
Definition vtx_c : Vertex := mkVertex "c".
Definition vtx_d : Vertex := mkVertex "d".

(** Runs a list of [add_edge] calls on a fresh graph. *)
Fixpoint add_edges (l : list (string * string * Q)) : M unit :=
  match l with
  | [] => ret tt
  | (n1, n2, w) :: l' => _ <- add_edge n1 n2 w ;; add_edges l'
  end.

Definition build (nm : string) (flag : option bool)
           (l : list (string * string * Q)) : Graph :=
  snd (add_edges l (Graph_init nm flag)).

Definition triangle_edges : list (string * string * Q) :=
  [("a", "b", 1#2); ("a", "c", 1#2); ("b", "c", 1#2)].

(** [triangle = graph.Graph(name='triangle')], directed by default. *)
Definition triangle : Graph := build "triangle" (Some true) triangle_edges.

(** The same edges in a graph constructed with [directed=False]. *)
Definition undirected_triangle : Graph := build "triangle" (Some false) triangle_edges.

Definition complete_diamond : Graph :=
  build "complete-diamond" (Some true)
        [("a", "b", 1#2); ("a", "c", 2#1); ("b", "d", 2#1); ("c", "d", 1#2);
         ("b", "c", 1#2); ("a", "d", 2#1)].

(** What the visited map holds for a vertex: the recorded path, or the empty
    tuple for a vertex that was never visited. *)
Definition recorded (visited : TypingVisited) (v : Vertex) : TypingPath :=
  match dict_get visited v with Some p => p | None => [] end.

(** The visited map that the tests expect on the complete diamond. *)
Definition diamond_expected : TypingVisited :=
  [(vtx_a, [vtx_a]); (vtx_b, [vtx_a; vtx_b]); (vtx_c, [vtx_a; vtx_b; vtx_c]);
   (vtx_d, [vtx_a; vtx_b; vtx_c; vtx_d])].

(* ===================================================================== *)
(** ** Vocabulary of the specification *)
(* ===================================================================== *)

(** The edge stored under [u], keyed by [v], read without the default
    factory. *)
Definition stored_edge (g : Graph) (u v : Vertex) : option TypingEdge :=
  match dict_get (adjacency_list g) u with
  | Some inner => dict_get inner v
  | None => None
  end.

(** Every consecutive pair of the sequence has a stored edge. *)
Fixpoint all_pairs_stored (g : Graph) (p : TypingPath) : bool :=
  match p with
  | u :: ((v :: _) as rest) =>
      match stored_edge g u v with
      | Some _ => all_pairs_stored g rest
      | None => false
      end
  | _ => true
  end.

(** The weights of the stored edges of the consecutive pairs, in order. *)
Fixpoint pair_weights (g : Graph) (p : TypingPath) : list Q :=
  match p with
  | u :: ((v :: _) as rest) =>
      match stored_edge g u v with
      | Some e => weight e :: pair_weights g rest
      | None => pair_weights g rest
      end
  | _ => []
  end.

(** The sum of the consecutive edge weights, starting from 0. *)
Definition path_sum (g : Graph) (p : TypingPath) : Q :=
  fold_left Qplus (pair_weights g p) 0.

(** The memo table holds no stale entry: every memoised sequence is a
    non-empty sequence of stored edges and its number is the present sum. *)
Definition cache_coherent (g : Graph) : Prop :=
  forall p w, cache_get (cache g) p = Some w ->
              p <> [] /\ all_pairs_stored g p = true /\ w = path_sum g p.

Definition empty_entries (ks : list Vertex) : dict (dict TypingEdge) :=
  map (fun k => (k, [])) ks.

(** [g'] is [g] after read-only calls: same name and flag, the adjacency
    mapping extended at its end by empty entries only. *)
Definition grows (g g' : Graph) : Prop :=
  graph_name g' = graph_name g /\
  directed g' = directed g /\
  exists ks, adjacency_list g' = adjacency_list g ++ empty_entries ks.

(** A method that only reads the edges. *)
Definition query {A} (m : M A) : Prop := forall g, grows g (snd (m g)).

(** The graph [g] with a fresh, empty adjacency entry for [v]. *)
Definition with_entry (g : Graph) (v : Vertex) : Graph :=
  mkGraph (graph_name g) (directed g) (adjacency_list g ++ [(v, [])]) (cache g).

(** The read-only methods of the public interface. *)
Inductive read_only : forall A, M A -> Prop :=
| ro_neighbors v : read_only (neighbors v)
| ro_total p : read_only (total_vertex_sequence_weight p)
| ro_min p q : read_only (min_vertex_sequence_weight p q)
| ro_dfs fuel v r : read_only (dfs_traversal fuel v r)
| ro_bfs fuel v : read_only (bfs_traversal fuel v)
| ro_shortest fuel n1 n2 s : read_only (shortest_path fuel n1 n2 s).

(** The graphs a client can obtain: a fresh graph, then any calls. *)
Inductive reachable : Graph -> Prop :=
| reachable_init nm flag : reachable (Graph_init nm flag)
| reachable_add_edge g n1 n2 w :
    reachable g -> reachable (snd (add_edge n1 n2 w g))
| reachable_read A (m : M A) g :
    reachable g -> read_only m -> reachable (snd (m g)).

(** The reverse scan of [neighbors]: the keys of the outer dictionary whose
    entry holds an edge keyed by the target, in dictionary order, each with
    that stored edge. *)
Definition reverse_scan (g : Graph) (target : Vertex)
  : list (Vertex * TypingEdge) :=
  flat_map (fun k => match stored_edge g k target with
                     | Some e => [(k, e)]
                     | None => []
                     end) (dict_keys (adjacency_list g)).

(** The error of the factory for an edge from a vertex to itself. *)
Definition invalid_edge : exn :=
  NotImplementedError "Edge such that vertex1 == vertex2 are not relevant".

(** The value [shortest_path] returns for a strategy it does not know. *)
Definition unsupported_search : shortest_path_result :=
  NotImplementedResult "Unsupported search".

(** What a traversal leaves in the visited map for the target, or how it
    ended otherwise. *)
Definition path_to (target : Vertex) (r : outcome TypingVisited * Graph)
  : outcome shortest_path_result * Graph :=
  match r with
  | (Return visited, g') => (Return (PathResult (recorded visited target)), g')
  | (Raise e, g') => (Raise e, g')
  | (OutOfFuel, g') => (OutOfFuel, g')
  end.

(** The consumer of [neighbors] that only collects what is yielded. *)
Definition collect (neighbor : Vertex) (edge : TypingEdge)
           (acc : list (Vertex * TypingEdge)) : M (list (Vertex * TypingEdge)) :=
  ret (acc ++ [(neighbor, edge)]).

(** Every stored edge is a [DirectedEdge] between the two vertices it is
    stored under. *)
Definition only_directed_edges (g : Graph) : Prop :=
  forall u v e, stored_edge g u v = Some e -> e = DirectedEdge u v (weight e).

(** The first consecutive pair of the sequence that has no stored edge. *)
Fixpoint first_unstored (g : Graph) (p : TypingPath) : option (Vertex * Vertex) :=
  match p with
  | u :: ((v :: _) as rest) =>
      match stored_edge g u v with
      | Some _ => first_unstored g rest
      | None => Some (u, v)
      end
  | _ => None
  end.

(** [g] after a lookup of [u] through the default factory. *)
Definition looked_up (g : Graph) (u : Vertex) : Graph :=
  if dict_mem (adjacency_list g) u then g else with_entry g u.

(** [g'] has the name, the flag and the adjacency mapping of [g]; only the
    memo table may differ. *)
Definition same_edges (g g' : Graph) : Prop :=
  graph_name g' = graph_name g /\
  directed g' = directed g /\
  adjacency_list g' = adjacency_list g.

(** A visited map of a traversal of the complete diamond from [a] in which
    [d] was reached through [b]. *)
Definition diamond_visited_via_b : TypingVisited :=
  [(vtx_a, [vtx_a]); (vtx_b, [vtx_a; vtx_b]); (vtx_c, [vtx_a; vtx_c]);
   (vtx_d, [vtx_a; vtx_b; vtx_d])].

(** A graph whose edge a-b was weighed, memoised and then overwritten. *)
Definition overwritten_graph : Graph :=
  let g1 := snd (add_edge "a" "b" 1 (Graph_init "g" (Some true))) in
  let g2 := snd (total_vertex_sequence_weight [vtx_a; vtx_b] g1) in
  snd (add_edge "a" "b" 2 g2).

(** One turn of the [while] loop of [dfs_non_recursive] on a non-empty work
    list whose body returns: the state before the next test of the loop. *)
Definition dfs_step (st : deque * TypingVisited) (g : Graph)
  : option ((deque * TypingVisited) * Graph) :=
  match deque_pop (fst st) with
  | None => None
  | Some (edge, s') =>
      match push_unvisited_neighbors (vertex2 edge) (s', snd st) g with
      | (Return st', g') => Some (st', g')
      | _ => None
      end
  end.

Fixpoint dfs_steps (k : nat) (st : deque * TypingVisited) (g : Graph)
  : option ((deque * TypingVisited) * Graph) :=
  match k with
  | O => Some (st, g)
  | Datatypes.S k' =>
      match dfs_step st g with
      | Some (st', g') => dfs_steps k' st' g'
      | None => None
      end
  end.

(** The sequence ends with the vertex [u]. *)
Definition ends_at (p : TypingPath) (u : Vertex) : Prop :=
  exists q, p = q ++ [u].

(** Every path recorded in the visited map is a sequence of stored edges of
    [g] that ends at the vertex it is recorded for. *)
Definition paths_stored (g : Graph) (visited : TypingVisited) : Prop :=
  forall u, recorded visited u <> [] ->
            all_pairs_stored g (recorded visited u) = true /\
            ends_at (recorded visited u) u.

(** The vertices with a recorded path stay so. *)
Definition keeps_visited (visited visited' : TypingVisited) : Prop :=
  forall u, recorded visited u <> [] -> recorded visited' u <> [].

(** The stored edges go down along [rank]: the graph has no cycle. *)
Definition ranked (g : Graph) (rank : Vertex -> nat) : Prop :=
  forall u inner n e,
    In (u, inner) (adjacency_list g) -> In (n, e) inner -> (rank n < rank u)%nat.

(** Every entry of the adjacency mapping holds edges from its own vertex to
    the vertex they are keyed by. *)
Definition well_keyed (g : Graph) : Prop :=
  forall u inner n e,
    In (u, inner) (adjacency_list g) -> In (n, e) inner ->
    vertex1 e = u /\ vertex2 e = n.

(** The largest number of edges stored under one vertex. *)
Definition max_degree (g : Graph) : nat :=
  list_max (map (fun kd => List.length (snd kd)) (adjacency_list g)).

(** A bound on the turns of the loop that an edge of the work list can
    cause, and the bound for a whole work list. *)
Definition edge_cost (D : nat) (rank : Vertex -> nat) (e : TypingEdge) : nat :=
  Nat.pow (Datatypes.S D) (rank (vertex2 e)).

Definition work (D : nat) (rank : Vertex -> nat) (s : deque) : nat :=
  list_sum (map (edge_cost D rank) s).

(** The targets of the edges of the work list have a recorded path. *)
Definition targets_visited (visited : TypingVisited) (s : deque) : Prop :=
  forall e, In e s -> recorded visited (vertex2 e) <> [].

(** The loop body shared by [push_unvisited_neighbors] and
    [enqueue_unvisited_neighbors], with the insertion into the work list as
    a parameter. *)
Definition relax_and_add (add : deque -> TypingEdge -> deque)
           (_ : Vertex) (edge : TypingEdge) (st : deque * TypingVisited)
  : M (deque * TypingVisited) :=
  let '(s, visited) := st in
  '(b, visited') <- visit_vertex_neighbors (vertex2 edge) (vertex1 edge) visited ;;
  ret (if b then add s edge else s, visited').

(** What is known of an edge [e] that the expansion of [x] meets under the
    key [n], in a graph [g] whose edges go down along [rank]. *)
Definition edge_of (g : Graph) (rank : Vertex -> nat) (x n : Vertex)
           (e : TypingEdge) : Prop :=
  vertex1 e = x /\ vertex2 e = n /\ (rank n < rank x)%nat /\
  exists e', stored_edge g x n = Some e'.

(** The state of the loop over the neighbours of [x] after [k] of them,
    started from the work list [s0] and the visited map [v0]. *)
Definition relaxing (g0 : Graph) (rank : Vertex -> nat) (x : Vertex)
           (s0 : deque) (v0 : TypingVisited)
           (k : nat) (st : deque * TypingVisited) (g : Graph) : Prop :=
  grows g0 g /\ paths_stored g0 (snd st) /\
  keeps_visited v0 (snd st) /\ targets_visited (snd st) (fst st) /\
  (work (max_degree g0) rank (fst st)
   <= work (max_degree g0) rank s0
      + k * Nat.pow (Datatypes.S (max_degree g0)) (rank x - 1))%nat.

(** A rank on the vertices of the complete diamond that goes down along
    each of its edges. *)
Definition diamond_rank (v : Vertex) : nat :=
  if String.eqb (name v) "a" then 3%nat
  else if String.eqb (name v) "b" then 2%nat
  else if String.eqb (name v) "c" then 1%nat
  else 0%nat.

(** A directed graph with a cycle of negative weight. *)
Definition negative_cycle : Graph :=
  build "cycle" (Some true) [("a", "b", (-1) # 1); ("b", "a", (-1) # 1)].

Definition edge_ab : TypingEdge := DirectedEdge vtx_a vtx_b ((-1) # 1).
Definition edge_ba : TypingEdge := DirectedEdge vtx_b vtx_a ((-1) # 1).

(** The states of the loop of the iterative depth-first traversal of
    [negative_cycle] from [a]: one edge of the cycle is on the work list,
    and following it improves the path of its target once more. *)
Definition cycling (st : deque * TypingVisited) (g : Graph) : Prop :=
  same_edges negative_cycle g /\ cache_coherent g /\
  exists pa pb,
    snd st = [(vtx_a, pa); (vtx_b, pb)] /\
    all_pairs_stored negative_cycle pa = true /\ ends_at pa vtx_a /\
    all_pairs_stored negative_cycle pb = true /\ ends_at pb vtx_b /\
    ((fst st = [edge_ab] /\
      path_sum negative_cycle pb + ((-1) # 1) <= path_sum negative_cycle pa)
     \/
     (fst st = [edge_ba] /\
      path_sum negative_cycle pa + ((-1) # 1) <= path_sum negative_cycle pb)).

(** The loop body of [dfs], with the recursive call as a parameter. *)
Definition relax_and_recurse (rec : Vertex -> TypingVisited -> M TypingVisited)
           (neighbor_vertex : Vertex) (edge : TypingEdge)
           (visited0 : TypingVisited) : M TypingVisited :=
  '(b, visited') <- visit_vertex_neighbors (vertex2 edge) (vertex1 edge) visited0 ;;
  if b then rec neighbor_vertex visited' else ret visited'.

(** The call does not finish within its fuel. *)
Definition diverges {A} (r : outcome A * Graph) : Prop := fst r = OutOfFuel.

(** The visited map and the graph after a visit that returns. *)
Definition after_visit (v from_vertex : Vertex) (s : TypingVisited * Graph)
  : TypingVisited * Graph :=
  match visit_vertex_neighbors v from_vertex (fst s) (snd s) with
  | (Return (_, visited), g) => (visited, g)
  | (_, g) => (fst s, g)
  end.

(** The states in which the recursive depth-first traversal of
    [undirected_triangle] from [a] calls [dfs]: on [a], then [b], [c], [a],
    and then on [b] and [a] in turn. *)
Definition call_a0 : TypingVisited * Graph := ([(vtx_a, [vtx_a])], undirected_triangle).
Definition call_b1 : TypingVisited * Graph := after_visit vtx_b vtx_a call_a0.
Definition call_c2 : TypingVisited * Graph := after_visit vtx_c vtx_b call_b1.
Definition call_a3 : TypingVisited * Graph :=
  after_visit vtx_c vtx_a (fst call_c2, with_entry (snd call_c2) vtx_c).
Definition call_b4 : TypingVisited * Graph := after_visit vtx_b vtx_a call_a3.
Definition call_a5 : TypingVisited * Graph :=
  after_visit vtx_b vtx_a (after_visit vtx_c vtx_b call_b4).


(* ===================================================================== *)
(** ** Vocabulary for the memo table *)
(* ===================================================================== *)

(** A method that leaves no stale entry in the memo table when it starts
    from a table without one. *)
Definition keeps_coherent {A} (m : M A) : Prop :=
  forall g, cache_coherent g -> cache_coherent (snd (m g)).

(** The graphs a client obtains without storing an edge between the same
    two vertices twice: a fresh graph, [add_edge] for a pair that holds no
    edge yet, and any read-only calls in between. *)
Inductive without_overwrite : Graph -> Prop :=
| wo_init nm flag : without_overwrite (Graph_init nm flag)
| wo_add_edge g n1 n2 w :
    without_overwrite g ->
    stored_edge g (mkVertex n1) (mkVertex n2) = None ->
    without_overwrite (snd (add_edge n1 n2 w g))
| wo_read A (m : M A) g :
    without_overwrite g -> read_only m -> without_overwrite (snd (m g)).

(* ===================================================================== *)
(** ** Vocabulary for the traversals *)
(* ===================================================================== *)

(** The three search strategies of the class. *)
Inductive strategy : Type := DfsRecursive | DfsNonRecursive | Bfs.

(** The traversal that [shortest_path] runs for a strategy. *)
Definition traverse (how : strategy) (fuel : nat) (starting_vertex : Vertex)
  : M TypingVisited :=
  match how with
  | DfsRecursive => dfs_traversal fuel starting_vertex true
  | DfsNonRecursive => dfs_traversal fuel starting_vertex false
  | Bfs => bfs_traversal fuel starting_vertex
  end.

(** The name of a strategy, as [shortest_path] expects it. *)
Definition search_name (how : strategy) : string :=
  match how with
  | DfsRecursive => "dfs-recursive"
  | DfsNonRecursive => "dfs-nonrecursive"
  | Bfs => "bfs"
  end.

(** A call that does not raise and whose result, when it returns one,
    satisfies [post]; nothing is said of a call that runs out of fuel. *)
Definition ensures {A} (r : outcome A * Graph) (post : A -> Graph -> Prop)
  : Prop :=
  match r with
  | (Return a, g) => post a g
  | (Raise _, _) => False
  | (OutOfFuel, _) => True
  end.

(** No stored edge leads from a vertex to itself. *)
Definition no_self_loops (g : Graph) : Prop :=
  forall u v e, stored_edge g u v = Some e -> u <> v.

(** The sequence starts with the vertex [s]. *)
Definition starts_at (p : TypingPath) (s : Vertex) : Prop :=
  exists q, p = s :: q.

(** Every recorded path starts at [s]. *)
Definition rooted (s : Vertex) (visited : TypingVisited) : Prop :=
  forall u, recorded visited u <> [] -> starts_at (recorded visited u) s.

(** A sequence of stored edges of [g] from [s] to [v]. *)
Definition stored_path (g : Graph) (s v : Vertex) (p : TypingPath) : Prop :=
  all_pairs_stored g p = true /\ starts_at p s /\ ends_at p v.

(** From [visited] to [visited'] every vertex with a recorded path keeps
    one, and none got heavier. *)
Definition lightens (g : Graph) (visited visited' : TypingVisited) : Prop :=
  forall u, recorded visited u <> [] ->
            recorded visited' u <> [] /\
            (path_sum g (recorded visited' u)
             <= path_sum g (recorded visited u))%Q.

(** No edge out of [u] improves the path recorded for its target. *)
Definition relaxed (g : Graph) (visited : TypingVisited) (u : Vertex) : Prop :=
  forall v e, stored_edge g u v = Some e ->
              recorded visited v <> [] /\
              (path_sum g (recorded visited v)
               <= path_sum g (recorded visited u) + weight e)%Q.

(** Every vertex with a recorded path is relaxed, or is one of those that
    [todo] says are still to be expanded. *)
Definition covered (g : Graph) (visited : TypingVisited)
           (todo : Vertex -> Prop) : Prop :=
  forall u, recorded visited u <> [] -> relaxed g visited u \/ todo u.

(** An edge of the work list leads to [u]. *)
Definition pending (s : deque) (u : Vertex) : Prop :=
  exists e, In e s /\ vertex2 e = u.

(** The neighbours of [x] in [done] have a recorded path that the edge from
    [x] does not improve. *)
Definition met (g : Graph) (x : Vertex) (visited : TypingVisited)
           (done : dict TypingEdge) : Prop :=
  forall n e, In (n, e) done ->
              exists e', stored_edge g x n = Some e' /\
                         recorded visited n <> [] /\
                         (path_sum g (recorded visited n)
                          <= path_sum g (recorded visited x) + weight e')%Q.

(** The visited map records, for exactly the vertices that a sequence of
    stored edges connects to [s], such a sequence of the least weight. *)
Definition lightest_paths (g : Graph) (s : Vertex) (visited : TypingVisited)
  : Prop :=
  (forall v, recorded visited v <> [] ->
             stored_path g s v (recorded visited v)) /\
  (forall v p, stored_path g s v p ->
               recorded visited v <> [] /\
               (path_sum g (recorded visited v) <= path_sum g p)%Q).

(** What holds of the visited map and the graph all along a traversal of
    [g0] from [s0]: the graph is [g0] up to empty entries, the recorded
    paths are sequences of stored edges from [s0] to their vertex, and,
    when [K] holds, the memo table has no stale entry. *)
Definition sound_state (K : Prop) (g0 : Graph) (s0 : Vertex)
           (visited : TypingVisited) (g : Graph) : Prop :=
  grows g0 g /\ paths_stored g0 visited /\ rooted s0 visited /\
  recorded visited s0 <> [] /\
  (K -> cache_coherent g /\ (path_sum g0 (recorded visited s0) <= 0)%Q).

(** What a visit of [v] from [from_vertex] along the stored edge [e] does to
    the visited map. *)
Definition visit_effect (K : Prop) (g0 : Graph) (v from_vertex : Vertex)
           (e : TypingEdge) (visited : TypingVisited)
           (b : bool) (visited' : TypingVisited) : Prop :=
  (forall u, u <> v -> recorded visited' u = recorded visited u) /\
  recorded visited' v <> [] /\
  (b = true -> recorded visited' v = recorded visited from_vertex ++ [v]) /\
  (b = false -> recorded visited' v = recorded visited v) /\
  (K -> lightens g0 visited visited' /\
        (path_sum g0 (recorded visited' v)
         <= path_sum g0 (recorded visited from_vertex) + weight e)%Q).

(** The state of the loop of [push_unvisited_neighbors] or
    [enqueue_unvisited_neighbors] over the neighbours of [x], after the
    neighbours in [done]: the vertices that may still have an improving edge
    are the targets of the work list and [x] itself. *)
Definition expanding (K : Prop) (g0 : Graph) (s0 x : Vertex)
           (done : dict TypingEdge) (st : deque * TypingVisited) (g : Graph)
  : Prop :=
  sound_state K g0 s0 (snd st) g /\
  targets_visited (snd st) (fst st) /\
  recorded (snd st) x <> [] /\
  (K -> covered g0 (snd st) (fun u => pending (fst st) u \/ u = x) /\
        met g0 x (snd st) done).

(** The state of the [while] loop of the iterative traversals at the test
    of its condition. *)
Definition work_list_state (K : Prop) (g0 : Graph) (s0 : Vertex)
           (st : deque * TypingVisited) (g : Graph) : Prop :=
  sound_state K g0 s0 (snd st) g /\
  targets_visited (snd st) (fst st) /\
  (K -> covered g0 (snd st) (pending (fst st))).

(** The state in which a traversal returns: no stored edge improves a
    recorded path any more. *)
Definition finished (K : Prop) (g0 : Graph) (s0 : Vertex)
           (visited : TypingVisited) (g : Graph) : Prop :=
  sound_state K g0 s0 visited g /\
  (K -> covered g0 visited (fun _ => False)).

(** The state of the loop of [dfs] over the neighbours of [x], after the
    neighbours in [done], in a call that started with the visited map
    [visited0] while the calls of [dfs] for the vertices in [active] were
    still running. *)
Definition descending (K : Prop) (g0 : Graph) (s0 : Vertex)
           (active : Vertex -> Prop) (x : Vertex) (visited0 : TypingVisited)
           (done : dict TypingEdge) (visited : TypingVisited) (g : Graph)
  : Prop :=
  sound_state K g0 s0 visited g /\
  keeps_visited visited0 visited /\
  (K -> lightens g0 visited0 visited /\
        covered g0 visited
                (fun u => (active u /\
                           recorded visited u = recorded visited0 u) \/
                          u = x) /\
        met g0 x visited done).

(** The state in which that call of [dfs] returns. *)
Definition descended (K : Prop) (g0 : Graph) (s0 : Vertex)
           (active : Vertex -> Prop) (x : Vertex) (visited0 : TypingVisited)
           (visited : TypingVisited) (g : Graph) : Prop :=
  sound_state K g0 s0 visited g /\
  keeps_visited visited0 visited /\
  (K -> lightens g0 visited0 visited /\
        relaxed g0 visited x /\
        covered g0 visited
                (fun u => active u /\
                          recorded visited u = recorded visited0 u)).

(* ===================================================================== *)
(** ** The listing of a graph *)
(* ===================================================================== *)

Definition newline : string := String (Ascii.ascii_of_nat 10) EmptyString.

(** [Graph.__str__].  The text of a vertex is the [repr] that [@dataclass]
    generates, and so is the text of an edge inside the yielded tuple.  The
    [repr] of a name (quotes and escapes) and of a weight (a Python number)
    are parameters of the model. *)
Section Str.
Variable repr_str : string -> string.
Variable repr_weight : Q -> string.

Definition Vertex_repr (v : Vertex) : string :=
  String.concat "" ["Vertex(name="; repr_str (name v); ")"].

Definition TypingEdge_repr (e : TypingEdge) : string :=
  String.concat ""
    [if is_directed_edge e then "DirectedEdge" else "UndirectedEdge";
     "(vertex1="; Vertex_repr (vertex1 e);
     ", vertex2="; Vertex_repr (vertex2 e);
     ", weight="; repr_weight (weight e); ")"].

(** The text of a tuple [(neighbor, edge)]. *)
Definition neighbor_repr (n : Vertex * TypingEdge) : string :=
  String.concat "" ["("; Vertex_repr (fst n); ", "; TypingEdge_repr (snd n); ")"].

(** [graph += f'    {n}\n'] *)
Definition str_line (graph : string) (n : Vertex * TypingEdge) : string :=
  String.append graph (String.concat "" ["    "; neighbor_repr n; newline]).

(** [graph += f"  Neighbors of {vertex}\n"] *)
Definition str_head (graph : string) (vertex : Vertex) : string :=
  String.append graph
    (String.concat "" ["  Neighbors of "; Vertex_repr vertex; newline]).

(** The loop [for vertex in self.adjacency_list], an iteration over the
    outer dictionary, which checks its size at every step. *)
Fixpoint str_loop (keys : list Vertex) (used : nat) (graph : string)
  : M string :=
  _ <- check_size used ;;
  match keys with
  | [] => ret graph
  | vertex :: keys' =>
      graph1 <- for_neighbors
                  (fun neighbor edge acc => ret (str_line acc (neighbor, edge)))
                  vertex (str_head graph vertex) ;;
      str_loop keys' used (String.append graph1 newline)
  end.

Definition Graph_str : M string :=
  g <- get_graph ;;
  str_loop (dict_keys (adjacency_list g)) (List.length (adjacency_list g))
           (String.concat "" ["Graph(name='"; graph_name g; "')"; newline]).

(** What [neighbors] yields for a vertex that has an adjacency entry. *)
Definition listing (g : Graph) (v : Vertex) : list (Vertex * TypingEdge) :=
  match dict_get (adjacency_list g) v with
  | Some inner => inner
  | None => []
  end ++ (if truthy (directed g) then [] else reverse_scan g v).

(** The text of a graph: its title, then for each key of the adjacency
    mapping, in order, a heading, one line for each neighbour and an empty
    line. *)
Definition render_block (g : Graph) (graph : string) (v : Vertex) : string :=
  String.append (fold_left str_line (listing g v) (str_head graph v)) newline.

Definition render (g : Graph) : string :=
  fold_left (render_block g) (dict_keys (adjacency_list g))
            (String.concat "" ["Graph(name='"; graph_name g; "')"; newline]).
End Str.

(** The [repr] of the names and of the weights that the test module uses:
    a name without quotes or escapes between single quotes, and the floats
    0.5 and 2.0. *)
Definition test_repr_str (s : string) : string := String.concat "" ["'"; s; "'"].

Definition test_repr_weight (w : Q) : string :=
  if Qeq_bool w (1 # 2) then "0.5"
  else if Qeq_bool w (2 # 1) then "2.0"
  else "?".

(** [expected_complete_diamond_str] of the test module. *)
Definition expected_complete_diamond_str : string :=
  String.concat newline
    ["Graph(name='complete-diamond')";
     "  Neighbors of Vertex(name='a')";
     "    (Vertex(name='b'), DirectedEdge(vertex1=Vertex(name='a'), vertex2=Vertex(name='b'), weight=0.5))";
     "    (Vertex(name='c'), DirectedEdge(vertex1=Vertex(name='a'), vertex2=Vertex(name='c'), weight=2.0))";
     "    (Vertex(name='d'), DirectedEdge(vertex1=Vertex(name='a'), vertex2=Vertex(name='d'), weight=2.0))";
     "";
     "  Neighbors of Vertex(name='b')";
     "    (Vertex(name='d'), DirectedEdge(vertex1=Vertex(name='b'), vertex2=Vertex(name='d'), weight=2.0))";
     "    (Vertex(name='c'), DirectedEdge(vertex1=Vertex(name='b'), vertex2=Vertex(name='c'), weight=0.5))";
     "";
     "  Neighbors of Vertex(name='c')";
     "    (Vertex(name='d'), DirectedEdge(vertex1=Vertex(name='c'), vertex2=Vertex(name='d'), weight=0.5))";
     "";
     ""].

(* ===================================================================== *)
(** ** Vocabulary for graphs with positive weights *)
(* ===================================================================== *)

(** Every stored edge has a positive weight. *)
Definition positive_weights (g : Graph) : Prop :=
  forall u v e, stored_edge g u v = Some e -> (0 < weight e)%Q.

(** The vertices that some stored edge leads to, one for each stored edge. *)
Definition targets (g : Graph) : list Vertex :=
  flat_map (fun kd => dict_keys (snd kd)) (adjacency_list g).

(** More vertices than a sequence of stored edges without a repeated vertex
    can have. *)
Definition vertex_bound (g : Graph) : nat :=
  Datatypes.S (List.length (targets g)).

(** No recorded path visits a vertex twice, and along a recorded path each
    vertex on the way has a recorded path of its own that is no heavier
    than the way to it. *)
Definition simple_state (g : Graph) (visited : TypingVisited) : Prop :=
  (forall u, NoDup (recorded visited u)) /\
  (forall u p y q,
      recorded visited u = (p ++ [y]) ++ q -> q <> [] ->
      recorded visited y <> [] /\
      (path_sum g (recorded visited y) <= path_sum g (p ++ [y]))%Q).

(** Fuel that is enough for a traversal of a graph with positive weights:
    for the depth of the recursion, and for the turns of the loop of the
    iterative traversals. *)
Definition enough_fuel (g : Graph) : nat :=
  vertex_bound g + Nat.pow (Datatypes.S (max_degree g)) (vertex_bound g).

(** The sequences that were weighed since the memo table was that of [g0]
    have at most [n] vertices. *)
Definition weighed_within (n : nat) (g0 g : Graph) : Prop :=
  forall p w, cache_get (cache g) p = Some w ->
              cache_get (cache g0) p = Some w \/ (List.length p <= n)%nat.

(** The states of a traversal of a graph [g0] with positive weights. *)
Definition steady (g0 : Graph) (s0 : Vertex)
           (visited : TypingVisited) (g : Graph) : Prop :=
  sound_state True g0 s0 visited g /\ simple_state g0 visited /\
  weighed_within (Datatypes.S (vertex_bound g0)) g0 g.

(** The state of the loop of [dfs] over the neighbours of a vertex in a call
    at depth [k] that started with the visited map [visited0]: a recorded
    path that the call has changed has more than [k + 1] vertices. *)
Definition diving (g0 : Graph) (s0 : Vertex) (k : nat)
           (visited0 : TypingVisited) (_ : nat)
           (visited : TypingVisited) (g : Graph) : Prop :=
  steady g0 s0 visited g /\
  lightens g0 visited0 visited /\
  forall u, recorded visited u = recorded visited0 u \/
            (k + 2 <= List.length (recorded visited u))%nat.

(** Work lists whose edges carry the generation in which they were added:
    the edges added by the expansion of the start are of generation 1, those
    added by the expansion of the target of an edge of generation [k] are of
    generation [k + 1]. *)
Definition tagged : Type := list (TypingEdge * nat).

Definition item_cost (D N k : nat) : nat := Nat.pow (Datatypes.S D) (N - k).

Definition tagged_work (D N : nat) (t : tagged) : nat :=
  list_sum (map (fun ek => item_cost D N (snd ek)) t).

(** The target of an edge of generation [k] has a recorded path of more
    than [k] vertices. *)
Definition tags_fit (visited : TypingVisited) (t : tagged) : Prop :=
  forall e k, In (e, k) t ->
              (k + 1 <= List.length (recorded visited (vertex2 e)))%nat.

Fixpoint nondecreasing (l : list nat) : Prop :=
  match l with
  | [] => True
  | a :: l' => (forall b, In b l' -> (a <= b)%nat) /\ nondecreasing l'
  end.

(** The generations of a stack grow towards the end that is popped. *)
Definition stack_order (t : tagged) : Prop := nondecreasing (map snd t).

(** The stack while the target of an edge of generation [k] is expanded. *)
Definition stack_within (k : nat) (t : tagged) : Prop :=
  nondecreasing (map snd t) /\
  forall k', In k' (map snd t) -> (k' <= Datatypes.S k)%nat.

(** The generations of a queue grow away from the end that is popped, and
    are at most two. *)
Definition queue_within (k : nat) (t : tagged) : Prop :=
  nondecreasing (rev (map snd t)) /\
  forall k', In k' (map snd t) -> (k <= k' <= Datatypes.S k)%nat.

Definition queue_order (t : tagged) : Prop := exists m, queue_within m t.

(** The state of the loop that expands, in a work-list traversal, the
    target [x] of an edge of generation [k], after [j] neighbours; [t0] is
    the tagged work list at the start of the loop. *)
Definition expanding_positive (g0 : Graph) (s0 : Vertex)
           (within : nat -> tagged -> Prop) (x : Vertex) (k : nat)
           (t0 : tagged) (visited0 : TypingVisited)
           (j : nat) (st : deque * TypingVisited) (g : Graph) : Prop :=
  steady g0 s0 (snd st) g /\
  recorded (snd st) x = recorded visited0 x /\
  exists t, map fst t = fst st /\ within k t /\ tags_fit (snd st) t /\
            (tagged_work (max_degree g0) (vertex_bound g0) t
             <= tagged_work (max_degree g0) (vertex_bound g0) t0
                + j * item_cost (max_degree g0) (vertex_bound g0)
                                (Datatypes.S k))%nat.

(** The check that every stored edge has a positive weight. *)
Definition all_positive (g : Graph) : bool :=
  forallb (fun kd => forallb (fun ne => Qltb 0 (weight (snd ne))) (snd kd))
          (adjacency_list g).

(** A directed graph with a cycle, all of whose weights are positive. *)
Definition positive_cycle : Graph :=
  build "cycle" (Some true)
        [("a", "b", 1); ("b", "a", 1); ("b", "c", 1 # 2); ("c", "a", 2 # 1)].

(* ===================================================================== *)
(** ** Vocabulary for a cycle of two edges *)
(* ===================================================================== *)

(** The directed graph with the edges a->b of weight [w1] and b->a of
    weight [w2]. *)
Definition two_cycle (w1 w2 : Q) : Graph :=
  build "cycle" (Some true) [("a", "b", w1); ("b", "a", w2)].

(** The other vertex of the cycle, and the edge that leaves a vertex. *)
Definition other (x : Vertex) : Vertex :=
  if Vertex_eqb x vtx_a then vtx_b else vtx_a.

Definition out_edge (w1 w2 : Q) (x : Vertex) : TypingEdge :=
  DirectedEdge x (other x) (if Vertex_eqb x vtx_a then w1 else w2).

(** The states in which a traversal of [two_cycle] is about to expand the
    vertex [x]: both vertices have a recorded path, and following the edge
    out of [x] gives a path that is no heavier than the one recorded for
    the other vertex. *)
Definition circling (w1 w2 : Q) (x : Vertex) (visited : TypingVisited)
           (g : Graph) : Prop :=
  same_edges (two_cycle w1 w2) g /\ cache_coherent g /\
  exists pa pb,
    visited = [(vtx_a, pa); (vtx_b, pb)] /\
    all_pairs_stored (two_cycle w1 w2) pa = true /\ ends_at pa vtx_a /\
    all_pairs_stored (two_cycle w1 w2) pb = true /\ ends_at pb vtx_b /\
    ((x = vtx_a /\
      (path_sum (two_cycle w1 w2) pa + w1
       <= path_sum (two_cycle w1 w2) pb)%Q) \/
     (x = vtx_b /\
      (path_sum (two_cycle w1 w2) pb + w2
       <= path_sum (two_cycle w1 w2) pa)%Q)).

(* ===================================================================== *)
(** ** Vocabulary for weights that binary64 adds without rounding *)
(* ===================================================================== *)

(** The weights of the source are Python floats, binary64 numbers, and [+]
    and [<] on them are the operations of IEEE 754, here those of the
    specification [SpecFloat] at precision 53 with exponents below 1024. *)
Definition binary64 : Type := SpecFloat.spec_float.

Definition b64_add : binary64 -> binary64 -> binary64 := SpecFloat.SFadd 53 1024.

Definition b64_ltb : binary64 -> binary64 -> bool := SpecFloat.SFltb.

(** The binary64 number nearest to [z * 2^-k]. *)
Definition b64 (k : nat) (z : Z) : binary64 :=
  SpecFloat.binary_normalize 53 1024 z (- Z.of_nat k) false.

(** The mantissa [m] followed by [n] zero bits. *)
Definition shifted (m : positive) (n : nat) : positive := Nat.iter n xO m.

(** The exponent of the binary64 number [m * 2^e]. *)
Definition b64_exponent (m : positive) (e : Z) : Z :=
  SpecFloat.fexp 53 1024 (Zpos (SpecFloat.digits2_pos m) + e).

(** [q * 2^k] in lowest terms, and its numerator. *)
Definition scaled (k : nat) (q : Q) : Q := Qred (q * inject_Z (2 ^ Z.of_nat k)).

Definition numerator (k : nat) (q : Q) : Z := Qnum (scaled k q).

(** [q] is an integer multiple of [2^-k], and the integer is at most [b] in
    magnitude.  With [k <= 1074] and [b < 2^53] such a number is a finite
    binary64 number. *)
Definition dyadic (k : nat) (b : Z) (q : Q) : bool :=
  Pos.eqb (Qden (scaled k q)) 1 && (Z.abs (numerator k q) <=? b)%Z.

(** Every stored weight is such a number. *)
Definition exact_weights (k : nat) (b : Z) (g : Graph) : bool :=
  forallb (fun kd => forallb (fun ne => dyadic k b (weight (snd ne))) (snd kd))
          (adjacency_list g).

(** Every sum of at most [n] stored weights is a finite binary64 number: it
    is a multiple of [2^-k] with a numerator below [2^53].  An IEEE addition
    whose exact result is a binary64 number returns that number, so sums of
    at most [n] stored weights are formed without rounding. *)
Definition exact_sums (k : nat) (b : Z) (n : nat) (g : Graph) : bool :=
  (k <=? 1074)%nat && (0 <=? b)%Z && (Z.of_nat n * b <? 2 ^ 53)%Z
  && exact_weights k b g.

(** The same for the sequences of the memo table. *)
Definition exact_memo (k : nat) (b : Z) (g : Graph) : bool :=
  forallb (fun pw => exact_sums k b (List.length (fst pw)) g) (cache g).

(** The binary64 number that the rational [q] stands for, when [q] is a
    multiple of [2^-k] in the range of [exact_sums]. *)
Definition binary64_of (k : nat) (q : Q) : binary64 := b64 k (numerator k q).

(** The loop of [total_vertex_sequence_weight] in binary64:
    [weight = 0], then [weight += edge.weight] for each consecutive pair. *)
Definition binary64_total (k : nat) (g : Graph) (p : TypingPath) : binary64 :=
  fold_left (fun acc w => b64_add acc (binary64_of k w)) (pair_weights g p)
            (b64 k 0).

(** The test [sequence1_weight < sequence2_weight] of
    [min_vertex_sequence_weight] in binary64. *)
Definition binary64_lighter (k : nat) (g : Graph) (p q : TypingPath) : bool :=
  b64_ltb (binary64_total k g p) (binary64_total k g q).

(** The highest rank of a vertex that has an adjacency entry. *)
Definition highest_rank (g : Graph) (rank : Vertex -> nat) : nat :=
  list_max (map (fun kd => rank (fst kd)) (adjacency_list g)).

(** The graphs on which a traversal forms its sums without rounding: the
    sequences it weighs are short, because the graph has no cycle or
    because its weights are positive, and the sums of as many stored
    weights as such a sequence can have are binary64 numbers. *)
Definition exact_traversal (k : nat) (b : Z) (g : Graph) : Prop :=
  (exists rank, ranked g rank /\
                exact_sums k b (Datatypes.S (highest_rank g rank)) g = true)
  \/ (positive_weights g /\
      exact_sums k b (Datatypes.S (vertex_bound g)) g = true).

(** Whatever the first run returns, the second returns too. *)
Definition returns_as {A} (m1 m2 : M A) : Prop :=
  forall g a g', m1 g = (Return a, g') -> m2 g = (Return a, g').
(* ===================================================================== *)
(** * Properties *)
(* ===================================================================== *)

(** ** Equality tests and dictionaries *)

Lemma Vertex_eqb_eq (u v : Vertex) : Vertex_eqb u v = true <-> u = v.
Proof.
  destruct u as [n], v as [m]; unfold Vertex_eqb; cbn.
  rewrite String.eqb_eq. split; [intros -> | intros [= ->]]; reflexivity.
Qed.

Lemma Vertex_eqb_refl (v : Vertex) : Vertex_eqb v v = true.
Proof. apply Vertex_eqb_eq; reflexivity. Qed.

Lemma Vertex_eqb_neq (u v : Vertex) : Vertex_eqb u v = false <-> u <> v.
Proof.
  split.
  - intros H E. apply Vertex_eqb_eq in E. congruence.
  - intros H. destruct (Vertex_eqb u v) eqn:E; [|reflexivity].
    apply Vertex_eqb_eq in E. contradiction.
Qed.

Lemma Vertex_eqb_sym (u v : Vertex) : Vertex_eqb u v = Vertex_eqb v u.
Proof. unfold Vertex_eqb. apply String.eqb_sym. Qed.

Lemma path_eqb_eq (p q : TypingPath) : path_eqb p q = true <-> p = q.
Proof.
  revert q; induction p as [|u p IH]; intros [|v q]; cbn; try (split; congruence).
  rewrite andb_true_iff, Vertex_eqb_eq, IH. split.
  - intros [-> ->]; reflexivity.
  - intros [= -> ->]; split; reflexivity.
Qed.

Lemma path_eqb_refl (p : TypingPath) : path_eqb p p = true.
Proof. apply path_eqb_eq; reflexivity. Qed.

Section DictFacts.
Variable V : Type.
Implicit Types (d : dict V) (k : Vertex) (x : V).

Lemma dict_get_set_same d k x : dict_get (dict_set d k x) k = Some x.
  Proof.
    induction d as [|[k' y] d IH]; cbn.
    - now rewrite Vertex_eqb_refl.
    - destruct (Vertex_eqb k' k) eqn:E; cbn; rewrite E; auto.
  Qed.

Lemma dict_get_set_other d k k' x :
    k <> k' -> dict_get (dict_set d k x) k' = dict_get d k'.
  Proof.
    intros Hne. induction d as [|[k0 y] d IH]; cbn.
    - apply Vertex_eqb_neq in Hne. now rewrite Hne.
    - destruct (Vertex_eqb k0 k) eqn:E; cbn.
      + apply Vertex_eqb_eq in E; subst k0.
        apply Vertex_eqb_neq in Hne. now rewrite Hne.
      + now rewrite IH.
  Qed.

Lemma dict_set_fresh d k x :
    dict_get d k = None -> dict_set d k x = d ++ [(k, x)].
  Proof.
    induction d as [|[k' y] d IH]; cbn; [reflexivity|].
    destruct (Vertex_eqb k' k); [discriminate|].
    intros H. now rewrite IH.
  Qed.

Lemma dict_set_length_present d k x y :
    dict_get d k = Some y -> List.length (dict_set d k x) = List.length d.
  Proof.
    induction d as [|[k' z] d IH]; cbn; [discriminate|].
    destruct (Vertex_eqb k' k); cbn; [reflexivity|].
    intros H. now rewrite IH.
  Qed.

Lemma dict_keys_set_present d k x y :
    dict_get d k = Some y -> dict_keys (dict_set d k x) = dict_keys d.
  Proof.
    unfold dict_keys.
    induction d as [|[k' z] d IH]; cbn; [discriminate|].
    destruct (Vertex_eqb k' k); cbn; [reflexivity|].
    intros H. now rewrite IH.
  Qed.

Lemma dict_get_app_l d d' k y :
    dict_get d k = Some y -> dict_get (d ++ d') k = Some y.
  Proof.
    induction d as [|[k' z] d IH]; cbn; [discriminate|].
    destruct (Vertex_eqb k' k); auto.
  Qed.

Lemma dict_get_app_r d d' k :
    dict_get d k = None -> dict_get (d ++ d') k = dict_get d' k.
  Proof.
    induction d as [|[k' z] d IH]; cbn; [reflexivity|].
    destruct (Vertex_eqb k' k); [discriminate|auto].
  Qed.

Lemma dict_get_In d k y : dict_get d k = Some y -> In (k, y) d.
  Proof.
    induction d as [|[k' z] d IH]; cbn; [discriminate|].
    destruct (Vertex_eqb k' k) eqn:E.
    - intros [= ->]. apply Vertex_eqb_eq in E; subst. now left.
    - intros H. right. auto.
  Qed.

Lemma dict_get_None_keys d k : dict_get d k = None <-> ~ In k (dict_keys d).
  Proof.
    unfold dict_keys.
    induction d as [|[k' z] d IH]; cbn; [tauto|].
    destruct (Vertex_eqb k' k) eqn:E.
    - apply Vertex_eqb_eq in E; subst. split; [discriminate|tauto].
    - apply Vertex_eqb_neq in E. rewrite IH. tauto.
  Qed.
End DictFacts.

(** ** The monad *)

Lemma bind_Return A B (m : M A) (k : A -> M B) g a g' :
  m g = (Return a, g') -> bind m k g = k a g'.
Proof. unfold bind. now intros ->. Qed.

Lemma bind_Raise A B (m : M A) (k : A -> M B) g e g' :
  m g = (Raise e, g') -> bind m k g = (Raise e, g').
Proof. unfold bind. now intros ->. Qed.

Lemma bind_OutOfFuel A B (m : M A) (k : A -> M B) g g' :
  m g = (OutOfFuel, g') -> bind m k g = (OutOfFuel, g').
Proof. unfold bind. now intros ->. Qed.

(** ** Read-only calls only append empty adjacency entries *)

Lemma grows_refl g : grows g g.
Proof.
  repeat split. exists []. cbn. now rewrite app_nil_r.
Qed.

Lemma grows_trans g1 g2 g3 : grows g1 g2 -> grows g2 g3 -> grows g1 g3.
Proof.
  intros (N1 & D1 & ks1 & E1) (N2 & D2 & ks2 & E2).
  repeat split; try congruence.
  exists (ks1 ++ ks2). rewrite E2, E1. unfold empty_entries.
  now rewrite map_app, app_assoc.
Qed.

Lemma grows_cache g c :
  grows g (mkGraph (graph_name g) (directed g) (adjacency_list g) c).
Proof. repeat split. exists []. cbn. now rewrite app_nil_r. Qed.

Lemma dict_get_empty_entries ks k x :
  dict_get (empty_entries ks) k = Some x -> x = [].
Proof.
  induction ks as [|k' ks IH]; cbn; [discriminate|].
  destruct (Vertex_eqb k' k); [now intros [= <-]|auto].
Qed.

Lemma grows_stored_edge g g' u v :
  grows g g' -> stored_edge g' u v = stored_edge g u v.
Proof.
  intros (_ & _ & ks & E). unfold stored_edge. rewrite E.
  destruct (dict_get (adjacency_list g) u) as [inner|] eqn:G.
  - now rewrite (dict_get_app_l _ _ _ G).
  - rewrite (dict_get_app_r _ _ _ G).
    destruct (dict_get (empty_entries ks) u) as [x|] eqn:G'; [|reflexivity].
    apply dict_get_empty_entries in G'. now subst.
Qed.

Lemma all_pairs_stored_cons g u v p :
  all_pairs_stored g (u :: v :: p) =
  match stored_edge g u v with
  | Some _ => all_pairs_stored g (v :: p)
  | None => false
  end.
Proof. reflexivity. Qed.

Lemma pair_weights_cons g u v p :
  pair_weights g (u :: v :: p) =
  match stored_edge g u v with
  | Some e => weight e :: pair_weights g (v :: p)
  | None => pair_weights g (v :: p)
  end.
Proof. reflexivity. Qed.

Lemma grows_all_pairs_stored g g' p :
  grows g g' -> all_pairs_stored g' p = all_pairs_stored g p.
Proof.
  intros H. induction p as [|u [|v p] IH]; try reflexivity.
  rewrite !all_pairs_stored_cons, (grows_stored_edge _ _ H).
  destruct (stored_edge g u v); auto.
Qed.

Lemma grows_pair_weights g g' p :
  grows g g' -> pair_weights g' p = pair_weights g p.
Proof.
  intros H. induction p as [|u [|v p] IH]; try reflexivity.
  rewrite !pair_weights_cons, (grows_stored_edge _ _ H).
  destruct (stored_edge g u v); now rewrite IH.
Qed.

Lemma grows_path_sum g g' p : grows g g' -> path_sum g' p = path_sum g p.
Proof. intros H. unfold path_sum. now rewrite (grows_pair_weights _ H). Qed.

Lemma adjacency_get_present v g inner :
  dict_get (adjacency_list g) v = Some inner ->
  adjacency_get v g = (Return inner, g).
Proof. unfold adjacency_get. now intros ->. Qed.

Lemma adjacency_get_absent v g :
  dict_get (adjacency_list g) v = None ->
  adjacency_get v g = (Return [], with_entry g v).
Proof.
  unfold adjacency_get, with_entry. intros H. rewrite H.
  now rewrite (dict_set_fresh _ _ _ H).
Qed.

Lemma grows_with_entry g v : grows g (with_entry g v).
Proof. repeat split. now exists [v]. Qed.

Lemma query_ret A (a : A) : query (ret a).
Proof. intros g. apply grows_refl. Qed.

Lemma query_raise A e : query (@raise A e).
Proof. intros g. apply grows_refl. Qed.

Lemma query_out_of_fuel A : query (@out_of_fuel A).
Proof. intros g. apply grows_refl. Qed.

Lemma query_get_graph : query get_graph.
Proof. intros g. apply grows_refl. Qed.

Lemma query_bind A B (m : M A) (k : A -> M B) :
  query m -> (forall a, query (k a)) -> query (bind m k).
Proof.
  intros Hm Hk g. unfold bind. specialize (Hm g).
  destruct (m g) as [[a| e |] g1]; cbn in *; auto.
  eapply grows_trans; [exact Hm | apply Hk].
Qed.

Lemma query_adjacency_get v : query (adjacency_get v).
Proof.
  intros g. destruct (dict_get (adjacency_list g) v) as [inner|] eqn:G.
  - rewrite (adjacency_get_present _ _ G). apply grows_refl.
  - rewrite (adjacency_get_absent _ _ G). apply grows_with_entry.
Qed.

Lemma query_total_loop rest : forall v1 acc, query (total_loop v1 rest acc).
Proof.
  induction rest as [|v2 rest IH]; intros v1 acc; cbn.
  - apply query_ret.
  - apply query_bind; [apply query_adjacency_get|].
    intros inner. destruct (dict_get inner v2); [apply IH | apply query_raise].
Qed.

Lemma query_total_body p : query (total_body p).
Proof.
  destruct p; cbn; [apply query_raise | apply query_total_loop].
Qed.

Lemma query_total p : query (total_vertex_sequence_weight p).
Proof.
  intros g. unfold total_vertex_sequence_weight.
  destruct (cache_get (cache g) p); [apply grows_refl|].
  pose proof (query_total_body p g) as H.
  destruct (total_body p g) as [[w| e |] g1]; cbn in *; auto.
Qed.

Lemma query_min p q : query (min_vertex_sequence_weight p q).
Proof.
  unfold min_vertex_sequence_weight.
  apply query_bind; [apply query_total|]. intros w1.
  apply query_bind; [apply query_total|]. intros w2.
  destruct (Qltb w1 w2); apply query_ret.
Qed.

Lemma query_visit v from_vertex visited :
  query (visit_vertex_neighbors v from_vertex visited).
Proof.
  unfold visit_vertex_neighbors.
  destruct (visited_get visited v) as [pv visited1].
  destruct pv as [|x pv].
  - destruct (visited_get visited1 from_vertex). apply query_ret.
  - destruct (visited_get visited1 from_vertex) as [pf visited2].
    destruct (visited_get visited2 v) as [pv' visited3].
    apply query_bind; [apply query_min|]. intros chosen.
    destruct (visited_get _ v). apply query_ret.
Qed.

Section QueryLoops.
Variable S : Type.
Variable body : Vertex -> TypingEdge -> S -> M S.
Hypothesis query_body : forall n e s, query (body n e s).

Lemma query_for_items items : forall s, query (for_items body items s).
  Proof.
    induction items as [|[n e] items IH]; intros s; cbn.
    - apply query_ret.
    - apply query_bind; auto.
  Qed.

Lemma query_check_size used : query (check_size used).
  Proof.
    intros g. unfold check_size.
    destruct (Nat.eqb _ _); apply grows_refl.
  Qed.

Lemma query_for_reverse keys used target :
    forall s, query (for_reverse body keys used target s).
  Proof.
    induction keys as [|v1 keys IH]; intros s; cbn.
    - apply query_bind; [apply query_check_size | intros; apply query_ret].
    - apply query_bind; [apply query_check_size | intros _].
      apply query_bind; [apply query_adjacency_get | intros inner].
      destruct (dict_get inner target); auto.
      apply query_bind; auto.
  Qed.

Lemma query_for_neighbors target s : query (for_neighbors body target s).
  Proof.
    unfold for_neighbors.
    apply query_bind; [apply query_adjacency_get | intros inner].
    apply query_bind; [apply query_for_items | intros s1].
    apply query_bind; [apply query_get_graph | intros g].
    destruct (truthy (directed g)); [apply query_ret | apply query_for_reverse].
  Qed.
End QueryLoops.

Lemma query_neighbors v : query (neighbors v).
Proof. apply query_for_neighbors. intros; apply query_ret. Qed.

Lemma query_push_unvisited_neighbors v st : query (push_unvisited_neighbors v st).
Proof.
  apply query_for_neighbors. intros n e [s visited].
  apply query_bind; [apply query_visit | intros [b visited']; apply query_ret].
Qed.

Lemma query_enqueue_unvisited_neighbors v st : query (enqueue_unvisited_neighbors v st).
Proof.
  apply query_for_neighbors. intros n e [s visited].
  apply query_bind; [apply query_visit | intros [b visited']; apply query_ret].
Qed.

Lemma query_dfs_loop fuel : forall st, query (dfs_loop fuel st).
Proof.
  induction fuel as [|fuel IH]; intros st; cbn.
  - apply query_out_of_fuel.
  - destruct (deque_pop (fst st)) as [[e s']|]; [|apply query_ret].
    apply query_bind; [apply query_push_unvisited_neighbors | auto].
Qed.

Lemma query_bfs_loop fuel : forall st, query (bfs_loop fuel st).
Proof.
  induction fuel as [|fuel IH]; intros st; cbn.
  - apply query_out_of_fuel.
  - destruct (deque_pop (fst st)) as [[e s']|]; [|apply query_ret].
    apply query_bind; [apply query_enqueue_unvisited_neighbors | auto].
Qed.

Lemma query_dfs fuel : forall v visited, query (dfs fuel v visited).
Proof.
  induction fuel as [|fuel IH]; intros v visited; cbn.
  - apply query_out_of_fuel.
  - apply query_for_neighbors. intros n e visited0.
    apply query_bind; [apply query_visit | intros [[] visited']]; auto.
    apply query_ret.
Qed.

Lemma query_dfs_non_recursive fuel v visited : query (dfs_non_recursive fuel v visited).
Proof.
  apply query_bind; [apply query_push_unvisited_neighbors | apply query_dfs_loop].
Qed.

Lemma query_bfs fuel v visited : query (bfs fuel v visited).
Proof.
  apply query_bind; [apply query_enqueue_unvisited_neighbors | apply query_bfs_loop].
Qed.

Lemma query_dfs_traversal fuel v r : query (dfs_traversal fuel v r).
Proof.
  apply query_bind; [apply query_visit | intros [b visited]].
  destruct r; [apply query_dfs | apply query_dfs_non_recursive].
Qed.

Lemma query_bfs_traversal fuel v : query (bfs_traversal fuel v).
Proof.
  apply query_bind; [apply query_visit | intros [b visited]]. apply query_bfs.
Qed.

Lemma query_shortest_path fuel n1 n2 s : query (shortest_path fuel n1 n2 s).
Proof.
  unfold shortest_path.
  repeat match goal with |- query (if ?c then _ else _) => destruct c end;
    try apply query_ret;
    (apply query_bind; [|intros; apply query_ret]);
    auto using query_dfs_traversal, query_bfs_traversal.
Qed.

Lemma read_only_query A (m : M A) : read_only m -> query m.
Proof.
  destruct 1; auto using query_neighbors, query_total, query_min,
    query_dfs_traversal, query_bfs_traversal, query_shortest_path.
Qed.

(** ** Edge construction and storage *)

Lemma stored_edge_add_edge g n1 n2 w :
  n1 <> n2 ->
  exists g',
    add_edge n1 n2 w g = (Return tt, g') /\
    graph_name g' = graph_name g /\ directed g' = directed g /\
    cache g' = cache g /\
    forall u v,
      stored_edge g' u v =
      if Vertex_eqb (mkVertex n1) u && Vertex_eqb (mkVertex n2) v
      then Some (DirectedEdge (mkVertex n1) (mkVertex n2) w)
      else stored_edge g u v.
Proof.
  intros Hne. unfold add_edge, edge_factory.
  apply String.eqb_neq in Hne. rewrite Hne. cbn [truthy vertex1 vertex2].
  set (v1 := mkVertex n1). set (v2 := mkVertex n2).
  set (e := DirectedEdge v1 v2 w).
  unfold bind.
  assert (Hget : exists inner g1,
             adjacency_get v1 g = (Return inner, g1) /\
             graph_name g1 = graph_name g /\ directed g1 = directed g /\
             cache g1 = cache g /\
             dict_get (adjacency_list g1) v1 = Some inner /\
             (forall u, dict_get (adjacency_list g1) u =
                        if Vertex_eqb v1 u then Some inner
                        else dict_get (adjacency_list g) u) /\
             (forall v, dict_get inner v = stored_edge g v1 v)).
  { unfold adjacency_get, stored_edge.
    destruct (dict_get (adjacency_list g) v1) as [inner|] eqn:G.
    - exists inner, g. repeat apply conj; auto.
      intros u. destruct (Vertex_eqb v1 u) eqn:E; [|reflexivity].
      apply Vertex_eqb_eq in E. now subst.
    - eexists [], _. split; [reflexivity|].
      cbn [graph_name directed cache adjacency_list].
      repeat apply conj; auto.
      + apply dict_get_set_same.
      + intros u. destruct (Vertex_eqb v1 u) eqn:E.
        * apply Vertex_eqb_eq in E. subst. apply dict_get_set_same.
        * apply Vertex_eqb_neq in E. now apply dict_get_set_other. }
  destruct Hget as (inner & g1 & -> & N & D & C & G1 & Gother & Ginner).
  eexists. split; [reflexivity|].
  cbn [graph_name directed cache adjacency_list vertex1 vertex2].
  repeat apply conj; auto.
  intros u v. unfold stored_edge at 1.
  cbn [graph_name directed cache adjacency_list vertex1 vertex2].
  fold v1 v2 e.
  destruct (Vertex_eqb v1 u) eqn:Eu; cbn [andb].
  - apply Vertex_eqb_eq in Eu. subst u. rewrite dict_get_set_same.
    destruct (Vertex_eqb v2 v) eqn:Ev.
    + apply Vertex_eqb_eq in Ev. subst v. apply dict_get_set_same.
    + apply Vertex_eqb_neq in Ev. rewrite dict_get_set_other by assumption.
      apply Ginner.
  - apply Vertex_eqb_neq in Eu. rewrite dict_get_set_other by assumption.
    rewrite Gother. apply Vertex_eqb_neq in Eu. rewrite Eu. reflexivity.
Qed.

(** C7.  Whatever the weight and the directed flag, [edge_factory] raises
    the invalid-edge error for two equal vertex names, and so does
    [add_edge], which then leaves the graph as it was; for two distinct names
    the factory returns an edge between two different vertices and
    [add_edge] returns after storing its edge. *)
Theorem self_loops_are_rejected
        (n1 n2 : string) (w : Q) (flag : option bool) (g : Graph) :
  (n1 = n2 ->
     edge_factory n1 n2 w flag = inl invalid_edge /\
     add_edge n1 n2 w g = (Raise invalid_edge, g))
  /\
  (n1 <> n2 ->
     (exists e, edge_factory n1 n2 w flag = inr e /\
                weight e = w /\ vertex1 e <> vertex2 e) /\
     (exists g', add_edge n1 n2 w g = (Return tt, g') /\
                 stored_edge g' (mkVertex n1) (mkVertex n2)
                 = Some (DirectedEdge (mkVertex n1) (mkVertex n2) w))).
Proof.
  split.
  - intros <-. unfold add_edge, edge_factory. rewrite String.eqb_refl.
    split; reflexivity.
  - intros Hne. split.
    + unfold edge_factory. pose proof Hne as Hne'.
      apply String.eqb_neq in Hne'. rewrite Hne'.
      destruct (truthy flag).
      * eexists; split; [reflexivity|]. cbn. split; [reflexivity|congruence].
      * unfold UndirectedEdge_post_init. cbn [name].
        destruct (String.ltb n2 n1); eexists; (split; [reflexivity|]); cbn;
          (split; [reflexivity|congruence]).
    + destruct (stored_edge_add_edge g w Hne) as (g' & E & _ & _ & _ & S).
      exists g'. split; [exact E|]. rewrite S, !Vertex_eqb_refl. reflexivity.
Qed.

Lemma self_loops_are_rejected_witness :
  (edge_factory "a" "a" (1#2) (Some false) = inl invalid_edge /\
   add_edge "a" "a" (1#2) triangle = (Raise invalid_edge, triangle))
  /\
  ((exists e, edge_factory "b" "a" (1#2) None = inr e /\
              weight e = (1#2) /\ vertex1 e <> vertex2 e) /\
   (exists g', add_edge "b" "a" (1#2) triangle = (Return tt, g') /\
               stored_edge g' vtx_b vtx_a = Some (DirectedEdge vtx_b vtx_a (1#2)))).
Proof.
  split.
  - apply (proj1 (self_loops_are_rejected "a" "a" (1#2) (Some false) triangle)).
    reflexivity.
  - apply (proj2 (self_loops_are_rejected "b" "a" (1#2) None triangle)).
    discriminate.
Defined.

(** ** The shortest-path query *)

Lemma bind_path_to (m : M TypingVisited) (target : Vertex) g :
  bind m (fun visited => ret (PathResult (fst (visited_get visited target)))) g
  = path_to target (m g).
Proof.
  unfold bind, path_to, ret, recorded, visited_get.
  destruct (m g) as [[visited| e |] g']; try reflexivity.
  destruct (dict_get visited target); reflexivity.
Qed.

(** C8.  A strategy name other than the three known ones makes
    [shortest_path] return the not-implemented value, whatever the fuel (no
    traversal is run) and with the graph untouched; each known name runs its
    traversal from the source and returns what the visited map records for
    the target, which is the empty sequence for a target that has no entry. *)
Theorem shortest_path_dispatch
        (fuel : nat) (n1 n2 search : string) (g : Graph) :
  (search <> "dfs-recursive" -> search <> "dfs-nonrecursive" -> search <> "bfs" ->
     shortest_path fuel n1 n2 search g = (Return unsupported_search, g))
  /\ shortest_path fuel n1 n2 "dfs-recursive" g
     = path_to (mkVertex n2) (dfs_traversal fuel (mkVertex n1) true g)
  /\ shortest_path fuel n1 n2 "dfs-nonrecursive" g
     = path_to (mkVertex n2) (dfs_traversal fuel (mkVertex n1) false g)
  /\ shortest_path fuel n1 n2 "bfs" g
     = path_to (mkVertex n2) (bfs_traversal fuel (mkVertex n1) g)
  /\ (forall visited : TypingVisited,
        dict_get visited (mkVertex n2) = None ->
        recorded visited (mkVertex n2) = []).
Proof.
  repeat apply conj.
  - intros H1 H2 H3. unfold shortest_path.
    apply String.eqb_neq in H1, H2, H3. now rewrite H1, H2, H3.
  - unfold shortest_path. cbn [String.eqb Ascii.eqb Bool.eqb]. cbv iota.
    apply bind_path_to.
  - unfold shortest_path. cbn [String.eqb Ascii.eqb Bool.eqb]. cbv iota.
    apply bind_path_to.
  - unfold shortest_path. cbn [String.eqb Ascii.eqb Bool.eqb]. cbv iota.
    apply bind_path_to.
  - intros visited H. unfold recorded. now rewrite H.
Qed.

Lemma shortest_path_dispatch_witness :
  shortest_path 0 "a" "d" "dijkstra" complete_diamond
  = (Return unsupported_search, complete_diamond).
Proof.
  apply (proj1 (shortest_path_dispatch 0 "a" "d" "dijkstra" complete_diamond));
    discriminate.
Defined.

(** ** The traversals on the complete diamond *)

(** C1.  On the complete diamond, with enough fuel, the recursive
    depth-first, the iterative depth-first and the breadth-first traversal
    from [a] all return, and their visited maps are equal as dictionaries:
    each equals the expected map, in which the path of [d] is (a,b,c,d), of
    total weight 3/2, and neither (a,d), of weight 2, nor (a,c,d), of weight
    5/2. *)
Theorem complete_diamond_traversals_agree (k : nat) :
  (exists vr vn vb gr gn gb,
      dfs_traversal (6 + k) vtx_a true complete_diamond = (Return vr, gr) /\
      dfs_traversal (6 + k) vtx_a false complete_diamond = (Return vn, gn) /\
      bfs_traversal (8 + k) vtx_a complete_diamond = (Return vb, gb) /\
      visited_eqb vr vn = true /\ visited_eqb vn vb = true /\
      visited_eqb vr vb = true /\ visited_eqb vr diamond_expected = true /\
      recorded vr vtx_d = [vtx_a; vtx_b; vtx_c; vtx_d] /\
      recorded vn vtx_d = [vtx_a; vtx_b; vtx_c; vtx_d] /\
      recorded vb vtx_d = [vtx_a; vtx_b; vtx_c; vtx_d])
  /\ path_sum complete_diamond [vtx_a; vtx_b; vtx_c; vtx_d] == 3 # 2
  /\ path_sum complete_diamond [vtx_a; vtx_d] == 2
  /\ path_sum complete_diamond [vtx_a; vtx_c; vtx_d] == 5 # 2.
Proof.
  split.
  - do 6 eexists.
    split; [vm_compute; reflexivity|].
    split; [vm_compute; reflexivity|].
    split; [vm_compute; reflexivity|].
    repeat split; vm_compute; reflexivity.
  - repeat split; vm_compute; reflexivity.
Qed.

(** ** Neighbour enumeration *)

Lemma for_items_collect items : forall acc g,
  for_items collect items acc g = (Return (acc ++ items), g).
Proof.
  induction items as [|[n e] items IH]; intros acc g; cbn.
  - now rewrite app_nil_r.
  - unfold bind, collect, ret. rewrite IH. now rewrite <- app_assoc.
Qed.

Lemma dict_keys_get V (d : dict V) k :
  In k (dict_keys d) -> exists x, dict_get d k = Some x.
Proof.
  intros H. destruct (dict_get d k) as [x|] eqn:G; [eauto|].
  apply dict_get_None_keys in G. contradiction.
Qed.

Lemma for_reverse_collect g target keys : forall acc,
  (forall k, In k keys -> In k (dict_keys (adjacency_list g))) ->
  for_reverse collect keys (List.length (adjacency_list g)) target acc g
  = (Return (acc ++ flat_map (fun k => match stored_edge g k target with
                                       | Some e => [(k, e)]
                                       | None => []
                                       end) keys), g).
Proof.
  induction keys as [|k keys IH]; intros acc Hin; cbn [for_reverse flat_map];
    unfold bind at 1; unfold check_size; rewrite Nat.eqb_refl.
  - unfold ret. now rewrite app_nil_r.
  - destruct (dict_keys_get _ _ (Hin k (or_introl eq_refl))) as [inner G].
    unfold bind at 1. rewrite (adjacency_get_present _ _ G).
    unfold stored_edge at 1. rewrite G.
    destruct (dict_get inner target) as [e|].
    + unfold bind at 1, collect at 1, ret at 1.
      rewrite IH by (intros; apply Hin; now right).
      now rewrite <- app_assoc.
    + rewrite IH by (intros; apply Hin; now right). reflexivity.
Qed.

(** What [neighbors] yields: the items stored under the target and, when the
    graph is not directed, the reverse scan after them; the only effect on
    the graph is the one of the lookup of the target. *)
Lemma neighbors_spec v g :
  exists inner g1,
    adjacency_get v g = (Return inner, g1) /\
    neighbors v g
    = (Return (if truthy (directed g) then inner
               else inner ++ reverse_scan g1 v), g1).
Proof.
  assert (H : exists inner g1, adjacency_get v g = (Return inner, g1) /\
                               directed g1 = directed g).
  { unfold adjacency_get. destruct (dict_get (adjacency_list g) v); eauto. }
  destruct H as (inner & g1 & E & D). exists inner, g1. split; [exact E|].
  unfold neighbors, for_neighbors. fold collect.
  rewrite (bind_Return _ _ _ E).
  rewrite (bind_Return _ _ _ (for_items_collect inner [] g1)).
  unfold bind, get_graph. rewrite D. cbn [app].
  destruct (truthy (directed g)); [reflexivity|].
  rewrite for_reverse_collect by auto. reflexivity.
Qed.

(** ** Graphs built through the interface *)

Lemma only_directed_edges_reachable g : reachable g -> only_directed_edges g.
Proof.
  induction 1 as [nm flag | g n1 n2 w Hg IH | A m g Hg IH Hm].
  - intros u v e. unfold stored_edge. cbn. discriminate.
  - destruct (String.eqb n1 n2) eqn:E.
    + unfold add_edge, edge_factory. rewrite E. exact IH.
    + apply String.eqb_neq in E.
      destruct (stored_edge_add_edge g w E) as (g' & -> & _ & _ & _ & S).
      cbn [snd]. intros u v e. rewrite S.
      destruct (Vertex_eqb (mkVertex n1) u) eqn:Eu;
        destruct (Vertex_eqb (mkVertex n2) v) eqn:Ev; cbn [andb]; try apply IH.
      apply Vertex_eqb_eq in Eu, Ev. subst. now intros [= <-].
  - intros u v e. rewrite (grows_stored_edge u v (read_only_query Hm g)).
    apply IH.
Qed.

(** C10.  Whatever the directed flag of the graph and whatever the order of
    the two names, [add_edge] stores the edge [DirectedEdge name1 name2]
    under the first vertex, keyed by the second, and keeps the flag; every
    edge of a graph obtained through the interface is such a directed edge
    under its own end points, so no [UndirectedEdge] and no swapped end
    points occur; [neighbors] yields the entries stored under the target and,
    only when the graph is not directed, the edges found by the reverse scan
    after them. *)
Theorem add_edge_stores_directed_edges :
  (forall g n1 n2 w, n1 <> n2 ->
     exists g', add_edge n1 n2 w g = (Return tt, g') /\
                directed g' = directed g /\
                stored_edge g' (mkVertex n1) (mkVertex n2)
                = Some (DirectedEdge (mkVertex n1) (mkVertex n2) w))
  /\ (forall g, reachable g ->
        forall u v e, stored_edge g u v = Some e ->
                      e = DirectedEdge u v (weight e) /\
                      is_directed_edge e = true /\
                      vertex1 e = u /\ vertex2 e = v)
  /\ (forall g v, exists inner g1,
        adjacency_get v g = (Return inner, g1) /\
        neighbors v g
        = (Return (if truthy (directed g) then inner
                   else inner ++ reverse_scan g1 v), g1)).
Proof.
  repeat apply conj.
  - intros g n1 n2 w Hne.
    destruct (stored_edge_add_edge g w Hne) as (g' & E & _ & D & _ & S).
    exists g'. repeat split; auto. rewrite S, !Vertex_eqb_refl. reflexivity.
  - intros g Hg u v e He.
    apply (only_directed_edges_reachable Hg) in He. rewrite He. cbn. auto.
  - intros g v. apply neighbors_spec.
Qed.

(** ** Path weights *)

Lemma first_unstored_cons g u v p :
  first_unstored g (u :: v :: p) =
  match stored_edge g u v with
  | Some _ => first_unstored g (v :: p)
  | None => Some (u, v)
  end.
Proof. reflexivity. Qed.

Lemma all_pairs_stored_first_unstored g p :
  all_pairs_stored g p = true <-> first_unstored g p = None.
Proof.
  induction p as [|u [|v p] IH]; try (cbn; tauto).
  rewrite all_pairs_stored_cons, first_unstored_cons.
  destruct (stored_edge g u v); [exact IH | split; discriminate].
Qed.

Lemma first_unstored_false g p :
  all_pairs_stored g p = false -> exists u v, first_unstored g p = Some (u, v).
Proof.
  intros H. destruct (first_unstored g p) as [[u v]|] eqn:E; [eauto|].
  apply all_pairs_stored_first_unstored in E. congruence.
Qed.

Lemma same_edges_refl g : same_edges g g.
Proof. repeat split. Qed.

Lemma same_edges_trans g1 g2 g3 :
  same_edges g1 g2 -> same_edges g2 g3 -> same_edges g1 g3.
Proof. intros (? & ? & ?) (? & ? & ?). repeat split; congruence. Qed.

Lemma same_edges_grows g g' : same_edges g g' -> grows g g'.
Proof.
  intros (N & D & A). repeat split; auto. exists []. cbn.
  now rewrite app_nil_r.
Qed.

Lemma same_edges_stored_edge g g' u v :
  same_edges g g' -> stored_edge g' u v = stored_edge g u v.
Proof. intros H. apply grows_stored_edge, same_edges_grows, H. Qed.

Lemma same_edges_path_sum g g' p : same_edges g g' -> path_sum g' p = path_sum g p.
Proof. intros H. apply grows_path_sum, same_edges_grows, H. Qed.

Lemma same_edges_all_pairs_stored g g' p :
  same_edges g g' -> all_pairs_stored g' p = all_pairs_stored g p.
Proof. intros H. apply grows_all_pairs_stored, same_edges_grows, H. Qed.

Lemma stored_edge_Some g u v e :
  stored_edge g u v = Some e ->
  exists inner, dict_get (adjacency_list g) u = Some inner /\
                dict_get inner v = Some e.
Proof.
  unfold stored_edge. destruct (dict_get (adjacency_list g) u) as [inner|]; eauto.
  discriminate.
Qed.

(** The loop over the stored pairs adds their weights from left to right and
    leaves the graph alone. *)
Lemma total_loop_stored g rest : forall v1 acc,
  all_pairs_stored g (v1 :: rest) = true ->
  total_loop v1 rest acc g
  = (Return (fold_left Qplus (pair_weights g (v1 :: rest)) acc), g).
Proof.
  induction rest as [|v2 rest IH]; intros v1 acc H; [reflexivity|].
  rewrite all_pairs_stored_cons in H. rewrite pair_weights_cons.
  destruct (stored_edge g v1 v2) as [e|] eqn:S; [|discriminate].
  destruct (stored_edge_Some _ _ _ S) as (inner & G & Ge).
  cbn [total_loop]. rewrite (bind_Return _ _ _ (adjacency_get_present _ _ G)).
  rewrite Ge. now rewrite IH.
Qed.

Lemma adjacency_get_looked_up u g :
  exists inner, adjacency_get u g = (Return inner, looked_up g u) /\
                forall v, dict_get inner v = stored_edge g u v.
Proof.
  unfold looked_up, dict_mem, stored_edge.
  destruct (dict_get (adjacency_list g) u) as [inner|] eqn:G.
  - exists inner. now rewrite (adjacency_get_present _ _ G).
  - exists []. now rewrite (adjacency_get_absent _ _ G).
Qed.

(** At the first pair without a stored edge the loop raises [KeyError] for
    the second vertex of the pair, after the lookup of the first. *)
Lemma total_loop_unstored g rest : forall v1 acc u v,
  first_unstored g (v1 :: rest) = Some (u, v) ->
  total_loop v1 rest acc g = (Raise (KeyError v), looked_up g u).
Proof.
  induction rest as [|v2 rest IH]; intros v1 acc u v H; [discriminate|].
  rewrite first_unstored_cons in H. cbn [total_loop].
  destruct (stored_edge g v1 v2) as [e|] eqn:S.
  - destruct (stored_edge_Some _ _ _ S) as (inner & G & Ge).
    rewrite (bind_Return _ _ _ (adjacency_get_present _ _ G)), Ge. now apply IH.
  - injection H as <- <-.
    destruct (adjacency_get_looked_up v1 g) as (inner & E & Hi).
    rewrite (bind_Return _ _ _ E), Hi, S. reflexivity.
Qed.

Lemma cache_get_app c p w q :
  cache_get (c ++ [(p, w)]) q =
  match cache_get c q with
  | Some w' => Some w'
  | None => if path_eqb p q then Some w else None
  end.
Proof.
  induction c as [|[p' w'] c IH]; cbn; [reflexivity|].
  destruct (path_eqb p' q); auto.
Qed.

Lemma cache_coherent_same_edges g g' :
  same_edges g g' -> cache g' = cache g -> cache_coherent g -> cache_coherent g'.
Proof.
  intros S C H p w. rewrite C. intros Hc. destruct (H p w Hc) as (N & A & W).
  now rewrite (same_edges_all_pairs_stored _ S), (same_edges_path_sum _ S).
Qed.

(** The memoised function on a graph without a stale entry. *)
Lemma total_stored g p :
  cache_coherent g -> p <> [] -> all_pairs_stored g p = true ->
  exists g', total_vertex_sequence_weight p g = (Return (path_sum g p), g') /\
             same_edges g g' /\ cache_coherent g'.
Proof.
  intros Hc Hne Hs. unfold total_vertex_sequence_weight.
  destruct (cache_get (cache g) p) as [w|] eqn:C.
  - destruct (Hc p w C) as (_ & _ & ->). exists g. auto using same_edges_refl.
  - destruct p as [|v1 rest]; [contradiction|]. cbn [total_body].
    rewrite (@total_loop_stored g rest v1 0 Hs). fold (path_sum g (v1 :: rest)).
    eexists. split; [reflexivity|].
    match goal with |- same_edges g ?x /\ _ =>
      assert (S : same_edges g x) by (repeat split); set (g' := x) in *
    end.
    split; [exact S|].
    intros q w. rewrite (same_edges_all_pairs_stored _ S), (same_edges_path_sum _ S).
    subst g'. cbn [cache]. rewrite cache_get_app.
    destruct (cache_get (cache g) q) as [w'|] eqn:Cq.
    + intros [= <-]. apply (Hc q w' Cq).
    + destruct (path_eqb (v1 :: rest) q) eqn:E; [|discriminate].
      apply path_eqb_eq in E. subst q. intros [= <-]. repeat split; auto.
Qed.

Lemma total_unstored g p u v :
  cache_coherent g -> first_unstored g p = Some (u, v) ->
  total_vertex_sequence_weight p g = (Raise (KeyError v), looked_up g u).
Proof.
  intros Hc Hf. unfold total_vertex_sequence_weight.
  destruct (cache_get (cache g) p) as [w|] eqn:C.
  - destruct (Hc p w C) as (_ & A & _).
    apply all_pairs_stored_first_unstored in A. congruence.
  - destruct p as [|v1 rest]; [discriminate|]. cbn [total_body].
    now rewrite (@total_loop_unstored g rest v1 0 u v Hf).
Qed.

Lemma Qltb_lt x y : Qltb x y = true <-> x < y.
Proof.
  unfold Qltb. rewrite negb_true_iff. split.
  - intros H. apply Qnot_le_lt. intros L. apply Qle_bool_iff in L. congruence.
  - intros H. destruct (Qle_bool y x) eqn:E; [|reflexivity].
    apply Qle_bool_iff in E. exfalso. exact (Qlt_not_le _ _ H E).
Qed.

(** What [min_vertex_sequence_weight] returns on two sequences of stored
    edges: the first one exactly when its sum is strictly the smaller one,
    the second one otherwise, a tie included. *)
Lemma min_stored g p q :
  cache_coherent g -> p <> [] -> q <> [] ->
  all_pairs_stored g p = true -> all_pairs_stored g q = true ->
  exists g', min_vertex_sequence_weight p q g
             = (Return (if Qltb (path_sum g p) (path_sum g q) then p else q), g') /\
             same_edges g g' /\ cache_coherent g'.
Proof.
  intros Hc Hp Hq Sp Sq. unfold min_vertex_sequence_weight.
  destruct (total_stored Hc Hp Sp) as (g1 & E1 & S1 & C1).
  rewrite (bind_Return _ _ _ E1).
  rewrite <- (same_edges_all_pairs_stored _ S1) in Sq.
  destruct (total_stored C1 Hq Sq) as (g2 & E2 & S2 & C2).
  rewrite (bind_Return _ _ _ E2). rewrite (same_edges_path_sum _ S1).
  exists g2. split; [|split; [eapply same_edges_trans; eauto | exact C2]].
  destruct (Qltb _ _); reflexivity.
Qed.

(** ** The relaxation step on recorded paths of stored edges *)

Lemma recorded_set_same (d : TypingVisited) k p : recorded (dict_set d k p) k = p.
Proof. unfold recorded. now rewrite dict_get_set_same. Qed.

Lemma recorded_set_other (d : TypingVisited) k k' p :
  k <> k' -> recorded (dict_set d k p) k' = recorded d k'.
Proof. intros H. unfold recorded. now rewrite dict_get_set_other. Qed.

Lemma visited_get_recorded visited v :
  exists visited',
    visited_get visited v = (recorded visited v, visited') /\
    forall u, recorded visited' u = recorded visited u.
Proof.
  unfold visited_get, recorded.
  destruct (dict_get visited v) as [p|] eqn:G.
  - exists visited. auto.
  - eexists. split; [reflexivity|]. intros u.
    destruct (Vertex_eqb v u) eqn:E.
    + apply Vertex_eqb_eq in E. subst u. now rewrite dict_get_set_same, G.
    + apply Vertex_eqb_neq in E. now rewrite dict_get_set_other.
Qed.

(** The relaxation step on a vertex without a recorded path: the path of
    the origin, extended by the vertex, is recorded, the call returns true
    and the graph is not touched. *)
Lemma visit_unvisited g visited v from_vertex :
  recorded visited v = [] ->
  exists visited',
    visit_vertex_neighbors v from_vertex visited g = (Return (true, visited'), g) /\
    recorded visited' v = recorded visited from_vertex ++ [v] /\
    forall u, u <> v -> recorded visited' u = recorded visited u.
Proof.
  intros Hv. unfold visit_vertex_neighbors.
  destruct (visited_get_recorded visited v) as (visited1 & -> & R1).
  rewrite Hv.
  destruct (visited_get_recorded visited1 from_vertex) as (visited2 & -> & R2).
  eexists. split; [reflexivity|]. split.
  - now rewrite recorded_set_same, R1.
  - intros u Hu. rewrite recorded_set_other by congruence. now rewrite R2, R1.
Qed.

(** C3.  On the complete diamond the sequences (a,b,d) and (a,c,d) have the
    same total weight, 5/2, and [min_vertex_sequence_weight] returns the
    second one, (a,c,d): a tie does not keep the first argument.  The
    function returns its first argument only when that one is strictly
    lighter (lemma [min_stored]). *)
Theorem min_vertex_sequence_weight_tie :
  path_sum complete_diamond [vtx_a; vtx_b; vtx_d] == 5 # 2 /\
  path_sum complete_diamond [vtx_a; vtx_c; vtx_d] == 5 # 2 /\
  fst (min_vertex_sequence_weight [vtx_a; vtx_b; vtx_d] [vtx_a; vtx_c; vtx_d]
                                  complete_diamond)
  = Return [vtx_a; vtx_c; vtx_d].
Proof. repeat split; vm_compute; reflexivity. Qed.

(** C2.  On the complete diamond, with (a,b,d) recorded for [d] and (a,c)
    for [c], the visit of [d] from [c] has the candidate (a,c,d) of the same
    weight 5/2 as the recorded path: the code replaces the recorded path by
    the candidate and returns true.  It also returns true when the candidate
    is the very path already recorded, as for [b] visited from [a] again.
    The step on a vertex without a recorded path is as claimed (lemma
    [visit_unvisited]); lemma [visit_recorded] states what the step does
    otherwise. *)
Theorem visit_vertex_neighbors_tie :
  path_sum complete_diamond (recorded diamond_visited_via_b vtx_d)
  == path_sum complete_diamond (recorded diamond_visited_via_b vtx_c ++ [vtx_d])
  /\ (exists visited' g',
        visit_vertex_neighbors vtx_d vtx_c diamond_visited_via_b complete_diamond
        = (Return (true, visited'), g') /\
        recorded visited' vtx_d = [vtx_a; vtx_c; vtx_d])
  /\ (exists visited' g',
        visit_vertex_neighbors vtx_b vtx_a diamond_visited_via_b complete_diamond
        = (Return (true, visited'), g') /\
        recorded visited' vtx_b = recorded diamond_visited_via_b vtx_b).
Proof.
  split; [vm_compute; reflexivity|].
  split; do 2 eexists; split; vm_compute; reflexivity.
Qed.

Lemma cache_coherent_empty g : cache g = [] -> cache_coherent g.
Proof. intros E p w. rewrite E. discriminate. Qed.


(** A stale entry of the memo table is returned as it is: after the edge a-b
    was overwritten with weight 2, the sequence (a,b) still weighs 1. *)
Lemma total_vertex_sequence_weight_stale :
  all_pairs_stored overwritten_graph [vtx_a; vtx_b] = true /\
  path_sum overwritten_graph [vtx_a; vtx_b] == 2 /\
  exists w, fst (total_vertex_sequence_weight [vtx_a; vtx_b] overwritten_graph)
            = Return w /\ w == 1.
Proof.
  split; [reflexivity|]. split; [vm_compute; reflexivity|].
  eexists. split; vm_compute; reflexivity.
Qed.

(* ===================================================================== *)
(** ** Binary64 arithmetic on weights in range *)
(* ===================================================================== *)

Lemma Pos_iter_shifted m d : Pos.iter xO m d = shifted m (Pos.to_nat d).
Proof. unfold shifted. now rewrite Pos2Nat.inj_iter. Qed.

Lemma shifted_S m n : shifted m (S n) = xO (shifted m n).
Proof. reflexivity. Qed.

Lemma shifted_digits m n :
  Zpos (SpecFloat.digits2_pos (shifted m n))
  = (Zpos (SpecFloat.digits2_pos m) + Z.of_nat n)%Z.
Proof.
  induction n as [|n IH]; [cbn; lia|].
  rewrite shifted_S. cbn [SpecFloat.digits2_pos].
  rewrite Pos2Z.inj_succ, IH. lia.
Qed.

Lemma shifted_value m n : Zpos (shifted m n) = (Zpos m * 2 ^ Z.of_nat n)%Z.
Proof.
  induction n as [|n IH]; [cbn; lia|].
  rewrite shifted_S, Pos2Z.inj_xO, IH, Nat2Z.inj_succ, Z.pow_succ_r; lia.
Qed.

Lemma shifted_add m a b : shifted (shifted m a) b = shifted m (a + b).
Proof. unfold shifted. rewrite (Nat.add_comm a b). now rewrite Nat.iter_add. Qed.

Lemma iter_pos_nat A (f : A -> A) p :
  forall x, SpecFloat.iter_pos f p x = Nat.iter (Pos.to_nat p) f x.
Proof.
  induction p as [p IH | p IH |]; intros x; cbn [SpecFloat.iter_pos].
  - rewrite !IH, Pos2Nat.inj_xI.
    replace (S (2 * Pos.to_nat p)) with (Pos.to_nat p + (Pos.to_nat p + 1))%nat
      by lia.
    now rewrite !Nat.iter_add.
  - rewrite !IH, Pos2Nat.inj_xO.
    replace (2 * Pos.to_nat p)%nat with (Pos.to_nat p + Pos.to_nat p)%nat
      by lia.
    now rewrite Nat.iter_add.
  - reflexivity.
Qed.

Lemma shr_shifted n : forall m,
  Nat.iter n SpecFloat.shr_1
           (SpecFloat.Build_shr_record (Zpos (shifted m n)) false false)
  = SpecFloat.Build_shr_record (Zpos m) false false.
Proof.
  induction n as [|n IH]; intros m; [reflexivity|].
  rewrite Nat.iter_succ_r, shifted_S. cbn [SpecFloat.shr_1 orb].
  apply IH.
Qed.

Lemma fexp64 x : SpecFloat.fexp 53 1024 x = Z.max (x - 53) (-1074).
Proof. reflexivity. Qed.

Lemma digits_lower m :
  (2 ^ (Zpos (SpecFloat.digits2_pos m) - 1) <= Zpos m)%Z.
Proof.
  induction m as [m IH | m IH |]; cbn [SpecFloat.digits2_pos];
    [| |cbn; lia];
    rewrite Pos2Z.inj_succ;
    replace (Z.succ (Zpos (SpecFloat.digits2_pos m)) - 1)%Z
      with (Z.succ (Zpos (SpecFloat.digits2_pos m) - 1))%Z by lia;
    rewrite Z.pow_succ_r by lia; lia.
Qed.

Lemma digits_upper m : (Zpos m < 2 ^ Zpos (SpecFloat.digits2_pos m))%Z.
Proof.
  induction m as [m IH | m IH |]; cbn [SpecFloat.digits2_pos];
    [| |cbn; lia];
    rewrite Pos2Z.inj_succ, Z.pow_succ_r by lia; lia.
Qed.

Lemma digits_le m :
  (Zpos m < 2 ^ 53)%Z -> (Zpos (SpecFloat.digits2_pos m) <= 53)%Z.
Proof.
  intros H. pose proof (digits_lower m) as L.
  destruct (Z_le_gt_dec (Zpos (SpecFloat.digits2_pos m)) 53) as [|G]; [assumption|].
  exfalso.
  assert (2 ^ 53 <= 2 ^ (Zpos (SpecFloat.digits2_pos m) - 1))%Z
    by (apply Z.pow_le_mono_r; lia).
  lia.
Qed.

(** The last steps of a rounding that has nothing to round. *)
Lemma binary_round_aux_exact s m e mz t :
  SpecFloat.shr_fexp 53 1024 m e SpecFloat.loc_Exact
  = (SpecFloat.Build_shr_record (Zpos mz) false false, t) ->
  SpecFloat.fexp 53 1024 (Zpos (SpecFloat.digits2_pos mz) + t) = t ->
  (t <= 971)%Z ->
  SpecFloat.binary_round_aux 53 1024 s m e SpecFloat.loc_Exact
  = SpecFloat.S754_finite s mz t.
Proof.
  intros H1 H2 H3. unfold SpecFloat.binary_round_aux. rewrite H1.
  cbn [SpecFloat.shr_m SpecFloat.loc_of_shr_record SpecFloat.round_nearest_even].
  unfold SpecFloat.shr_fexp. cbn [SpecFloat.Zdigits2]. rewrite H2, Z.sub_diag.
  cbn [SpecFloat.shr SpecFloat.shr_record_of_loc SpecFloat.shr_m].
  replace (Z.leb t (1024 - 53)) with true; [reflexivity|].
  symmetry. apply Z.leb_le. lia.
Qed.

Lemma binary_round_shifted s m0 e j :
  (SpecFloat.fexp 53 1024 (Zpos (SpecFloat.digits2_pos m0) + e) <= e)%Z ->
  (e <= 971)%Z ->
  SpecFloat.binary_round 53 1024 s (shifted m0 j) (e - Z.of_nat j)
  = SpecFloat.S754_finite s
      (shifted m0 (Z.to_nat
         (e - SpecFloat.fexp 53 1024 (Zpos (SpecFloat.digits2_pos m0) + e))))
      (SpecFloat.fexp 53 1024 (Zpos (SpecFloat.digits2_pos m0) + e)).
Proof.
  set (t := SpecFloat.fexp 53 1024 (Zpos (SpecFloat.digits2_pos m0) + e)).
  intros Ht He.
  assert (Hc : SpecFloat.fexp 53 1024
                 (Zpos (SpecFloat.digits2_pos (shifted m0 (Z.to_nat (e - t)))) + t)
               = t).
  { rewrite shifted_digits, Z2Nat.id by lia.
    replace (Zpos (SpecFloat.digits2_pos m0) + (e - t) + t)%Z
      with (Zpos (SpecFloat.digits2_pos m0) + e)%Z by lia.
    reflexivity. }
  unfold SpecFloat.binary_round.
  replace (SpecFloat.fexp 53 1024
             (Zpos (SpecFloat.digits2_pos (shifted m0 j)) + (e - Z.of_nat j)))
    with t
    by (rewrite shifted_digits; unfold t; f_equal; lia).
  unfold SpecFloat.shl_align.
  destruct (t - (e - Z.of_nat j))%Z as [|n|n] eqn:En.
  - (* already aligned *)
    assert (Ej : j = Z.to_nat (e - t)) by lia.
    apply binary_round_aux_exact; [|exact Hc | lia].
    unfold SpecFloat.shr_fexp. cbn [SpecFloat.Zdigits2].
    rewrite shifted_digits.
    replace (SpecFloat.fexp 53 1024
               (Zpos (SpecFloat.digits2_pos m0) + Z.of_nat j + (e - Z.of_nat j)))
      with t by (unfold t; f_equal; lia).
    rewrite En. cbn [SpecFloat.shr SpecFloat.shr_record_of_loc].
    rewrite Ej at 1. f_equal. lia.
  - (* bits to drop, all of them zero *)
    apply binary_round_aux_exact; [|exact Hc | lia].
    unfold SpecFloat.shr_fexp. cbn [SpecFloat.Zdigits2].
    rewrite shifted_digits.
    replace (SpecFloat.fexp 53 1024
               (Zpos (SpecFloat.digits2_pos m0) + Z.of_nat j + (e - Z.of_nat j)))
      with t by (unfold t; f_equal; lia).
    rewrite En. cbn [SpecFloat.shr SpecFloat.shr_record_of_loc].
    rewrite iter_pos_nat.
    replace j with (Z.to_nat (e - t) + Pos.to_nat n)%nat by lia.
    rewrite <- shifted_add, shr_shifted. f_equal. lia.
  - (* bits to add *)
    rewrite Pos_iter_shifted, shifted_add.
    replace (j + Pos.to_nat n)%nat with (Z.to_nat (e - t)) by lia.
    apply binary_round_aux_exact; [|exact Hc | lia].
    unfold SpecFloat.shr_fexp. cbn [SpecFloat.Zdigits2].
    rewrite Hc, Z.sub_diag. reflexivity.
Qed.

Lemma b64_exponent_le m e :
  (Zpos m < 2 ^ 53)%Z -> (-1074 <= e)%Z -> (b64_exponent m e <= e)%Z.
Proof.
  intros Hm He. unfold b64_exponent. rewrite fexp64.
  pose proof (digits_le Hm). lia.
Qed.

Lemma binary_round_b64 s m k j :
  (Zpos m < 2 ^ 53)%Z -> (k <= 1074)%nat ->
  SpecFloat.binary_round 53 1024 s (shifted m j) (- Z.of_nat k - Z.of_nat j)
  = SpecFloat.S754_finite s
      (shifted m (Z.to_nat (- Z.of_nat k - b64_exponent m (- Z.of_nat k))))
      (b64_exponent m (- Z.of_nat k)).
Proof.
  intros Hm Hk. apply binary_round_shifted; [|lia].
  apply b64_exponent_le; [exact Hm | lia].
Qed.

Lemma b64_Zpos k m :
  (Zpos m < 2 ^ 53)%Z -> (k <= 1074)%nat ->
  b64 k (Zpos m)
  = SpecFloat.S754_finite false
      (shifted m (Z.to_nat (- Z.of_nat k - b64_exponent m (- Z.of_nat k))))
      (b64_exponent m (- Z.of_nat k)).
Proof.
  intros Hm Hk. rewrite <- (@binary_round_b64 false m k 0 Hm Hk).
  unfold b64. cbn [SpecFloat.binary_normalize]. f_equal. cbn. lia.
Qed.

Lemma b64_Zneg k m :
  (Zpos m < 2 ^ 53)%Z -> (k <= 1074)%nat ->
  b64 k (Zneg m)
  = SpecFloat.S754_finite true
      (shifted m (Z.to_nat (- Z.of_nat k - b64_exponent m (- Z.of_nat k))))
      (b64_exponent m (- Z.of_nat k)).
Proof.
  intros Hm Hk. rewrite <- (@binary_round_b64 true m k 0 Hm Hk).
  unfold b64. cbn [SpecFloat.binary_normalize]. f_equal. cbn. lia.
Qed.

Lemma binary_normalize_shifted k z j :
  (Z.abs z < 2 ^ 53)%Z -> (k <= 1074)%nat ->
  SpecFloat.binary_normalize 53 1024 (z * 2 ^ Z.of_nat j)
                             (- Z.of_nat k - Z.of_nat j) false
  = b64 k z.
Proof.
  intros Hz Hk. destruct z as [|m|m].
  - reflexivity.
  - rewrite (@b64_Zpos k m Hz Hk), <- shifted_value.
    cbn [SpecFloat.binary_normalize]. now apply binary_round_b64.
  - rewrite (@b64_Zneg k m Hz Hk).
    replace (Z.neg m * 2 ^ Z.of_nat j)%Z with (Z.neg (shifted m j))
      by (rewrite <- Pos2Z.opp_pos, shifted_value; lia).
    cbn [SpecFloat.binary_normalize]. now apply binary_round_b64.
Qed.

Lemma shl_align_shifted m a ex ez :
  (ez <= ex)%Z ->
  fst (SpecFloat.shl_align (shifted m a) ex ez)
  = shifted m (a + Z.to_nat (ex - ez)).
Proof.
  intros H. unfold SpecFloat.shl_align.
  destruct (ez - ex)%Z as [|n|n] eqn:E; cbn [fst].
  - replace (Z.to_nat (ex - ez)) with 0%nat by lia. now rewrite Nat.add_0_r.
  - lia.
  - rewrite Pos_iter_shifted, shifted_add. f_equal. lia.
Qed.

(** The signed integer of a sign and a mantissa. *)
Lemma cond_Zopp_shifted (s : bool) m n :
  SpecFloat.cond_Zopp s (Zpos (shifted m n))
  = ((if s then Zneg m else Zpos m) * 2 ^ Z.of_nat n)%Z.
Proof.
  rewrite shifted_value. destruct s; cbn [SpecFloat.cond_Zopp]; [|reflexivity].
  rewrite <- Pos2Z.opp_pos. lia.
Qed.

Lemma b64_add_finite k (s1 s2 : bool) m1 m2 :
  (k <= 1074)%nat -> (Zpos m1 < 2 ^ 53)%Z -> (Zpos m2 < 2 ^ 53)%Z ->
  (Z.abs ((if s1 then Zneg m1 else Zpos m1) + (if s2 then Zneg m2 else Zpos m2))
   < 2 ^ 53)%Z ->
  b64_add (b64 k (if s1 then Zneg m1 else Zpos m1))
          (b64 k (if s2 then Zneg m2 else Zpos m2))
  = b64 k ((if s1 then Zneg m1 else Zpos m1) + (if s2 then Zneg m2 else Zpos m2)).
Proof.
  intros Hk H1 H2 H12.
  set (e := (- Z.of_nat k)%Z).
  pose proof (@b64_exponent_le m1 e H1 ltac:(unfold e; lia)) as L1.
  pose proof (@b64_exponent_le m2 e H2 ltac:(unfold e; lia)) as L2.
  assert (F1 : b64 k (if s1 then Zneg m1 else Zpos m1)
               = SpecFloat.S754_finite s1
                   (shifted m1 (Z.to_nat (e - b64_exponent m1 e)))
                   (b64_exponent m1 e))
    by (destruct s1; [now apply b64_Zneg | now apply b64_Zpos]).
  assert (F2 : b64 k (if s2 then Zneg m2 else Zpos m2)
               = SpecFloat.S754_finite s2
                   (shifted m2 (Z.to_nat (e - b64_exponent m2 e)))
                   (b64_exponent m2 e))
    by (destruct s2; [now apply b64_Zneg | now apply b64_Zpos]).
  rewrite F1, F2. unfold b64_add, SpecFloat.SFadd.
  set (ez := Z.min (b64_exponent m1 e) (b64_exponent m2 e)).
  rewrite !shl_align_shifted by (unfold ez; lia).
  rewrite !cond_Zopp_shifted.
  replace (Z.to_nat (e - b64_exponent m1 e)
           + Z.to_nat (b64_exponent m1 e - ez))%nat
    with (Z.to_nat (e - ez)) by (unfold ez; lia).
  replace (Z.to_nat (e - b64_exponent m2 e)
           + Z.to_nat (b64_exponent m2 e - ez))%nat
    with (Z.to_nat (e - ez)) by (unfold ez; lia).
  rewrite <- Z.mul_add_distr_r.
  replace ez with (- Z.of_nat k - Z.of_nat (Z.to_nat (e - ez)))%Z at 2
    by (unfold e, ez; lia).
  now apply binary_normalize_shifted.
Qed.

Lemma signed_cases z :
  z = 0%Z \/ exists (s : bool) m, z = if s then Zneg m else Zpos m.
Proof.
  destruct z as [|m|m]; [now left | right; now exists false, m
                        | right; now exists true, m].
Qed.

Lemma b64_finite k z :
  (k <= 1074)%nat -> (Z.abs z < 2 ^ 53)%Z -> z <> 0%Z ->
  exists s m e, b64 k z = SpecFloat.S754_finite s m e.
Proof.
  intros Hk Hz Nz. destruct z as [|m|m]; [contradiction| |].
  - rewrite (@b64_Zpos k m Hz Hk). eauto.
  - rewrite (@b64_Zneg k m Hz Hk). eauto.
Qed.

(** binary64 adds two multiples of 2^-k without rounding when the two
    numerators and their sum are below 2^53. *)
Lemma b64_add_exact k z1 z2 :
  (k <= 1074)%nat ->
  (Z.abs z1 < 2 ^ 53)%Z -> (Z.abs z2 < 2 ^ 53)%Z ->
  (Z.abs (z1 + z2) < 2 ^ 53)%Z ->
  b64_add (b64 k z1) (b64 k z2) = b64 k (z1 + z2).
Proof.
  intros Hk H1 H2 H12.
  destruct (signed_cases z1) as [-> | (s1 & m1 & ->)].
  - change (b64 k 0) with (SpecFloat.S754_zero false). rewrite Z.add_0_l.
    destruct (Z.eq_dec z2 0) as [-> | N]; [reflexivity|].
    destruct (b64_finite Hk H2 N) as (s & m & e & ->). reflexivity.
  - destruct (signed_cases z2) as [-> | (s2 & m2 & ->)].
    + change (b64 k 0) with (SpecFloat.S754_zero false). rewrite Z.add_0_r.
      assert (N : (if s1 then Z.neg m1 else Z.pos m1) <> 0%Z)
        by (destruct s1; discriminate).
      destruct (b64_finite Hk H1 N) as (s & m & e & ->). reflexivity.
    + apply b64_add_finite; try assumption.
      * destruct s1; exact H1.
      * destruct s2; exact H2.
Qed.

Lemma shifted_compare m1 m2 j :
  Pos.compare_cont Eq (shifted m1 j) (shifted m2 j) = Pos.compare m1 m2.
Proof.
  induction j as [|j IH]; [reflexivity|].
  rewrite !shifted_S. cbn [Pos.compare_cont]. exact IH.
Qed.

Lemma b64_exponent_lt m1 m2 e :
  (b64_exponent m1 e < b64_exponent m2 e)%Z -> (Zpos m1 < Zpos m2)%Z.
Proof.
  unfold b64_exponent. rewrite !fexp64. intros H.
  pose proof (digits_upper m1) as U. pose proof (digits_lower m2) as L.
  assert (2 ^ Zpos (SpecFloat.digits2_pos m1)
          <= 2 ^ (Zpos (SpecFloat.digits2_pos m2) - 1))%Z
    by (apply Z.pow_le_mono_r; lia).
  lia.
Qed.

Lemma b64_compare_mantissas m1 m2 e :
  match Z.compare (b64_exponent m1 e) (b64_exponent m2 e) with
  | Lt => Lt
  | Gt => Gt
  | Eq => Pos.compare_cont Eq
            (shifted m1 (Z.to_nat (e - b64_exponent m1 e)))
            (shifted m2 (Z.to_nat (e - b64_exponent m2 e)))
  end = Pos.compare m1 m2.
Proof.
  destruct (Z.compare_spec (b64_exponent m1 e) (b64_exponent m2 e))
    as [E | L | G].
  - rewrite E. apply shifted_compare.
  - symmetry. apply Pos.compare_lt_iff.
    pose proof (b64_exponent_lt _ _ _ L). lia.
  - symmetry. apply Pos.compare_gt_iff.
    pose proof (b64_exponent_lt _ _ _ G). lia.
Qed.

Lemma b64_compare k z1 z2 :
  (k <= 1074)%nat -> (Z.abs z1 < 2 ^ 53)%Z -> (Z.abs z2 < 2 ^ 53)%Z ->
  SpecFloat.SFcompare (b64 k z1) (b64 k z2) = Some (Z.compare z1 z2).
Proof.
  intros Hk H1 H2.
  assert (F : forall (s : bool) m,
             (Z.abs (if s then Zneg m else Zpos m) < 2 ^ 53)%Z ->
             b64 k (if s then Zneg m else Zpos m)
             = SpecFloat.S754_finite s
                 (shifted m (Z.to_nat (- Z.of_nat k
                                       - b64_exponent m (- Z.of_nat k))))
                 (b64_exponent m (- Z.of_nat k))).
  { intros s m H. destruct s; [now apply b64_Zneg | now apply b64_Zpos]. }
  destruct (signed_cases z1) as [-> | (s1 & m1 & ->)];
    destruct (signed_cases z2) as [-> | (s2 & m2 & ->)].
  - reflexivity.
  - rewrite (F s2 m2 H2). change (b64 k 0) with (SpecFloat.S754_zero false).
    now destruct s2.
  - rewrite (F s1 m1 H1). change (b64 k 0) with (SpecFloat.S754_zero false).
    now destruct s1.
  - rewrite (F s1 m1 H1), (F s2 m2 H2). cbn [SpecFloat.SFcompare].
    destruct s1, s2; try reflexivity; f_equal.
    + cbn [Z.compare].
      rewrite <- (b64_compare_mantissas m1 m2 (- Z.of_nat k)).
      now destruct (Z.compare (b64_exponent m1 (- Z.of_nat k))
                              (b64_exponent m2 (- Z.of_nat k))).
    + cbn [Z.compare]. apply b64_compare_mantissas.
Qed.

(** binary64 compares two multiples of 2^-k as their numerators compare. *)
Lemma b64_ltb_exact k z1 z2 :
  (k <= 1074)%nat -> (Z.abs z1 < 2 ^ 53)%Z -> (Z.abs z2 < 2 ^ 53)%Z ->
  b64_ltb (b64 k z1) (b64 k z2) = (z1 <? z2)%Z.
Proof.
  intros Hk H1 H2. unfold b64_ltb, SpecFloat.SFltb.
  rewrite (@b64_compare k z1 z2 Hk H1 H2). unfold Z.ltb.
  now destruct (Z.compare z1 z2).
Qed.

(** What binary64 does outside this range: 1e16 + 1.0 is 1e16. *)
Lemma b64_add_rounds :
  b64_add (b64 0 (10 ^ 16)) (b64 0 1) = b64 0 (10 ^ 16).
Proof. vm_compute. reflexivity. Qed.

Lemma Qred_inject_Z z : Qred (inject_Z z) = inject_Z z.
Proof.
  unfold Qred, inject_Z.
  pose proof (Z.ggcd_gcd z 1) as G.
  pose proof (Z.ggcd_correct_divisors z 1) as D.
  destruct (Z.ggcd z 1) as (g, (n, d)). cbn [fst snd] in *.
  rewrite Z.gcd_1_r in G. subst g. destruct D as (D1 & D2).
  replace n with z by lia. replace d with 1%Z by lia. reflexivity.
Qed.

Lemma scaled_integer k q z :
  q * inject_Z (2 ^ Z.of_nat k) == inject_Z z -> scaled k q = inject_Z z.
Proof.
  intros H. unfold scaled. rewrite (Qred_complete _ _ H).
  apply Qred_inject_Z.
Qed.

Lemma dyadic_spec k b q :
  dyadic k b q = true <->
  q * inject_Z (2 ^ Z.of_nat k) == inject_Z (numerator k q) /\
  (Z.abs (numerator k q) <= b)%Z.
Proof.
  unfold dyadic. rewrite andb_true_iff, Pos.eqb_eq, Z.leb_le. split.
  - intros (D & B). split; [|exact B].
    rewrite <- (Qred_correct (q * inject_Z (2 ^ Z.of_nat k))).
    fold (scaled k q). unfold numerator.
    destruct (scaled k q) as [n d]. cbn [Qden Qnum] in *. subst d. reflexivity.
  - intros (E & B). split; [|exact B].
    now rewrite (@scaled_integer k q _ E).
Qed.

Lemma dyadic_intro k b q z :
  q * inject_Z (2 ^ Z.of_nat k) == inject_Z z -> (Z.abs z <= b)%Z ->
  dyadic k b q = true /\ numerator k q = z.
Proof.
  intros E B. unfold dyadic, numerator. rewrite (@scaled_integer k q z E).
  cbn [inject_Z Qden Qnum Pos.eqb andb]. split; [now apply Z.leb_le | reflexivity].
Qed.

Lemma dyadic_0 k b : (0 <= b)%Z -> dyadic k b 0 = true /\ numerator k 0 = 0%Z.
Proof.
  intros B. apply dyadic_intro; [|cbn; lia]. rewrite Qmult_0_l. reflexivity.
Qed.

Lemma dyadic_plus k b1 b2 x y :
  dyadic k b1 x = true -> dyadic k b2 y = true ->
  dyadic k (b1 + b2) (x + y) = true /\
  numerator k (x + y) = (numerator k x + numerator k y)%Z.
Proof.
  intros Hx Hy. apply dyadic_spec in Hx, Hy.
  destruct Hx as (Ex & Bx). destruct Hy as (Ey & By).
  apply dyadic_intro; [|lia].
  rewrite Qmult_plus_distr_l, Ex, Ey, inject_Z_plus. reflexivity.
Qed.

Lemma dyadic_le k b b' q : (b <= b')%Z -> dyadic k b q = true -> dyadic k b' q = true.
Proof.
  intros L H. apply dyadic_spec in H. destruct H as (E & B).
  apply dyadic_spec. split; [exact E | lia].
Qed.

Lemma scale_positive k : 0 < inject_Z (2 ^ Z.of_nat k).
Proof.
  change 0 with (inject_Z 0). rewrite <- Zlt_Qlt.
  apply Z.pow_pos_nonneg; lia.
Qed.

Lemma dyadic_le_bool k b1 b2 x y :
  dyadic k b1 x = true -> dyadic k b2 y = true ->
  Qle_bool x y = (numerator k x <=? numerator k y)%Z.
Proof.
  intros Hx Hy. apply dyadic_spec in Hx, Hy.
  destruct Hx as (Ex & _). destruct Hy as (Ey & _).
  apply Bool.eq_iff_eq_true.
  rewrite Qle_bool_iff, Z.leb_le, Zle_Qle, <- Ex, <- Ey.
  symmetry. apply Qmult_le_r. apply scale_positive.
Qed.

Lemma dyadic_ltb k b1 b2 x y :
  dyadic k b1 x = true -> dyadic k b2 y = true ->
  Qltb x y = (numerator k x <? numerator k y)%Z.
Proof.
  intros Hx Hy. unfold Qltb. rewrite (@dyadic_le_bool k b2 b1 y x Hy Hx).
  symmetry. apply Z.ltb_antisym.
Qed.

Lemma binary64_of_plus k b1 b2 x y :
  (k <= 1074)%nat -> (b1 + b2 < 2 ^ 53)%Z -> (0 <= b1)%Z -> (0 <= b2)%Z ->
  dyadic k b1 x = true -> dyadic k b2 y = true ->
  b64_add (binary64_of k x) (binary64_of k y) = binary64_of k (x + y).
Proof.
  intros Hk B P1 P2 Hx Hy.
  destruct (@dyadic_plus k b1 b2 x y Hx Hy) as (_ & N).
  apply dyadic_spec in Hx, Hy.
  unfold binary64_of. rewrite N. apply b64_add_exact; [exact Hk | lia..].
Qed.

Lemma binary64_of_ltb k b1 b2 x y :
  (k <= 1074)%nat -> (b1 < 2 ^ 53)%Z -> (b2 < 2 ^ 53)%Z ->
  dyadic k b1 x = true -> dyadic k b2 y = true ->
  b64_ltb (binary64_of k x) (binary64_of k y) = Qltb x y.
Proof.
  intros Hk B1 B2 Hx Hy. rewrite (@dyadic_ltb k b1 b2 x y Hx Hy).
  apply dyadic_spec in Hx, Hy.
  unfold binary64_of. apply b64_ltb_exact; [exact Hk | lia..].
Qed.

(** The sum of weights in the range, from left to right, in the rationals
    and in binary64. *)
Lemma fold_exact k b ws :
  (k <= 1074)%nat -> (0 <= b)%Z ->
  Forall (fun w => dyadic k b w = true) ws ->
  forall acc a,
    (0 <= a)%Z -> dyadic k a acc = true ->
    (a + Z.of_nat (List.length ws) * b < 2 ^ 53)%Z ->
    dyadic k (a + Z.of_nat (List.length ws) * b) (fold_left Qplus ws acc) = true /\
    fold_left (fun f w => b64_add f (binary64_of k w)) ws (binary64_of k acc)
    = binary64_of k (fold_left Qplus ws acc).
Proof.
  intros Hk Hb. induction 1 as [|w ws Hw _ IH]; intros acc a Ha Hacc B.
  - cbn [fold_left List.length]. split; [|reflexivity].
    eapply dyadic_le; [|exact Hacc]. cbn. lia.
  - cbn [fold_left]. cbn [List.length] in B |- *.
    rewrite Nat2Z.inj_succ in B |- *.
    destruct (@dyadic_plus k a b acc w Hacc Hw) as (D & _).
    destruct (IH (acc + w) (a + b)%Z ltac:(lia) D ltac:(lia)) as (D' & F').
    split; [eapply dyadic_le; [|exact D']; lia|].
    rewrite (@binary64_of_plus k a b acc w Hk ltac:(nia) Ha Hb Hacc Hw).
    exact F'.
Qed.

(** ** Sums of stored weights that binary64 forms without rounding *)

Lemma exact_weights_stored k b g u v e :
  exact_weights k b g = true -> stored_edge g u v = Some e ->
  dyadic k b (weight e) = true.
Proof.
  intros H S.
  destruct (@stored_edge_Some g u v e S) as (inner & G & D).
  apply dict_get_In in G, D. unfold exact_weights in H.
  rewrite forallb_forall in H. specialize (H (u, inner) G). cbn [snd] in H.
  rewrite forallb_forall in H. exact (H (v, e) D).
Qed.

Lemma pair_weights_dyadic k b g p :
  exact_weights k b g = true ->
  Forall (fun w => dyadic k b w = true) (pair_weights g p).
Proof.
  intros H. induction p as [|u p IH]; [constructor|].
  destruct p as [|v p']; [constructor|]. cbn [pair_weights].
  destruct (stored_edge g u v) as [e|] eqn:S; [|exact IH].
  constructor; [exact (@exact_weights_stored k b g u v e H S) | exact IH].
Qed.

Lemma pair_weights_length g p :
  (List.length (pair_weights g p) <= List.length p)%nat.
Proof.
  induction p as [|u p IH]; [apply Nat.le_refl|].
  destruct p as [|v p']; [cbn; lia|].
  change (pair_weights g (u :: v :: p'))
    with (match stored_edge g u v with
          | Some e => weight e :: pair_weights g (v :: p')
          | None => pair_weights g (v :: p')
          end).
  destruct (stored_edge g u v); cbn [List.length] in *; lia.
Qed.

Lemma exact_sums_spec k b n g :
  exact_sums k b n g = true ->
  (k <= 1074)%nat /\ (0 <= b)%Z /\ (Z.of_nat n * b < 2 ^ 53)%Z /\
  exact_weights k b g = true.
Proof.
  unfold exact_sums. rewrite !andb_true_iff, Nat.leb_le, Z.leb_le, Z.ltb_lt.
  tauto.
Qed.

Lemma exact_sums_le k b n m g :
  (m <= n)%nat -> exact_sums k b n g = true -> exact_sums k b m g = true.
Proof.
  intros L H. destruct (exact_sums_spec _ _ _ _ H) as (Hk & Hb & Hn & Hw).
  unfold exact_sums. rewrite !andb_true_iff, Nat.leb_le, Z.leb_le, Z.ltb_lt.
  repeat split; try assumption. nia.
Qed.

(** The sum of a sequence in the range is a binary64 number, and the
    additions of the source, in binary64, give that number. *)
Lemma path_sum_exact k b n g p :
  exact_sums k b n g = true -> (List.length p <= n)%nat ->
  dyadic k (2 ^ 53 - 1) (path_sum g p) = true /\
  binary64_total k g p = binary64_of k (path_sum g p).
Proof.
  intros H L. destruct (exact_sums_spec _ _ _ _ H) as (Hk & Hb & Hn & Hw).
  pose proof (pair_weights_length g p) as Lw.
  destruct (dyadic_0 k (Z.le_refl 0)) as (D0 & N0).
  assert (B : (0 + Z.of_nat (List.length (pair_weights g p)) * b < 2 ^ 53)%Z)
    by nia.
  destruct (@fold_exact k b (pair_weights g p) Hk Hb
              (@pair_weights_dyadic k b g p Hw) 0 0%Z (Z.le_refl 0) D0 B)
    as (D & F).
  split.
  - unfold path_sum. eapply dyadic_le; [|exact D]. lia.
  - unfold binary64_total, path_sum. rewrite <- F.
    unfold binary64_of. now rewrite N0.
Qed.

(** The test of [min_vertex_sequence_weight] on two sequences in the range
    is, in binary64, the comparison of the two sums. *)
Lemma binary64_lighter_exact k b n g p q :
  exact_sums k b n g = true ->
  (List.length p <= n)%nat -> (List.length q <= n)%nat ->
  binary64_lighter k g p q = Qltb (path_sum g p) (path_sum g q).
Proof.
  intros H Lp Lq. destruct (exact_sums_spec _ _ _ _ H) as (Hk & _).
  destruct (@path_sum_exact k b n g p H Lp) as (Dp & Fp).
  destruct (@path_sum_exact k b n g q H Lq) as (Dq & Fq).
  unfold binary64_lighter. rewrite Fp, Fq.
  apply (@binary64_of_ltb k (2 ^ 53 - 1) (2 ^ 53 - 1)); try assumption; lia.
Qed.

Lemma exact_sums_grows k b n g g' :
  grows g g' -> exact_sums k b n g = true -> exact_sums k b n g' = true.
Proof.
  intros (_ & _ & ks & E) H.
  destruct (exact_sums_spec _ _ _ _ H) as (Hk & Hb & Hn & Hw).
  unfold exact_sums. rewrite !andb_true_iff, Nat.leb_le, Z.leb_le, Z.ltb_lt.
  repeat split; try assumption.
  unfold exact_weights. rewrite E, forallb_app. apply andb_true_iff.
  split; [exact Hw|]. unfold empty_entries.
  apply forallb_forall. intros kd Hin. apply in_map_iff in Hin.
  destruct Hin as (x & <- & _). reflexivity.
Qed.



(** ** Read-only calls and the default factory *)

Lemma visit_start v g :
  visit_vertex_neighbors v v visited_factory g = (Return (true, [(v, [v])]), g).
Proof.
  unfold visit_vertex_neighbors, visited_factory, visited_get. cbn.
  rewrite Vertex_eqb_refl. cbn. rewrite Vertex_eqb_refl. reflexivity.
Qed.

Lemma for_neighbors_after_lookup S (body : Vertex -> TypingEdge -> S -> M S) v s g :
  (forall n e s', query (body n e s')) ->
  grows (snd (adjacency_get v g)) (snd (for_neighbors body v s g)).
Proof.
  intros Hb. unfold for_neighbors. unfold bind at 1.
  assert (H : exists inner g1, adjacency_get v g = (Return inner, g1)).
  { unfold adjacency_get. destruct (dict_get (adjacency_list g) v); eauto. }
  destruct H as (inner & g1 & ->). cbn [snd].
  apply (@query_bind _ _ (for_items body inner s)).
  - apply query_for_items, Hb.
  - intros s1. apply query_bind; [apply query_get_graph|].
    intros g0. destruct (truthy (directed g0));
      [apply query_ret | apply query_for_reverse, Hb].
Qed.

Lemma keys_after_entry g v g' :
  dict_get (adjacency_list g) v = None ->
  grows (snd (adjacency_get v g)) g' ->
  exists ks, dict_keys (adjacency_list g')
             = dict_keys (adjacency_list g) ++ v :: ks.
Proof.
  intros G. rewrite (adjacency_get_absent _ _ G). cbn [snd].
  intros (_ & _ & ks & E). exists ks. rewrite E. cbn [with_entry adjacency_list].
  unfold dict_keys, empty_entries.
  rewrite !map_app, map_map, <- app_assoc. cbn. now rewrite map_id.
Qed.

Lemma grows_bind A B (m : M A) (k : A -> M B) g g0 :
  grows g0 (snd (m g)) -> (forall a, query (k a)) ->
  grows g0 (snd (bind m k g)).
Proof.
  intros Hm Hk. unfold bind.
  destruct (m g) as [[a| e |] g1]; cbn [snd] in *; auto.
  eapply grows_trans; [exact Hm | apply Hk].
Qed.

Lemma push_unvisited_neighbors_after_lookup v st g :
  grows (snd (adjacency_get v g)) (snd (push_unvisited_neighbors v st g)).
Proof.
  apply for_neighbors_after_lookup. intros n e [s visited].
  apply query_bind; [apply query_visit | intros [b visited']; apply query_ret].
Qed.

Lemma enqueue_unvisited_neighbors_after_lookup v st g :
  grows (snd (adjacency_get v g)) (snd (enqueue_unvisited_neighbors v st g)).
Proof.
  apply for_neighbors_after_lookup. intros n e [s visited].
  apply query_bind; [apply query_visit | intros [b visited']; apply query_ret].
Qed.

(** The claim C9 as it is written fails for [total_vertex_sequence_weight]:
    on the complete diamond [d] has no adjacency entry, and weighing (a,d)
    leaves the keys as they were. *)
Lemma total_vertex_sequence_weight_final_vertex :
  ~ (forall g p v,
        In v p -> dict_get (adjacency_list g) v = None ->
        In v (dict_keys (adjacency_list
                           (snd (total_vertex_sequence_weight p g))))).
Proof.
  intros H.
  specialize (H complete_diamond [vtx_a; vtx_d] vtx_d
                (or_intror (or_introl eq_refl)) eq_refl).
  vm_compute in H. intuition discriminate.
Qed.

(** C9 (amended).  For a vertex [v] without an adjacency entry:
    [neighbors v] returns and leaves the graph with a fresh empty entry for
    [v] at the end of the mapping; a traversal started at [v] (the recursive
    one with some fuel) leaves [v] among the keys, right after the old ones;
    [total_vertex_sequence_weight], on a table without stale entries,
    inserts the entry exactly when [v] is the first vertex of the first pair
    without a stored edge, and then raises [KeyError]; when all pairs of the
    sequence are stored, as when [v] is only its last vertex, the call
    returns and the adjacency mapping is as before. *)
Theorem read_only_calls_insert_entries (g : Graph) (v : Vertex) :
  dict_get (adjacency_list g) v = None ->
  (dict_keys (adjacency_list (with_entry g v)) = dict_keys (adjacency_list g) ++ [v]
   /\ dict_get (adjacency_list (with_entry g v)) v = Some []
   /\ dict_keys (adjacency_list (with_entry g v)) <> dict_keys (adjacency_list g))
  /\ (exists l, neighbors v g = (Return l, with_entry g v))
  /\ (forall p x, cache_coherent g -> first_unstored g p = Some (v, x) ->
        total_vertex_sequence_weight p g = (Raise (KeyError x), with_entry g v))
  /\ (forall p, cache_coherent g -> p <> [] -> all_pairs_stored g p = true ->
        exists w g', total_vertex_sequence_weight p g = (Return w, g') /\
                     adjacency_list g' = adjacency_list g)
  /\ (forall fuel, exists ks,
        dict_keys (adjacency_list (snd (dfs_traversal (S fuel) v true g)))
        = dict_keys (adjacency_list g) ++ v :: ks)
  /\ (forall fuel, exists ks,
        dict_keys (adjacency_list (snd (dfs_traversal fuel v false g)))
        = dict_keys (adjacency_list g) ++ v :: ks)
  /\ (forall fuel, exists ks,
        dict_keys (adjacency_list (snd (bfs_traversal fuel v g)))
        = dict_keys (adjacency_list g) ++ v :: ks).
Proof.
  intros G. repeat apply conj.
  - unfold with_entry, dict_keys. cbn. now rewrite map_app.
  - unfold with_entry. cbn. rewrite (dict_get_app_r _ _ _ G). cbn.
    now rewrite Vertex_eqb_refl.
  - unfold with_entry, dict_keys. cbn. rewrite map_app. cbn.
    intros E. apply (f_equal (@List.length _)) in E.
    rewrite length_app in E. cbn in E. lia.
  - destruct (neighbors_spec v g) as (inner & g1 & E & ->).
    rewrite (adjacency_get_absent _ _ G) in E. injection E as <- <-. eauto.
  - intros p x Hc F. rewrite (@total_unstored g p v x Hc F).
    unfold looked_up, dict_mem. now rewrite G.
  - intros p Hc Hne Hs. destruct (total_stored Hc Hne Hs) as (g' & E & S & _).
    exists (path_sum g p), g'. split; [exact E | apply S].
  - intros fuel. apply keys_after_entry; [exact G|].
    unfold dfs_traversal. rewrite (bind_Return _ _ _ (visit_start v g)).
    cbn [dfs]. apply for_neighbors_after_lookup.
    intros n e visited0.
    apply query_bind; [apply query_visit | intros [[] visited']];
      [apply query_dfs | apply query_ret].
  - intros fuel. apply keys_after_entry; [exact G|].
    unfold dfs_traversal. rewrite (bind_Return _ _ _ (visit_start v g)).
    cbn iota. unfold dfs_non_recursive.
    apply grows_bind; [apply push_unvisited_neighbors_after_lookup|].
    apply query_dfs_loop.
  - intros fuel. apply keys_after_entry; [exact G|].
    unfold bfs_traversal. rewrite (bind_Return _ _ _ (visit_start v g)).
    unfold bfs.
    apply grows_bind; [apply enqueue_unvisited_neighbors_after_lookup|].
    apply query_bfs_loop.
Qed.

(** A traversal also inserts the vertices it reaches: [d] has no entry in
    the complete diamond and has one after the traversal from [a]. *)
Lemma complete_diamond_traversal_inserts_d :
  dict_keys (adjacency_list complete_diamond) = [vtx_a; vtx_b; vtx_c] /\
  dict_keys (adjacency_list (snd (dfs_traversal 6 vtx_a false complete_diamond)))
  = [vtx_a; vtx_b; vtx_c; vtx_d].
Proof. split; vm_compute; reflexivity. Qed.

Lemma read_only_calls_insert_entries_witness :
  exists l, neighbors vtx_d complete_diamond
            = (Return l, with_entry complete_diamond vtx_d).
Proof.
  apply (read_only_calls_insert_entries complete_diamond vtx_d eq_refl).
Defined.

Lemma reachable_add_edges l : forall g, reachable g -> reachable (snd (add_edges l g)).
Proof.
  induction l as [|[[n1 n2] w] l IH]; intros g Hg; cbn [add_edges]; [exact Hg|].
  unfold bind. pose proof (reachable_add_edge n1 n2 w Hg) as H1.
  destruct (add_edge n1 n2 w g) as [[[]| e |] g1]; cbn [snd] in *; auto.
Qed.

Lemma reachable_build nm flag l : reachable (build nm flag l).
Proof. apply reachable_add_edges, reachable_init. Qed.

Lemma add_edge_stores_directed_edges_witness :
  (exists g', add_edge "b" "a" (1#2) undirected_triangle = (Return tt, g') /\
              directed g' = directed undirected_triangle /\
              stored_edge g' vtx_b vtx_a = Some (DirectedEdge vtx_b vtx_a (1#2)))
  /\ (DirectedEdge vtx_a vtx_c (1#2)
      = DirectedEdge vtx_a vtx_c (weight (DirectedEdge vtx_a vtx_c (1#2))) /\
      is_directed_edge (DirectedEdge vtx_a vtx_c (1#2)) = true /\
      vertex1 (DirectedEdge vtx_a vtx_c (1#2)) = vtx_a /\
      vertex2 (DirectedEdge vtx_a vtx_c (1#2)) = vtx_c).
Proof.
  split.
  - apply (proj1 add_edge_stores_directed_edges undirected_triangle "b" "a" (1#2)).
    discriminate.
  - apply (proj1 (proj2 add_edge_stores_directed_edges) undirected_triangle
                 (reachable_build _ _ _) vtx_a vtx_c).
    reflexivity.
Defined.

(** ** Loops that never end *)

Lemma dfs_loop_step st g st' g' n :
  dfs_step st g = Some (st', g') ->
  dfs_loop (S n) st g = dfs_loop n st' g'.
Proof.
  unfold dfs_step. cbn [dfs_loop].
  destruct (deque_pop (fst st)) as [[edge s']|]; [|discriminate].
  unfold bind.
  destruct (push_unvisited_neighbors (vertex2 edge) (s', snd st) g)
    as [[st1| e |] g1]; try discriminate.
  now intros [= -> ->].
Qed.

(** A loop state that a turn of the loop maps to itself is never left. *)
Lemma dfs_loop_fixed st g :
  dfs_step st g = Some (st, g) -> forall n, dfs_loop n st g = (OutOfFuel, g).
Proof.
  intros H n. induction n as [|n IH]; [reflexivity|].
  now rewrite (@dfs_loop_step st g st g n H).
Qed.

Lemma dfs_loop_steps k : forall st g st' g',
  dfs_steps k st g = Some (st', g') ->
  (forall n, fst (dfs_loop n st' g') = OutOfFuel) ->
  forall n, fst (dfs_loop n st g) = OutOfFuel.
Proof.
  induction k as [|k IH]; intros st g st' g' Hs Hd n.
  - injection Hs as <- <-. apply Hd.
  - cbn [dfs_steps] in Hs.
    destruct (dfs_step st g) as [[st1 g1]|] eqn:E; [|discriminate].
    destruct n as [|n]; [reflexivity|].
    rewrite (@dfs_loop_step st g st1 g1 n E). eapply IH; eauto.
Qed.

(** The recursion of [dfs] and the calls it makes. *)

Lemma dfs_S n x v : dfs (S n) x v = for_neighbors (relax_and_recurse (dfs n)) x v.
Proof. reflexivity. Qed.

Lemma diverges_bind A B (m : M A) (k : A -> M B) g :
  diverges (m g) -> diverges (bind m k g).
Proof.
  unfold diverges, bind. destruct (m g) as [[a| e |] g1]; cbn; congruence.
Qed.

Section Recursion.
Variable rec : Vertex -> TypingVisited -> M TypingVisited.

Lemma relax_false n e s g s' g' :
  visit_vertex_neighbors (vertex2 e) (vertex1 e) s g = (Return (false, s'), g') ->
  relax_and_recurse rec n e s g = (Return s', g').
Proof. intros E. unfold relax_and_recurse, bind. now rewrite E. Qed.

Lemma relax_true n e s g s' g' :
  visit_vertex_neighbors (vertex2 e) (vertex1 e) s g = (Return (true, s'), g') ->
  relax_and_recurse rec n e s g = rec n s' g'.
Proof. intros E. unfold relax_and_recurse, bind. now rewrite E. Qed.

Lemma items_false n e items s g s' g' :
  visit_vertex_neighbors (vertex2 e) (vertex1 e) s g = (Return (false, s'), g') ->
  for_items (relax_and_recurse rec) ((n, e) :: items) s g
  = for_items (relax_and_recurse rec) items s' g'.
Proof.
  intros E. cbn [for_items]. unfold bind at 1.
  now rewrite (@relax_false n e s g s' g' E).
Qed.

Lemma items_true n e items s g s' g' :
  visit_vertex_neighbors (vertex2 e) (vertex1 e) s g = (Return (true, s'), g') ->
  diverges (rec n s' g') ->
  diverges (for_items (relax_and_recurse rec) ((n, e) :: items) s g).
Proof.
  intros E H. cbn [for_items]. apply diverges_bind.
  now rewrite (@relax_true n e s g s' g' E).
Qed.

Lemma reverse_skip k keys used t s g inner :
  Nat.eqb (List.length (adjacency_list g)) used = true ->
  dict_get (adjacency_list g) k = Some inner -> dict_get inner t = None ->
  for_reverse (relax_and_recurse rec) (k :: keys) used t s g
  = for_reverse (relax_and_recurse rec) keys used t s g.
Proof.
  intros L G N. cbn [for_reverse]. unfold bind at 1, check_size. rewrite L.
  unfold bind at 1. rewrite (adjacency_get_present _ _ G). now rewrite N.
Qed.

Lemma reverse_false k keys used t s g inner e s' g' :
  Nat.eqb (List.length (adjacency_list g)) used = true ->
  dict_get (adjacency_list g) k = Some inner -> dict_get inner t = Some e ->
  visit_vertex_neighbors (vertex2 e) (vertex1 e) s g = (Return (false, s'), g') ->
  for_reverse (relax_and_recurse rec) (k :: keys) used t s g
  = for_reverse (relax_and_recurse rec) keys used t s' g'.
Proof.
  intros L G N E. cbn [for_reverse]. unfold bind at 1, check_size. rewrite L.
  unfold bind at 1. rewrite (adjacency_get_present _ _ G). rewrite N.
  unfold bind at 1. now rewrite (@relax_false k e s g s' g' E).
Qed.

Lemma reverse_true k keys used t s g inner e s' g' :
  Nat.eqb (List.length (adjacency_list g)) used = true ->
  dict_get (adjacency_list g) k = Some inner -> dict_get inner t = Some e ->
  visit_vertex_neighbors (vertex2 e) (vertex1 e) s g = (Return (true, s'), g') ->
  diverges (rec k s' g') ->
  diverges (for_reverse (relax_and_recurse rec) (k :: keys) used t s g).
Proof.
  intros L G N E H. cbn [for_reverse]. unfold bind at 1, check_size. rewrite L.
  unfold bind at 1. rewrite (adjacency_get_present _ _ G). rewrite N.
  apply diverges_bind. now rewrite (@relax_true k e s g s' g' E).
Qed.

Lemma for_neighbors_items x s g inner g1 :
  adjacency_get x g = (Return inner, g1) ->
  diverges (for_items (relax_and_recurse rec) inner s g1) ->
  diverges (for_neighbors (relax_and_recurse rec) x s g).
Proof.
  intros E H. unfold for_neighbors. rewrite (bind_Return _ _ _ E).
  now apply diverges_bind.
Qed.

Lemma for_neighbors_reverse x s g inner g1 s2 g2 :
  adjacency_get x g = (Return inner, g1) ->
  for_items (relax_and_recurse rec) inner s g1 = (Return s2, g2) ->
  truthy (directed g2) = false ->
  diverges (for_reverse (relax_and_recurse rec) (dict_keys (adjacency_list g2))
                        (List.length (adjacency_list g2)) x s2 g2) ->
  diverges (for_neighbors (relax_and_recurse rec) x s g).
Proof.
  intros E1 E2 D H. unfold for_neighbors.
  rewrite (bind_Return _ _ _ E1), (bind_Return _ _ _ E2).
  unfold bind, get_graph. now rewrite D.
Qed.
End Recursion.

(** [dfs] with some fuel left runs out of it when the first neighbour whose
    visit returns true is one on which [dfs] runs out of fuel: a neighbour
    stored under the vertex, or one found by the reverse scan. *)
Ltac run_items :=
  repeat (erewrite items_false by (vm_compute; reflexivity)).

Ltac run_reverse :=
  repeat first
    [ erewrite reverse_skip by (vm_compute; reflexivity)
    | erewrite reverse_false by (vm_compute; reflexivity) ].

Ltac call_in_items H :=
  rewrite dfs_S; eapply for_neighbors_items; [vm_compute; reflexivity|];
  run_items; eapply items_true; [vm_compute; reflexivity | exact H].

Ltac call_in_reverse H :=
  rewrite dfs_S; eapply for_neighbors_reverse;
  [ vm_compute; reflexivity
  | run_items; reflexivity
  | reflexivity
  | cbn [dict_keys map fst adjacency_list List.length];
    run_reverse;
    eapply reverse_true;
    [ vm_compute; reflexivity | vm_compute; reflexivity
    | vm_compute; reflexivity | vm_compute; reflexivity | exact H ] ].

(** In [undirected_triangle] the calls of [dfs] on [a] and on [b] end up
    calling each other in the same two states. *)
Lemma undirected_triangle_calls n :
  diverges (dfs n vtx_a (fst call_a5) (snd call_a5)) /\
  diverges (dfs n vtx_b (fst call_b4) (snd call_b4)).
Proof.
  induction n as [|n [IHa IHb]]; [split; reflexivity|]. split.
  - call_in_items IHb.
  - call_in_reverse IHa.
Qed.

Lemma undirected_triangle_call_a3 n :
  diverges (dfs n vtx_a (fst call_a3) (snd call_a3)).
Proof.
  destruct n; [reflexivity|]. call_in_items (proj2 (undirected_triangle_calls n)).
Qed.

Lemma undirected_triangle_call_c2 n :
  diverges (dfs n vtx_c (fst call_c2) (snd call_c2)).
Proof.
  destruct n; [reflexivity|]. call_in_reverse (undirected_triangle_call_a3 n).
Qed.

Lemma undirected_triangle_call_b1 n :
  diverges (dfs n vtx_b (fst call_b1) (snd call_b1)).
Proof.
  destruct n; [reflexivity|]. call_in_items (undirected_triangle_call_c2 n).
Qed.

Lemma undirected_triangle_call_a0 n :
  diverges (dfs n vtx_a (fst call_a0) (snd call_a0)).
Proof.
  destruct n; [reflexivity|]. call_in_items (undirected_triangle_call_b1 n).
Qed.

(** C5.  In the graph constructed with [directed=False] from the edges a-b,
    a-c, b-c of weight 1/2, [dfs_traversal] from [a] never returns, whatever
    its fuel.  The loop of the iterative form is, after one turn, in a state
    that every further turn reproduces; the recursive form calls [dfs] on
    [a] and on [b] in turn, each time in the same state, so that it runs out
    of any recursion depth.  In the graph that the tests call [triangle],
    constructed with the default [directed=True], both forms return and
    record (a,b) for [b] and (a,c) for [c]. *)
Theorem undirected_triangle_never_returns :
  (forall fuel r,
      fst (dfs_traversal fuel vtx_a r undirected_triangle) = OutOfFuel)
  /\ (forall k r,
        exists visited g',
          dfs_traversal (3 + k) vtx_a r triangle = (Return visited, g') /\
          recorded visited vtx_b = [vtx_a; vtx_b] /\
          recorded visited vtx_c = [vtx_a; vtx_c]).
Proof.
  split.
  - intros fuel r. unfold dfs_traversal.
    rewrite (bind_Return _ _ _ (visit_start vtx_a undirected_triangle)).
    destruct r.
    + apply undirected_triangle_call_a0.
    + unfold dfs_non_recursive, bind.
      set (r := push_unvisited_neighbors vtx_a ([], [(vtx_a, [vtx_a])])
                                         undirected_triangle).
      vm_compute in r. subst r. cbv iota beta.
      eapply (@dfs_loop_steps 1); [vm_compute; reflexivity|].
      intros n. rewrite dfs_loop_fixed; [reflexivity | vm_compute; reflexivity].
  - intros k [|]; do 2 eexists; (split; [vm_compute; reflexivity|]);
      split; reflexivity.
Qed.

(** ** Recorded paths of stored edges *)

Lemma all_pairs_stored_snoc g q u v e :
  all_pairs_stored g (q ++ [u]) = true ->
  stored_edge g u v = Some e ->
  all_pairs_stored g ((q ++ [u]) ++ [v]) = true.
Proof.
  intros H S. induction q as [|x q IH].
  - cbn. now rewrite S.
  - destruct q as [|y q].
    + cbn in *. destruct (stored_edge g x u); [|discriminate]. now rewrite S.
    + cbn [app] in *. rewrite all_pairs_stored_cons in *.
      destruct (stored_edge g x y); [|discriminate]. auto.
Qed.

Lemma total_returns g p :
  p <> [] -> all_pairs_stored g p = true ->
  exists w g', total_vertex_sequence_weight p g = (Return w, g') /\
               same_edges g g'.
Proof.
  intros Hne Hs. unfold total_vertex_sequence_weight.
  destruct (cache_get (cache g) p) as [w|].
  - exists w, g. auto using same_edges_refl.
  - destruct p as [|v1 rest]; [contradiction|]. cbn [total_body].
    rewrite (@total_loop_stored g rest v1 0 Hs).
    do 2 eexists. split; [reflexivity|]. repeat split.
Qed.

Lemma min_returns g p q :
  p <> [] -> q <> [] ->
  all_pairs_stored g p = true -> all_pairs_stored g q = true ->
  exists r g', min_vertex_sequence_weight p q g = (Return r, g') /\
               same_edges g g' /\ (r = p \/ r = q).
Proof.
  intros Hp Hq Sp Sq. unfold min_vertex_sequence_weight.
  destruct (@total_returns g p Hp Sp) as (w1 & g1 & E1 & S1).
  rewrite (bind_Return _ _ _ E1).
  rewrite <- (same_edges_all_pairs_stored _ S1) in Sq.
  destruct (@total_returns g1 q Hq Sq) as (w2 & g2 & E2 & S2).
  rewrite (bind_Return _ _ _ E2).
  destruct (Qltb w1 w2); do 2 eexists;
    (split; [reflexivity|]); (split; [eapply same_edges_trans; eauto|]); auto.
Qed.

(** A visit along a stored edge, from a vertex that has a recorded path,
    returns; afterwards the target has a recorded path, the paths are still
    sequences of stored edges, and only the memo table of the graph may have
    changed. *)
Lemma visit_returns g visited v from_vertex e :
  paths_stored g visited ->
  stored_edge g from_vertex v = Some e ->
  recorded visited from_vertex <> [] ->
  exists b visited' g',
    visit_vertex_neighbors v from_vertex visited g = (Return (b, visited'), g') /\
    same_edges g g' /\
    paths_stored g visited' /\
    keeps_visited visited visited' /\
    recorded visited' v <> [].
Proof.
  intros Hp He Hf. unfold visit_vertex_neighbors.
  destruct (visited_get_recorded visited v) as (visited1 & -> & R1).
  destruct (visited_get_recorded visited1 from_vertex) as (visited2 & E2 & R2).
  rewrite R1 in E2. rewrite E2.
  destruct (Hp from_vertex Hf) as (Sf & qf & Ef).
  assert (Snew : all_pairs_stored g (recorded visited from_vertex ++ [v]) = true).
  { rewrite Ef. eapply all_pairs_stored_snoc; eauto. now rewrite <- Ef. }
  assert (Nnew : recorded visited from_vertex ++ [v] <> []).
  { destruct (recorded visited from_vertex); discriminate. }
  assert (R12 : forall u, recorded visited2 u = recorded visited u).
  { intros u. now rewrite R2, R1. }
  destruct (recorded visited v) as [|x pv] eqn:Ev.
  - do 3 eexists. split; [reflexivity|]. split; [apply same_edges_refl|].
    repeat apply conj.
    + intros u Hu. destruct (Vertex_eqb v u) eqn:E.
      * apply Vertex_eqb_eq in E. subst u. rewrite recorded_set_same.
        split; [exact Snew | now eexists].
      * apply Vertex_eqb_neq in E.
        rewrite recorded_set_other in * by assumption.
        rewrite R12 in *. auto.
    + intros u Hu. destruct (Vertex_eqb v u) eqn:E.
      * apply Vertex_eqb_eq in E. subst u. now rewrite recorded_set_same.
      * apply Vertex_eqb_neq in E. rewrite recorded_set_other by assumption.
        now rewrite R12.
    + now rewrite recorded_set_same.
  - destruct (visited_get_recorded visited2 v) as (visited3 & E3 & R3).
    rewrite R12, Ev in E3. rewrite E3.
    assert (Hv : recorded visited v <> []) by (rewrite Ev; discriminate).
    destruct (Hp v Hv) as (Sv & Endv). rewrite Ev in Sv, Endv.
    destruct (@min_returns g (x :: pv) (recorded visited from_vertex ++ [v]))
      as (r & g' & Em & Sm & Hr); auto; [discriminate|].
    rewrite (bind_Return _ _ _ Em).
    destruct (visited_get_recorded (dict_set visited3 v r) v) as (visited5 & E5 & R5).
    rewrite E5. unfold ret.
    do 3 eexists. split; [reflexivity|]. split; [exact Sm|].
    assert (Rv : recorded visited5 v = r) by now rewrite R5, recorded_set_same.
    assert (Ro : forall u, v <> u -> recorded visited5 u = recorded visited u).
    { intros u Hu. now rewrite R5, recorded_set_other, R3, R12. }
    assert (Hgood : all_pairs_stored g r = true /\ ends_at r v /\ r <> []).
    { destruct Hr as [-> | ->]; repeat split; auto; try discriminate.
      now eexists. }
    repeat apply conj.
    + intros u Hu. destruct (Vertex_eqb v u) eqn:E.
      * apply Vertex_eqb_eq in E. subst u. rewrite Rv. tauto.
      * apply Vertex_eqb_neq in E. rewrite Ro in * by assumption. auto.
    + intros u Hu. destruct (Vertex_eqb v u) eqn:E.
      * apply Vertex_eqb_eq in E. subst u. rewrite Rv. tauto.
      * apply Vertex_eqb_neq in E. now rewrite Ro.
    + rewrite Rv. tauto.
Qed.

(** ** Termination on directed graphs without cycles *)

Local Open Scope nat_scope.

Lemma for_items_invariant S (body : Vertex -> TypingEdge -> S -> M S)
      (I : nat -> S -> Graph -> Prop) items :
  (forall k n e s g, In (n, e) items -> I k s g ->
                     exists s' g', body n e s g = (Return s', g') /\ I (Datatypes.S k) s' g') ->
  forall k s g, I k s g ->
    exists s' g', for_items body items s g = (Return s', g') /\
                  I (k + List.length items) s' g'.
Proof.
  induction items as [|[n e] items IH]; intros Hb k s g Hi.
  - exists s, g. rewrite Nat.add_0_r. auto.
  - destruct (Hb k n e s g (or_introl eq_refl) Hi) as (s1 & g1 & E1 & I1).
    cbn [for_items]. rewrite (bind_Return _ _ _ E1).
    destruct (IH (fun k n e s g H => Hb k n e s g (or_intror H)) _ _ _ I1)
      as (s2 & g2 & E2 & I2).
    exists s2, g2. split; [exact E2|].
    cbn [List.length]. now rewrite Nat.add_succ_r.
Qed.

Lemma for_neighbors_directed S (body : Vertex -> TypingEdge -> S -> M S)
      x s g inner g1 s2 g2 :
  adjacency_get x g = (Return inner, g1) ->
  for_items body inner s g1 = (Return s2, g2) ->
  truthy (directed g2) = true ->
  for_neighbors body x s g = (Return s2, g2).
Proof.
  intros E1 E2 D. unfold for_neighbors.
  rewrite (bind_Return _ _ _ E1), (bind_Return _ _ _ E2).
  unfold bind, get_graph. now rewrite D.
Qed.

Lemma paths_stored_grows g0 g visited :
  grows g0 g -> paths_stored g0 visited -> paths_stored g visited.
Proof.
  intros G H u Hu. rewrite (grows_all_pairs_stored _ G). auto.
Qed.

Lemma paths_stored_grows_back g0 g visited :
  grows g0 g -> paths_stored g visited -> paths_stored g0 visited.
Proof.
  intros G H u Hu. rewrite <- (grows_all_pairs_stored _ G). auto.
Qed.

Lemma In_dict_get V (d : dict V) k x :
  In (k, x) d -> exists y, dict_get d k = Some y.
Proof.
  intros H. apply dict_keys_get. unfold dict_keys.
  change k with (fst (k, x)). now apply in_map.
Qed.

Lemma adjacency_get_grown g0 g x :
  grows g0 g ->
  exists inner g',
    adjacency_get x g = (Return inner, g') /\ grows g0 g' /\
    (inner = [] \/ dict_get (adjacency_list g0) x = Some inner).
Proof.
  intros G. destruct (dict_get (adjacency_list g) x) as [inner|] eqn:E.
  - exists inner, g. rewrite (adjacency_get_present _ _ E).
    split; [reflexivity|]. split; [exact G|].
    destruct G as (_ & _ & ks & A). rewrite A in E.
    destruct (dict_get (adjacency_list g0) x) as [i0|] eqn:E0.
    + rewrite (dict_get_app_l _ _ _ E0) in E. right. congruence.
    + rewrite (dict_get_app_r _ _ _ E0) in E. left.
      eapply dict_get_empty_entries; eauto.
  - exists [], (with_entry g x). rewrite (adjacency_get_absent _ _ E).
    split; [reflexivity|]. split; [|now left].
    eapply grows_trans; [exact G | apply grows_with_entry].
Qed.

Lemma max_degree_bound g x inner :
  dict_get (adjacency_list g) x = Some inner ->
  List.length inner <= max_degree g.
Proof.
  intros H. apply dict_get_In in H. unfold max_degree.
  assert (Hin : In (List.length inner)
                   (map (fun kd => List.length (snd kd)) (adjacency_list g))).
  { change (List.length inner)
      with ((fun kd : Vertex * dict TypingEdge => List.length (snd kd)) (x, inner)).
    now apply in_map. }
  revert Hin. generalize (map (fun kd => List.length (snd kd)) (adjacency_list g)).
  intros l. unfold list_max. induction l as [|a l IH]; cbn; [tauto|].
  intros [-> | H']; [lia | specialize (IH H'); lia].
Qed.

Lemma work_app D rank s l : work D rank (s ++ l) = work D rank s + work D rank l.
Proof. unfold work. now rewrite map_app, list_sum_app. Qed.

Lemma deque_pop_snoc s e s' : deque_pop s = Some (e, s') -> s = s' ++ [e].
Proof.
  revert e s'. induction s as [|x s IH]; intros e s'; [discriminate|].
  cbn [deque_pop]. destruct s as [|y s].
  - now intros [= <- <-].
  - destruct (deque_pop (y :: s)) as [[z r]|]; [|discriminate].
    intros [= <- <-]. cbn. f_equal. now apply IH.
Qed.

Lemma edge_cost_pos D rank e : 1 <= edge_cost D rank e.
Proof.
  unfold edge_cost. pose proof (Nat.pow_nonzero (S D) (rank (vertex2 e))). lia.
Qed.

Lemma pow_below D r r' : r' < r -> S D ^ r' * S D <= S D ^ r.
Proof.
  intros H. replace r with (S r' + (r - S r')) by lia.
  rewrite Nat.pow_add_r, Nat.pow_succ_r'.
  pose proof (Nat.pow_nonzero (S D) (r - S r')).
  assert (1 <= S D ^ (r - S r')) by lia. nia.
Qed.

Lemma keeps_visited_refl visited : keeps_visited visited visited.
Proof. intros u H. exact H. Qed.

Lemma keeps_visited_trans v1 v2 v3 :
  keeps_visited v1 v2 -> keeps_visited v2 v3 -> keeps_visited v1 v3.
Proof. intros H1 H2 u H. auto. Qed.

Section Acyclic.
Variable g0 : Graph.
Variable rank : Vertex -> nat.
Hypothesis directed_g0 : truthy (directed g0) = true.
Hypothesis keyed_g0 : well_keyed g0.
Hypothesis ranked_g0 : ranked g0 rank.

Let D := max_degree g0.

Lemma grows_directed g : grows g0 g -> truthy (directed g) = true.
  Proof. intros (_ & -> & _). exact directed_g0. Qed.

Lemma items_edge_of x inner n e :
    dict_get (adjacency_list g0) x = Some inner ->
    In (n, e) inner -> edge_of g0 rank x n e.
  Proof.
    intros G Hin. pose proof (dict_get_In _ _ G) as Hx.
    destruct (keyed_g0 _ _ _ _ Hx Hin) as (K1 & K2).
    repeat split; auto.
    - eapply ranked_g0; eauto.
    - destruct (In_dict_get _ _ _ Hin) as (e' & Ge').
      exists e'. unfold stored_edge. now rewrite G.
  Qed.

  (** A visit along an edge met by the expansion of [x]. *)
Lemma visit_edge_of x n e visited g :
    edge_of g0 rank x n e -> grows g0 g -> paths_stored g0 visited ->
    recorded visited x <> [] ->
    exists b visited' g',
      visit_vertex_neighbors (vertex2 e) (vertex1 e) visited g
      = (Return (b, visited'), g') /\
      grows g0 g' /\ paths_stored g0 visited' /\
      keeps_visited visited visited' /\ recorded visited' n <> [].
  Proof.
    intros (K1 & K2 & _ & e' & Se) G P Hx. rewrite K1, K2.
    rewrite <- (grows_stored_edge x n G) in Se.
    destruct (@visit_returns g visited n x e' (@paths_stored_grows g0 g visited G P) Se Hx)
      as (b & visited' & g' & E & Sg & P' & K & R).
    exists b, visited', g'. split; [exact E|].
    assert (G' : grows g0 g')
      by (eapply grows_trans; [exact G | apply same_edges_grows, Sg]).
    split; [exact G'|]. split; [|split; assumption].
    exact (@paths_stored_grows_back g0 g visited' G P').
  Qed.

Section WorkList.
Variable add : deque -> TypingEdge -> deque.
Hypothesis work_add :
      forall s e, work D rank (add s e) = work D rank s + edge_cost D rank e.
Hypothesis In_add : forall s e x, In x (add s e) -> x = e \/ In x s.

Lemma relax_and_add_step x s0 v0 k n e st g :
      recorded v0 x <> [] -> edge_of g0 rank x n e -> relaxing g0 rank x s0 v0 k st g ->
      exists st' g',
        relax_and_add add n e st g = (Return st', g') /\
        relaxing g0 rank x s0 v0 (S k) st' g'.
    Proof.
      intros Hx He (G & P & K & T & W). destruct st as [s visited]. cbn [fst snd] in *.
      destruct (visit_edge_of He G P (K x Hx))
        as (b & visited' & g' & E & G' & P' & K' & R).
      unfold relax_and_add. rewrite (bind_Return _ _ _ E). unfold ret.
      eexists _, g'. split; [reflexivity|]. unfold relaxing. cbn [fst snd].
      split; [exact G'|]. split; [exact P'|]. split; [|split].
      - eapply keeps_visited_trans; eauto.
      - destruct He as (_ & K2 & _). intros e0 Hin. destruct b.
        + apply In_add in Hin. destruct Hin as [-> | Hin];
            [now rewrite K2 | apply K', T, Hin].
        + apply K', T, Hin.
      - fold D in W. fold D. rewrite Nat.mul_succ_l.
        destruct b; [|lia]. rewrite work_add. unfold edge_cost.
        destruct He as (_ & K2 & L & _). rewrite K2.
        assert (S D ^ rank n <= S D ^ (rank x - 1))
          by (apply Nat.pow_le_mono_r; lia).
        lia.
    Qed.

    (** The expansion of a visited vertex [x] returns, and what it adds to
        the work list costs less than the edge that led to [x]. *)
Lemma expand_returns x s visited g :
      grows g0 g -> paths_stored g0 visited -> recorded visited x <> [] ->
      targets_visited visited s ->
      exists s' visited' g',
        for_neighbors (relax_and_add add) x (s, visited) g
        = (Return (s', visited'), g') /\
        grows g0 g' /\ paths_stored g0 visited' /\
        keeps_visited visited visited' /\ targets_visited visited' s' /\
        work D rank s' + 1 <= work D rank s + S D ^ rank x.
    Proof.
      intros G P Hx T.
      destruct (adjacency_get_grown x G) as (inner & g1 & E1 & G1 & Hinner).
      assert (Hitems : forall n e, In (n, e) inner -> edge_of g0 rank x n e).
      { destruct Hinner as [-> | Hg]; [intros n e []|].
        intros n e Hin. eapply items_edge_of; eauto. }
      assert (Hlen : List.length inner <= D).
      { destruct Hinner as [-> | Hg]; [cbn; lia | eapply max_degree_bound; eauto]. }
      assert (I0 : relaxing g0 rank x s visited 0 (s, visited) g1).
      { unfold relaxing. cbn [fst snd].
        split; [exact G1|]. split; [exact P|].
        split; [apply keeps_visited_refl|]. split; [exact T | lia]. }
      destruct (@for_items_invariant _ (relax_and_add add) (relaxing g0 rank x s visited) inner
                  (fun k n e st g Hin Hi =>
                     relax_and_add_step Hx (Hitems n e Hin) Hi) 0 _ _ I0)
        as ([s' visited'] & g' & E2 & (G' & P' & K' & T' & W')).
      cbn [fst snd] in *.
      exists s', visited', g'.
      split; [eapply for_neighbors_directed; eauto using grows_directed|].
      split; [exact G'|]. split; [exact P'|]. split; [exact K'|].
      split; [exact T'|].
      fold D in W'.
      destruct inner as [|[n e] inner]; cbn [List.length] in *.
      - pose proof (Nat.pow_nonzero (S D) (rank x)). lia.
      - destruct (Hitems n e (or_introl eq_refl)) as (_ & _ & L & _).
        assert (Hp : S D ^ (rank x - 1) * S D <= S D ^ rank x)
          by (apply pow_below; lia).
        pose proof (Nat.pow_nonzero (S D) (rank x - 1)).
        nia.
    Qed.
End WorkList.

Lemma work_single e : work D rank [e] = edge_cost D rank e.
  Proof. unfold work, list_sum. cbn [map fold_right]. apply Nat.add_0_r. Qed.

Lemma work_cons e s : work D rank (e :: s) = edge_cost D rank e + work D rank s.
  Proof. reflexivity. Qed.

Lemma work_deque_append s e :
    work D rank (deque_append s e) = work D rank s + edge_cost D rank e.
  Proof. unfold deque_append. now rewrite work_app, work_single. Qed.

Lemma In_deque_append s e x : In x (deque_append s e) -> x = e \/ In x s.
  Proof.
    unfold deque_append. rewrite in_app_iff. cbn. intuition auto.
  Qed.

Lemma work_deque_appendleft s e :
    work D rank (deque_appendleft s e) = work D rank s + edge_cost D rank e.
  Proof. unfold deque_appendleft. rewrite work_cons. apply Nat.add_comm. Qed.

Lemma In_deque_appendleft s e x : In x (deque_appendleft s e) -> x = e \/ In x s.
  Proof. unfold deque_appendleft. cbn. intuition auto. Qed.

Lemma pop_work s e s' :
    deque_pop s = Some (e, s') ->
    work D rank s = work D rank s' + edge_cost D rank e /\
    In e s /\ (forall x, In x s' -> In x s).
  Proof.
    intros H. apply deque_pop_snoc in H. subst s. rewrite work_app.
    repeat split.
    - now rewrite work_single.
    - apply in_or_app. right. now left.
    - intros x Hx. apply in_or_app. now left.
  Qed.

  (** The loop of the iterative depth-first traversal ends within the fuel
      that the work list costs. *)
Lemma dfs_loop_returns fuel : forall s visited g,
    grows g0 g -> paths_stored g0 visited -> targets_visited visited s ->
    work D rank s < fuel ->
    exists visited' g',
      dfs_loop fuel (s, visited) g = (Return visited', g') /\
      grows g0 g' /\ paths_stored g0 visited'.
  Proof.
    induction fuel as [|fuel IH]; intros s visited g G P T W; [lia|].
    cbn [dfs_loop fst snd].
    destruct (deque_pop s) as [[e s']|] eqn:Ep.
    - destruct (pop_work _ Ep) as (Ws & Hin & Hsub).
      destruct (@expand_returns deque_append work_deque_append In_deque_append
                  (vertex2 e) s' visited g G P (T e Hin)
                  (fun x Hx => T x (Hsub x Hx)))
        as (s2 & visited2 & g2 & E & G2 & P2 & _ & T2 & W2).
      change (for_neighbors (relax_and_add deque_append) (vertex2 e) (s', visited) g)
        with (push_unvisited_neighbors (vertex2 e) (s', visited) g) in E.
      rewrite (bind_Return _ _ _ E).
      apply IH; auto. unfold edge_cost in Ws. lia.
    - exists visited, g. auto.
  Qed.

  (** The same for the loop of the breadth-first traversal. *)
Lemma bfs_loop_returns fuel : forall s visited g,
    grows g0 g -> paths_stored g0 visited -> targets_visited visited s ->
    work D rank s < fuel ->
    exists visited' g',
      bfs_loop fuel (s, visited) g = (Return visited', g') /\
      grows g0 g' /\ paths_stored g0 visited'.
  Proof.
    induction fuel as [|fuel IH]; intros s visited g G P T W; [lia|].
    cbn [bfs_loop fst snd].
    destruct (deque_pop s) as [[e s']|] eqn:Ep.
    - destruct (pop_work _ Ep) as (Ws & Hin & Hsub).
      destruct (@expand_returns deque_appendleft work_deque_appendleft
                  In_deque_appendleft
                  (vertex2 e) s' visited g G P (T e Hin)
                  (fun x Hx => T x (Hsub x Hx)))
        as (s2 & visited2 & g2 & E & G2 & P2 & _ & T2 & W2).
      change (for_neighbors (relax_and_add deque_appendleft) (vertex2 e) (s', visited) g)
        with (enqueue_unvisited_neighbors (vertex2 e) (s', visited) g) in E.
      rewrite (bind_Return _ _ _ E).
      apply IH; auto. unfold edge_cost in Ws. lia.
    - exists visited, g. auto.
  Qed.

Lemma dfs_non_recursive_returns fuel v visited g :
    grows g0 g -> paths_stored g0 visited -> recorded visited v <> [] ->
    S D ^ rank v <= fuel ->
    exists visited' g',
      dfs_non_recursive fuel v visited g = (Return visited', g') /\
      grows g0 g' /\ paths_stored g0 visited'.
  Proof.
    intros G P Hv W. unfold dfs_non_recursive.
    destruct (@expand_returns deque_append work_deque_append In_deque_append
                v [] visited g G P Hv (fun x Hx => match Hx with end))
      as (s2 & visited2 & g2 & E & G2 & P2 & _ & T2 & W2).
    change (for_neighbors (relax_and_add deque_append) v ([], visited) g)
      with (push_unvisited_neighbors v ([], visited) g) in E.
    rewrite (bind_Return _ _ _ E).
    apply dfs_loop_returns; auto. change (work D rank []) with 0 in W2. lia.
  Qed.

Lemma bfs_returns fuel v visited g :
    grows g0 g -> paths_stored g0 visited -> recorded visited v <> [] ->
    S D ^ rank v <= fuel ->
    exists visited' g',
      bfs fuel v visited g = (Return visited', g') /\
      grows g0 g' /\ paths_stored g0 visited'.
  Proof.
    intros G P Hv W. unfold bfs.
    destruct (@expand_returns deque_appendleft work_deque_appendleft
                In_deque_appendleft
                v [] visited g G P Hv (fun x Hx => match Hx with end))
      as (s2 & visited2 & g2 & E & G2 & P2 & _ & T2 & W2).
    change (for_neighbors (relax_and_add deque_appendleft) v ([], visited) g)
      with (enqueue_unvisited_neighbors v ([], visited) g) in E.
    rewrite (bind_Return _ _ _ E).
    apply bfs_loop_returns; auto. change (work D rank []) with 0 in W2. lia.
  Qed.

  (** The recursive depth-first traversal returns when its fuel exceeds the
      rank of the vertex it expands. *)
Lemma dfs_returns fuel : forall x visited g,
    grows g0 g -> paths_stored g0 visited -> recorded visited x <> [] ->
    rank x < fuel ->
    exists visited' g',
      dfs fuel x visited g = (Return visited', g') /\
      grows g0 g' /\ paths_stored g0 visited' /\
      keeps_visited visited visited'.
  Proof.
    induction fuel as [|fuel IH]; intros x visited g G P Hx W; [lia|].
    cbn [dfs].
    destruct (adjacency_get_grown x G) as (inner & g1 & E1 & G1 & Hinner).
    assert (Hitems : forall n e, In (n, e) inner -> edge_of g0 rank x n e).
    { destruct Hinner as [-> | Hg]; [intros n e []|].
      intros n e Hin. eapply items_edge_of; eauto. }
    match goal with |- context [for_neighbors ?b _ _ _] => set (body := b) end.
    pose (I := fun (_ : nat) (vis : TypingVisited) (g : Graph) =>
                 grows g0 g /\ paths_stored g0 vis /\ keeps_visited visited vis).
    assert (Hbody : forall k n e vis g, In (n, e) inner -> I k vis g ->
              exists vis' g', body n e vis g = (Return vis', g') /\ I (S k) vis' g').
    { intros k n e vis g2 Hin (G2 & P2 & K2).
      pose proof (Hitems n e Hin) as He.
      destruct (visit_edge_of He G2 P2 (K2 x Hx))
        as (b & vis1 & g3 & E & G3 & P3 & K3 & R3).
      unfold body. rewrite (bind_Return _ _ _ E).
      destruct b.
      - destruct He as (_ & _ & L & _).
        destruct (IH n vis1 g3 G3 P3 R3 ltac:(lia))
          as (vis2 & g4 & E4 & G4 & P4 & K4).
        exists vis2, g4. split; [exact E4|]. split; [exact G4|].
        split; [exact P4|].
        eapply keeps_visited_trans; [exact K2|].
        eapply keeps_visited_trans; eauto.
      - exists vis1, g3. split; [reflexivity|]. split; [exact G3|].
        split; [exact P3|]. eapply keeps_visited_trans; eauto. }
    assert (I0 : I 0 visited g1).
    { split; [exact G1|]. split; [exact P | apply keeps_visited_refl]. }
    destruct (for_items_invariant body I inner Hbody 0 visited g1 I0)
      as (visited' & g' & E2 & (G' & P' & K')).
    exists visited', g'.
    split; [eapply for_neighbors_directed; eauto using grows_directed|].
    auto.
  Qed.
End Acyclic.

Lemma In_dict_set V (d : dict V) k x k' y :
  In (k', y) (dict_set d k x) -> (k' = k /\ y = x) \/ In (k', y) d.
Proof.
  induction d as [|[k0 z] d IH]; cbn.
  - intros [[= <- <-] | []]. now left.
  - destruct (Vertex_eqb k0 k) eqn:E; cbn.
    + apply Vertex_eqb_eq in E. subst k0.
      intros [[= <- <-] | H]; [now left | right; now right].
    + intros [H | H]; [right; now left|].
      destruct (IH H) as [? | ?]; [now left | right; now right].
Qed.

(** Where an entry of the adjacency mapping comes from after [add_edge]. *)
Lemma add_edge_In g n1 n2 w u i n e :
  n1 <> n2 ->
  In (u, i) (adjacency_list (snd (add_edge n1 n2 w g))) -> In (n, e) i ->
  (u = mkVertex n1 /\ n = mkVertex n2 /\
   e = DirectedEdge (mkVertex n1) (mkVertex n2) w)
  \/ (exists i', In (u, i') (adjacency_list g) /\ In (n, e) i').
Proof.
  intros Hne. unfold add_edge, edge_factory.
  apply String.eqb_neq in Hne. rewrite Hne.
  cbn [truthy vertex1 vertex2]. unfold bind, adjacency_get.
  destruct (dict_get (adjacency_list g) (mkVertex n1)) as [inner|] eqn:G;
    cbn [snd adjacency_list]; intros H1 H2.
  - apply In_dict_set in H1. destruct H1 as [[-> ->] | H1]; [|right; eauto].
    apply In_dict_set in H2. destruct H2 as [[-> ->] | H2]; [now left|].
    right. exists inner. split; [now apply dict_get_In | exact H2].
  - apply In_dict_set in H1. destruct H1 as [[-> ->] | H1].
    + cbn in H2. destruct H2 as [[= <- <-] | []]. now left.
    + apply In_dict_set in H1. destruct H1 as [[-> ->] | H1]; [destruct H2|].
      right. eauto.
Qed.

Lemma In_empty_entries ks u (i : dict TypingEdge) :
  In (u, i) (empty_entries ks) -> i = [].
Proof.
  unfold empty_entries. rewrite in_map_iff. now intros (k & [= _ <-] & _).
Qed.

Lemma well_keyed_reachable g : reachable g -> well_keyed g.
Proof.
  induction 1 as [nm flag | g n1 n2 w Hg IH | A m g Hg IH Hm].
  - intros u i n e [].
  - destruct (String.eqb n1 n2) eqn:E.
    + unfold add_edge, edge_factory. rewrite E. exact IH.
    + apply String.eqb_neq in E. intros u i n e H1 H2.
      destruct (@add_edge_In g n1 n2 w u i n e E H1 H2) as [(-> & -> & ->) | (i' & H1' & H2')].
      * now split.
      * eapply IH; eauto.
  - intros u i n e H1 H2.
    destruct (read_only_query Hm g) as (_ & _ & ks & Ea).
    rewrite Ea in H1. apply in_app_or in H1. destruct H1 as [H1 | H1].
    + eapply IH; eauto.
    + apply In_empty_entries in H1. subst i. destruct H2.
Qed.

Lemma paths_stored_start g v : paths_stored g [(v, [v])].
Proof.
  intros u Hu. unfold recorded in *. cbn in *.
  destruct (Vertex_eqb v u) eqn:E; [|contradiction].
  apply Vertex_eqb_eq in E. subst u. split; [reflexivity|]. now exists [].
Qed.

Lemma recorded_start v : recorded [(v, [v])] v <> [].
Proof. unfold recorded. cbn. now rewrite Vertex_eqb_refl. Qed.

(** C4 (amended).  In a graph obtained through the interface that is
    directed and whose stored edges go down along some rank on the vertices
    (so that they form no cycle), each of the three traversals returns its
    visited map from every starting vertex: the recursive one as soon as the
    fuel exceeds the rank of the start, the two iterative ones as soon as
    the fuel reaches [(1 + max_degree) ^ rank], a bound on the turns of
    their loop.  The call only appends empty adjacency entries, and every
    path it records is a sequence of stored edges ending at its vertex. *)
Theorem traversals_return_without_cycles
        (g : Graph) (rank : Vertex -> nat) (v : Vertex) (fuel : nat) :
  reachable g -> truthy (directed g) = true -> ranked g rank ->
  rank v < fuel -> S (max_degree g) ^ rank v <= fuel ->
  (exists visited g', dfs_traversal fuel v true g = (Return visited, g') /\
                      grows g g' /\ paths_stored g visited)
  /\ (exists visited g', dfs_traversal fuel v false g = (Return visited, g') /\
                         grows g g' /\ paths_stored g visited)
  /\ (exists visited g', bfs_traversal fuel v g = (Return visited, g') /\
                         grows g g' /\ paths_stored g visited).
Proof.
  intros Hr Hd Hrk F1 F2. pose proof (well_keyed_reachable Hr) as Hk.
  pose proof (grows_refl g) as G. pose proof (paths_stored_start g v) as P.
  pose proof (recorded_start v) as R.
  unfold dfs_traversal, bfs_traversal.
  rewrite !(bind_Return _ _ _ (visit_start v g)).
  repeat apply conj.
  - destruct (dfs_returns Hd Hk Hrk v G P R F1) as (vis & g' & E & G' & P' & _).
    eauto.
  - apply (dfs_non_recursive_returns Hd Hk Hrk v G P R F2).
  - apply (bfs_returns Hd Hk Hrk v G P R F2).
Qed.

Lemma ranked_complete_diamond : ranked complete_diamond diamond_rank.
Proof.
  intros u inner n e H1 H2. vm_compute in H1.
  repeat match goal with
         | H : _ \/ _ |- _ => destruct H as [H | H]
         | H : False |- _ => destruct H
         | H : (_, _) = (_, _) |- _ => injection H as <- <-
         end;
    cbn in H2;
    repeat match goal with
           | H : _ \/ _ |- _ => destruct H as [H | H]
           | H : False |- _ => destruct H
           | H : (_, _) = (_, _) |- _ => injection H as <- <-
           end;
    vm_compute; lia.
Qed.

Lemma traversals_return_without_cycles_witness :
  (exists visited g', dfs_traversal 64 vtx_a true complete_diamond = (Return visited, g') /\
                      grows complete_diamond g' /\ paths_stored complete_diamond visited)
  /\ (exists visited g', dfs_traversal 64 vtx_a false complete_diamond = (Return visited, g') /\
                         grows complete_diamond g' /\ paths_stored complete_diamond visited)
  /\ (exists visited g', bfs_traversal 64 vtx_a complete_diamond = (Return visited, g') /\
                         grows complete_diamond g' /\ paths_stored complete_diamond visited).
Proof.
  apply (@traversals_return_without_cycles complete_diamond diamond_rank vtx_a 64).
  - apply reachable_build.
  - reflexivity.
  - apply ranked_complete_diamond.
  - vm_compute. lia.
  - vm_compute. lia.
Defined.

(** ** A cycle of negative weight is relaxed for ever *)

Local Open Scope Q_scope.

Lemma pair_weights_snoc g q u v e :
  stored_edge g u v = Some e ->
  pair_weights g ((q ++ [u]) ++ [v]) = pair_weights g (q ++ [u]) ++ [weight e].
Proof.
  intros Se. induction q as [|x q IH].
  - cbn. now rewrite Se.
  - destruct q as [|y q].
    + cbn [app] in *.
      rewrite (pair_weights_cons g x u [v]), (pair_weights_cons g x u []).
      destruct (stored_edge g x u); rewrite IH; reflexivity.
    + cbn [app] in *.
      rewrite (pair_weights_cons g x y ((q ++ [u]) ++ [v])),
              (pair_weights_cons g x y (q ++ [u])).
      destruct (stored_edge g x y); rewrite IH; reflexivity.
Qed.

Lemma path_sum_snoc g q u v e :
  stored_edge g u v = Some e ->
  path_sum g ((q ++ [u]) ++ [v]) = path_sum g (q ++ [u]) + weight e.
Proof.
  intros Se. unfold path_sum. rewrite (@pair_weights_snoc g q u v e Se).
  now rewrite fold_left_app.
Qed.

(** The relaxation step on a vertex that has a recorded path, from a vertex
    that has one, along stored edges and with a memo table without stale
    entries: the candidate replaces the recorded path unless the recorded
    path is strictly lighter, and the result tells whether the path now
    recorded equals the candidate. *)
Lemma visit_recorded g visited v from_vertex pv pf :
  cache_coherent g ->
  dict_get visited v = Some pv -> pv <> [] ->
  dict_get visited from_vertex = Some pf ->
  all_pairs_stored g pv = true -> all_pairs_stored g (pf ++ [v]) = true ->
  let chosen := if Qltb (path_sum g pv) (path_sum g (pf ++ [v]))
                then pv else pf ++ [v] in
  exists g',
    visit_vertex_neighbors v from_vertex visited g
    = (Return (path_eqb chosen (pf ++ [v]), dict_set visited v chosen), g') /\
    same_edges g g' /\ cache_coherent g'.
Proof.
  intros Hc Gv Nv Gf Sv Sn chosen. unfold visit_vertex_neighbors, visited_get.
  unfold TypingVisited, TypingPath in *. rewrite Gv. destruct pv as [|x pv]; [contradiction|].
  rewrite ?Gf, ?Gv.
  assert (Nn : pf ++ [v] <> []) by (destruct pf; discriminate).
  destruct (@min_stored g (x :: pv) (pf ++ [v]) Hc Nv Nn Sv Sn) as (g' & E & Sg & Hc').
  rewrite (bind_Return _ _ _ E). fold chosen.
  rewrite dict_get_set_same. exists g'. auto.
Qed.

Lemma Qltb_false_le x y : y <= x -> Qltb x y = false.
Proof.
  intros H. destruct (Qltb x y) eqn:E; [|reflexivity].
  apply Qltb_lt in E. exfalso. exact (Qlt_not_le _ _ E H).
Qed.

(** The expansion of one vertex [y] of the cycle, whose only edge [eyx]
    leads to [x], when the path through [y] is not heavier than the path
    recorded for [x]. *)
Lemma cycle_expand g visited x y eyx px py :
  same_edges negative_cycle g -> cache_coherent g ->
  dict_get (adjacency_list negative_cycle) y = Some [(x, eyx)] ->
  vertex1 eyx = y -> vertex2 eyx = x -> weight eyx = (-1) # 1 ->
  dict_get visited x = Some px -> dict_get visited y = Some py ->
  all_pairs_stored negative_cycle px = true -> ends_at px x ->
  all_pairs_stored negative_cycle py = true -> ends_at py y ->
  path_sum negative_cycle py + ((-1) # 1) <= path_sum negative_cycle px ->
  exists g',
    push_unvisited_neighbors y ([], visited) g
    = (Return ([eyx], dict_set visited x (py ++ [x])), g') /\
    same_edges negative_cycle g' /\ cache_coherent g' /\
    all_pairs_stored negative_cycle (py ++ [x]) = true /\
    path_sum negative_cycle (py ++ [x])
    = path_sum negative_cycle py + ((-1) # 1).
Proof.
  intros Sg Hc Gy K1 K2 Kw Gx Gvy Spx Epx Spy Epy Hle.
  assert (Se : stored_edge negative_cycle y x = Some eyx).
  { unfold stored_edge. rewrite Gy. cbn. now rewrite Vertex_eqb_refl. }
  destruct Epy as (qy & ->). destruct Epx as (qx & Epx).
  assert (Snew : all_pairs_stored negative_cycle ((qy ++ [y]) ++ [x]) = true)
    by (eapply all_pairs_stored_snoc; eauto).
  assert (Wnew : path_sum negative_cycle ((qy ++ [y]) ++ [x])
                 = path_sum negative_cycle (qy ++ [y]) + ((-1) # 1))
    by (rewrite (@path_sum_snoc negative_cycle qy y x eyx Se); now rewrite Kw).
  assert (Npx : px <> []) by (rewrite Epx; destruct qx; discriminate).
  destruct (@visit_recorded g visited x y px (qy ++ [y]) Hc Gx Npx Gvy)
    as (g' & E & Sg' & Hc').
  { now rewrite (same_edges_all_pairs_stored _ Sg). }
  { now rewrite (same_edges_all_pairs_stored _ Sg). }
  rewrite !(same_edges_path_sum _ Sg), Wnew, (Qltb_false_le Hle) in E.
  rewrite path_eqb_refl in E.
  exists g'. split.
  - unfold push_unvisited_neighbors.
    assert (Ga : adjacency_get y g = (Return [(x, eyx)], g)).
    { apply adjacency_get_present. destruct Sg as (_ & _ & ->). exact Gy. }
    eapply for_neighbors_directed; [exact Ga | | ].
    + cbn [for_items]. cbv beta iota. rewrite K1, K2.
      unfold bind at 1. rewrite (bind_Return _ _ _ E). reflexivity.
    + destruct Sg' as (_ & -> & _). destruct Sg as (_ & -> & _). reflexivity.
  - split; [eapply same_edges_trans; eauto|]. auto.
Qed.

Lemma dfs_step_single e visited g st' g' :
  push_unvisited_neighbors (vertex2 e) ([], visited) g = (Return st', g') ->
  dfs_step ([e], visited) g = Some (st', g').
Proof.
  intros H. unfold dfs_step. cbn [fst snd deque_pop].
  unfold deque in *. now rewrite H.
Qed.

Lemma cycling_step st g :
  cycling st g ->
  exists st' g', dfs_step st g = Some (st', g') /\ cycling st' g'.
Proof.
  destruct st as [s visited].
  intros (Sg & Hc & pa & pb & Ev & Spa & Epa & Spb & Epb & Hs).
  cbn [fst snd] in *. subst visited.
  destruct Hs as [[-> Hle] | [-> Hle]].
  - destruct (@cycle_expand g [(vtx_a, pa); (vtx_b, pb)] vtx_a vtx_b edge_ba pa pb
                Sg Hc eq_refl eq_refl eq_refl eq_refl eq_refl eq_refl
                Spa Epa Spb Epb Hle)
      as (g' & E & Sg' & Hc' & Snew & Wnew).
    eexists _, g'. split; [apply dfs_step_single; exact E|].
    split; [exact Sg'|]. split; [exact Hc'|].
    exists (pb ++ [vtx_a]), pb. cbn [fst snd].
    split; [reflexivity|]. split; [exact Snew|]. split; [now exists pb|].
    split; [exact Spb|]. split; [exact Epb|].
    right. split; [reflexivity|]. rewrite Wnew. lra.
  - destruct (@cycle_expand g [(vtx_a, pa); (vtx_b, pb)] vtx_b vtx_a edge_ab pb pa
                Sg Hc eq_refl eq_refl eq_refl eq_refl eq_refl eq_refl
                Spb Epb Spa Epa Hle)
      as (g' & E & Sg' & Hc' & Snew & Wnew).
    eexists _, g'. split; [apply dfs_step_single; exact E|].
    split; [exact Sg'|]. split; [exact Hc'|].
    exists pa, (pa ++ [vtx_b]). cbn [fst snd].
    split; [reflexivity|]. split; [exact Spa|]. split; [exact Epa|].
    split; [exact Snew|]. split; [now exists pa|].
    left. split; [reflexivity|]. rewrite Wnew. lra.
Qed.

Lemma cycling_never_returns n : forall st g,
  cycling st g -> fst (dfs_loop n st g) = OutOfFuel.
Proof.
  induction n as [|n IH]; intros st g H; [reflexivity|].
  destruct (cycling_step H) as (st' & g' & E & H').
  rewrite (@dfs_loop_step st g st' g' n E). now apply IH.
Qed.

(** On the directed graph with the edges a->b and b->a of weight -1 the
    iterative depth-first traversal from [a] never returns: each turn of
    its loop lowers the weight recorded for one of the two vertices and puts
    the other edge of the cycle on the work list. *)
Lemma negative_cycle_diverges fuel :
  fst (dfs_traversal fuel vtx_a false negative_cycle) = OutOfFuel.
Proof.
  unfold dfs_traversal.
  rewrite (bind_Return _ _ _ (visit_start vtx_a negative_cycle)).
  cbv iota. unfold dfs_non_recursive, bind.
  set (r := push_unvisited_neighbors vtx_a ([], [(vtx_a, [vtx_a])]) negative_cycle).
  vm_compute in r. subst r. cbv iota beta.
  apply cycling_never_returns.
  split; [repeat split|]. split; [now apply cache_coherent_empty|].
  exists [vtx_a], [vtx_a; vtx_b]. cbn [fst snd].
  split; [reflexivity|]. split; [reflexivity|]. split; [now exists []|].
  split; [reflexivity|]. split; [now exists [vtx_a]|].
  left. split; [reflexivity|]. vm_compute. discriminate.
Qed.

(** The claim C4 as it is written fails: not every finite graph obtained
    through the interface lets the traversals return. *)
Lemma negative_cycle_never_returns :
  ~ (forall g v,
        reachable g ->
        (exists fuel visited g',
            dfs_traversal fuel v true g = (Return visited, g')) /\
        (exists fuel visited g',
            dfs_traversal fuel v false g = (Return visited, g')) /\
        (exists fuel visited g',
            bfs_traversal fuel v g = (Return visited, g'))).
Proof.
  intros H.
  destruct (H negative_cycle vtx_a (reachable_build _ _ _))
    as (_ & (fuel & visited & g' & E) & _).
  pose proof (negative_cycle_diverges fuel) as D.
  rewrite E in D. discriminate.
Qed.

(* ===================================================================== *)
(** ** Edges that are not directed *)
(* ===================================================================== *)

Lemma ltb_antisym (s1 s2 : string) :
  s1 <> s2 -> String.ltb s2 s1 = negb (String.ltb s1 s2).
Proof.
  intros Hne. unfold String.ltb.
  rewrite (String.compare_antisym s1 s2).
  destruct (String.compare s2 s1) eqn:E; cbn; try reflexivity.
  apply String.compare_eq_iff in E. congruence.
Qed.

(** X1.  When the directed flag is false or [None], the factory stores the
    end points in the order of their names: it builds the same edge
    whichever way round the two names are given, and for two distinct names
    that edge is an [UndirectedEdge] of the given weight between the two
    vertices, with the name of [vertex1] strictly below that of [vertex2]. *)
Theorem undirected_edge_is_canonical
        (n1 n2 : string) (w : Q) (flag : option bool) :
  truthy flag = false ->
  edge_factory n1 n2 w flag = edge_factory n2 n1 w flag /\
  (n1 <> n2 ->
   exists e,
     edge_factory n1 n2 w flag = inr e /\
     is_directed_edge e = false /\ weight e = w /\
     String.ltb (name (vertex1 e)) (name (vertex2 e)) = true /\
     ((vertex1 e = mkVertex n1 /\ vertex2 e = mkVertex n2) \/
      (vertex1 e = mkVertex n2 /\ vertex2 e = mkVertex n1))).
Proof.
  intros F. unfold edge_factory. rewrite F.
  rewrite (String.eqb_sym n2 n1).
  destruct (String.eqb n1 n2) eqn:E.
  - split; [reflexivity|]. apply String.eqb_eq in E. contradiction.
  - apply String.eqb_neq in E.
    unfold UndirectedEdge_post_init. cbn [name].
    rewrite (@ltb_antisym n1 n2 E).
    destruct (String.ltb n1 n2) eqn:L; cbn [negb].
    + split; [reflexivity|]. intros _. eexists. split; [reflexivity|].
      cbn. rewrite L. tauto.
    + split; [reflexivity|]. intros _. eexists. split; [reflexivity|].
      cbn. rewrite (@ltb_antisym n1 n2 E), L. cbn. tauto.
Qed.

Lemma undirected_edge_is_canonical_witness :
  edge_factory "b" "a" (1#2) None = edge_factory "a" "b" (1#2) None /\
  exists e,
    edge_factory "b" "a" (1#2) None = inr e /\
    is_directed_edge e = false /\ weight e = (1#2) /\
    String.ltb (name (vertex1 e)) (name (vertex2 e)) = true /\
    ((vertex1 e = mkVertex "b" /\ vertex2 e = mkVertex "a") \/
     (vertex1 e = mkVertex "a" /\ vertex2 e = mkVertex "b")).
Proof.
  destruct (@undirected_edge_is_canonical "b" "a" (1#2) None eq_refl)
    as [H1 H2].
  split; [exact H1|]. apply H2. discriminate.
Defined.

(* ===================================================================== *)
(** ** Storing an edge again *)
(* ===================================================================== *)

Lemma add_edge_present_keys g n1 n2 w inner :
  n1 <> n2 ->
  dict_get (adjacency_list g) (mkVertex n1) = Some inner ->
  dict_keys (adjacency_list (snd (add_edge n1 n2 w g)))
  = dict_keys (adjacency_list g).
Proof.
  intros Hne G. unfold add_edge, edge_factory.
  apply String.eqb_neq in Hne. rewrite Hne. cbn [truthy vertex1 vertex2].
  unfold bind. rewrite (@adjacency_get_present (mkVertex n1) g inner G).
  cbn [snd adjacency_list].
  apply (@dict_keys_set_present _ (adjacency_list g) (mkVertex n1) _ inner G).
Qed.

Lemma add_edge_absent_keys g n1 n2 w :
  n1 <> n2 ->
  dict_get (adjacency_list g) (mkVertex n1) = None ->
  dict_keys (adjacency_list (snd (add_edge n1 n2 w g)))
  = dict_keys (adjacency_list g) ++ [mkVertex n1].
Proof.
  intros Hne G. unfold add_edge, edge_factory.
  apply String.eqb_neq in Hne. rewrite Hne. cbn [truthy vertex1 vertex2].
  unfold bind. rewrite (@adjacency_get_absent (mkVertex n1) g G).
  cbn [snd adjacency_list with_entry].
  assert (P : dict_get (adjacency_list g ++ [(mkVertex n1, [])]) (mkVertex n1)
              = Some []).
  { rewrite dict_get_app_r by assumption. cbn [dict_get]. now rewrite Vertex_eqb_refl. }
  rewrite (@dict_keys_set_present _ _ (mkVertex n1) _ [] P).
  unfold dict_keys. now rewrite map_app.
Qed.

(** X2.  [add_edge] for two distinct names changes one stored edge and no
    other; it appends its first vertex to the adjacency mapping when that
    vertex has no entry yet and never gives an entry to its second vertex.
    A second [add_edge] for the same two names replaces the weight of the
    stored edge (the last call wins), and leaves the keys of the adjacency
    mapping, hence the order in which vertices are listed, as they were. *)
Theorem add_edge_again_replaces (g : Graph) (n1 n2 : string) (w w' : Q) :
  n1 <> n2 ->
  exists g1 g2,
    add_edge n1 n2 w g = (Return tt, g1) /\
    add_edge n1 n2 w' g1 = (Return tt, g2) /\
    dict_keys (adjacency_list g1)
    = (if dict_mem (adjacency_list g) (mkVertex n1)
       then dict_keys (adjacency_list g)
       else dict_keys (adjacency_list g) ++ [mkVertex n1]) /\
    dict_keys (adjacency_list g2) = dict_keys (adjacency_list g1) /\
    (forall u v,
        stored_edge g1 u v =
        if Vertex_eqb (mkVertex n1) u && Vertex_eqb (mkVertex n2) v
        then Some (DirectedEdge (mkVertex n1) (mkVertex n2) w)
        else stored_edge g u v) /\
    (forall u v,
        stored_edge g2 u v =
        if Vertex_eqb (mkVertex n1) u && Vertex_eqb (mkVertex n2) v
        then Some (DirectedEdge (mkVertex n1) (mkVertex n2) w')
        else stored_edge g u v).
Proof.
  intros Hne.
  destruct (@stored_edge_add_edge g n1 n2 w Hne)
    as (g1 & E1 & _ & _ & _ & S1).
  destruct (@stored_edge_add_edge g1 n1 n2 w' Hne)
    as (g2 & E2 & _ & _ & _ & S2).
  exists g1, g2. split; [exact E1|]. split; [exact E2|].
  split; [|split; [|split; [exact S1|]]].
  - replace g1 with (snd (add_edge n1 n2 w g)) by now rewrite E1.
    unfold dict_mem.
    destruct (dict_get (adjacency_list g) (mkVertex n1)) as [inner|] eqn:G.
    + exact (@add_edge_present_keys g n1 n2 w inner Hne G).
    + exact (@add_edge_absent_keys g n1 n2 w Hne G).
  - assert (P : stored_edge g1 (mkVertex n1) (mkVertex n2)
                = Some (DirectedEdge (mkVertex n1) (mkVertex n2) w)).
    { rewrite S1, !Vertex_eqb_refl. reflexivity. }
    destruct (@stored_edge_Some g1 _ _ _ P) as (inner & G & _).
    replace g2 with (snd (add_edge n1 n2 w' g1)) by now rewrite E2.
    exact (@add_edge_present_keys g1 n1 n2 w' inner Hne G).
  - intros u v. rewrite S2, S1.
    destruct (Vertex_eqb (mkVertex n1) u && Vertex_eqb (mkVertex n2) v);
      reflexivity.
Qed.

Lemma add_edge_again_replaces_witness :
  exists g1 g2,
    add_edge "a" "d" 1 complete_diamond = (Return tt, g1) /\
    add_edge "a" "d" 3 g1 = (Return tt, g2) /\
    dict_keys (adjacency_list g1)
    = (if dict_mem (adjacency_list complete_diamond) vtx_a
       then dict_keys (adjacency_list complete_diamond)
       else dict_keys (adjacency_list complete_diamond) ++ [vtx_a]) /\
    dict_keys (adjacency_list g2) = dict_keys (adjacency_list g1) /\
    (forall u v,
        stored_edge g1 u v =
        if Vertex_eqb vtx_a u && Vertex_eqb vtx_d v
        then Some (DirectedEdge vtx_a vtx_d 1)
        else stored_edge complete_diamond u v) /\
    (forall u v,
        stored_edge g2 u v =
        if Vertex_eqb vtx_a u && Vertex_eqb vtx_d v
        then Some (DirectedEdge vtx_a vtx_d 3)
        else stored_edge complete_diamond u v).
Proof.
  apply (@add_edge_again_replaces complete_diamond "a" "d" 1 3). discriminate.
Defined.

(* ===================================================================== *)
(** ** The memo table *)
(* ===================================================================== *)

Lemma adjacency_get_cache v g : cache (snd (adjacency_get v g)) = cache g.
Proof.
  unfold adjacency_get. now destruct (dict_get (adjacency_list g) v).
Qed.

Lemma total_loop_cache rest :
  forall v1 acc g, cache (snd (total_loop v1 rest acc g)) = cache g.
Proof.
  induction rest as [|v2 rest IH]; intros v1 acc g; cbn [total_loop].
  - reflexivity.
  - unfold bind.
    pose proof (adjacency_get_cache v1 g) as C.
    destruct (adjacency_get v1 g) as [[inner| e |] g1] eqn:E;
      cbn [snd] in *; auto.
    destruct (dict_get inner v2); [|exact C].
    now rewrite IH.
Qed.

Lemma total_body_cache p g : cache (snd (total_body p g)) = cache g.
Proof.
  destruct p; cbn; [reflexivity | apply total_loop_cache].
Qed.

Lemma add_edge_cache n1 n2 w g : cache (snd (add_edge n1 n2 w g)) = cache g.
Proof.
  unfold add_edge.
  destruct (edge_factory n1 n2 w (Some true)) as [e|edge]; [reflexivity|].
  unfold bind.
  pose proof (adjacency_get_cache (vertex1 edge) g) as C.
  destruct (adjacency_get (vertex1 edge) g) as [[inner| e |] g1];
    cbn [snd cache] in *; auto.
Qed.

Lemma add_edges_cache l : forall g, cache (snd (add_edges l g)) = cache g.
Proof.
  induction l as [|[[n1 n2] w] l IH]; intros g; cbn [add_edges].
  - reflexivity.
  - unfold bind.
    pose proof (add_edge_cache n1 n2 w g) as C.
    destruct (add_edge n1 n2 w g) as [[[]| e |] g1]; cbn [snd] in *; auto.
    now rewrite IH.
Qed.

Lemma total_hit p g w :
  cache_get (cache g) p = Some w ->
  total_vertex_sequence_weight p g = (Return w, g).
Proof.
  intros H. unfold total_vertex_sequence_weight. now rewrite H.
Qed.

Lemma total_memoised p g w g1 :
  total_vertex_sequence_weight p g = (Return w, g1) ->
  cache_get (cache g1) p = Some w.
Proof.
  unfold total_vertex_sequence_weight.
  destruct (cache_get (cache g) p) as [w0|] eqn:H.
  - intros [= -> <-]. exact H.
  - pose proof (total_body_cache p g) as C.
    destruct (total_body p g) as [[w1| e |] g2]; intros [= <- <-].
    cbn [snd cache] in *. rewrite cache_get_app, C, H.
    now rewrite path_eqb_refl.
Qed.

Lemma total_raise_cache p g e g1 :
  total_vertex_sequence_weight p g = (Raise e, g1) -> cache g1 = cache g.
Proof.
  unfold total_vertex_sequence_weight.
  destruct (cache_get (cache g) p) as [w0|]; [discriminate|].
  pose proof (total_body_cache p g) as C.
  destruct (total_body p g) as [[w1| e1 |] g2]; intros [= <- <-].
  exact C.
Qed.

(** X3.  Once [total_vertex_sequence_weight] has returned a number for a
    sequence, every later call with that sequence returns the same number
    from the memo table and changes nothing, whatever edges [add_edge] has
    stored or replaced in between: the number is never computed again.  A
    call that raises adds nothing to the memo table. *)
Theorem memoised_weight_is_never_recomputed (p : TypingPath) (g : Graph) :
  (forall w g1,
      total_vertex_sequence_weight p g = (Return w, g1) ->
      forall l,
        total_vertex_sequence_weight p (snd (add_edges l g1))
        = (Return w, snd (add_edges l g1))) /\
  (forall e g1,
      total_vertex_sequence_weight p g = (Raise e, g1) ->
      cache g1 = cache g).
Proof.
  split.
  - intros w g1 H l. apply total_hit.
    rewrite add_edges_cache. exact (@total_memoised p g w g1 H).
  - intros e g1 H. exact (@total_raise_cache p g e g1 H).
Qed.

Lemma memoised_weight_is_never_recomputed_witness :
  total_vertex_sequence_weight [vtx_a; vtx_b]
    (snd (add_edges [("a", "b", 7 # 1); ("b", "c", 1)]
            (snd (total_vertex_sequence_weight [vtx_a; vtx_b] triangle))))
  = (Return (0 + (1 # 2)),
     snd (add_edges [("a", "b", 7 # 1); ("b", "c", 1)]
            (snd (total_vertex_sequence_weight [vtx_a; vtx_b] triangle)))).
Proof.
  apply (proj1 (memoised_weight_is_never_recomputed [vtx_a; vtx_b] triangle)).
  reflexivity.
Defined.

Lemma cache_coherent_grows g g' :
  grows g g' -> cache g' = cache g -> cache_coherent g -> cache_coherent g'.
Proof.
  intros G C H p w Hp. rewrite C in Hp.
  destruct (H p w Hp) as (N & S & W).
  split; [exact N|]. split.
  - now rewrite (@grows_all_pairs_stored g g' p G).
  - now rewrite (@grows_path_sum g g' p G).
Qed.

Lemma cache_coherent_looked_up g u :
  cache_coherent g -> cache_coherent (looked_up g u).
Proof.
  unfold looked_up. destruct (dict_mem (adjacency_list g) u); [auto|].
  apply cache_coherent_grows; [apply grows_with_entry | reflexivity].
Qed.

Lemma keeps_coherent_ret A (a : A) : keeps_coherent (ret a).
Proof. intros g H. exact H. Qed.

Lemma keeps_coherent_raise A e : keeps_coherent (@raise A e).
Proof. intros g H. exact H. Qed.

Lemma keeps_coherent_out_of_fuel A : keeps_coherent (@out_of_fuel A).
Proof. intros g H. exact H. Qed.

Lemma keeps_coherent_get_graph : keeps_coherent get_graph.
Proof. intros g H. exact H. Qed.

Lemma keeps_coherent_bind A B (m : M A) (k : A -> M B) :
  keeps_coherent m -> (forall a, keeps_coherent (k a)) ->
  keeps_coherent (bind m k).
Proof.
  intros Hm Hk g H. unfold bind. specialize (Hm g H).
  destruct (m g) as [[a| e |] g1]; cbn [snd] in *; auto.
  apply Hk, Hm.
Qed.

Lemma keeps_coherent_adjacency_get v : keeps_coherent (adjacency_get v).
Proof.
  intros g H.
  apply (@cache_coherent_grows g); auto.
  - apply query_adjacency_get.
  - apply adjacency_get_cache.
Qed.

Lemma keeps_coherent_total p :
  keeps_coherent (total_vertex_sequence_weight p).
Proof.
  intros g H. destruct p as [|v p].
  - unfold total_vertex_sequence_weight.
    destruct (cache_get (cache g) []) as [w|] eqn:E; [exact H|].
    exact H.
  - destruct (all_pairs_stored g (v :: p)) eqn:S.
    + destruct (@total_stored g (v :: p) H) as (g' & -> & _ & C);
        [discriminate | exact S | exact C].
    + destruct (@first_unstored_false g (v :: p) S) as (u & x & F).
      rewrite (@total_unstored g (v :: p) u x H F).
      now apply cache_coherent_looked_up.
Qed.

Lemma keeps_coherent_min p q :
  keeps_coherent (min_vertex_sequence_weight p q).
Proof.
  unfold min_vertex_sequence_weight.
  apply keeps_coherent_bind; [apply keeps_coherent_total|]. intros w1.
  apply keeps_coherent_bind; [apply keeps_coherent_total|]. intros w2.
  destruct (Qltb w1 w2); apply keeps_coherent_ret.
Qed.

Lemma keeps_coherent_visit v from_vertex visited :
  keeps_coherent (visit_vertex_neighbors v from_vertex visited).
Proof.
  unfold visit_vertex_neighbors.
  destruct (visited_get visited v) as [pv visited1].
  destruct pv as [|x pv].
  - destruct (visited_get visited1 from_vertex). apply keeps_coherent_ret.
  - destruct (visited_get visited1 from_vertex) as [pf visited2].
    destruct (visited_get visited2 v) as [pv' visited3].
    apply keeps_coherent_bind; [apply keeps_coherent_min|]. intros chosen.
    destruct (visited_get _ v). apply keeps_coherent_ret.
Qed.

Section CoherentLoops.
Variable S : Type.
Variable body : Vertex -> TypingEdge -> S -> M S.
Hypothesis coherent_body : forall n e s, keeps_coherent (body n e s).

Lemma keeps_coherent_for_items items :
  forall s, keeps_coherent (for_items body items s).
Proof.
  induction items as [|[n e] items IH]; intros s; cbn.
  - apply keeps_coherent_ret.
  - apply keeps_coherent_bind; auto.
Qed.

Lemma keeps_coherent_check_size used : keeps_coherent (check_size used).
Proof.
  intros g H. unfold check_size.
  destruct (Nat.eqb _ _); exact H.
Qed.

Lemma keeps_coherent_for_reverse keys used target :
  forall s, keeps_coherent (for_reverse body keys used target s).
Proof.
  induction keys as [|v1 keys IH]; intros s; cbn.
  - apply keeps_coherent_bind;
      [apply keeps_coherent_check_size | intros; apply keeps_coherent_ret].
  - apply keeps_coherent_bind; [apply keeps_coherent_check_size | intros _].
    apply keeps_coherent_bind; [apply keeps_coherent_adjacency_get|].
    intros inner. destruct (dict_get inner target); auto.
    apply keeps_coherent_bind; auto.
Qed.

Lemma keeps_coherent_for_neighbors target s :
  keeps_coherent (for_neighbors body target s).
Proof.
  unfold for_neighbors.
  apply keeps_coherent_bind; [apply keeps_coherent_adjacency_get|].
  intros inner.
  apply keeps_coherent_bind; [apply keeps_coherent_for_items | intros s1].
  apply keeps_coherent_bind; [apply keeps_coherent_get_graph | intros g].
  destruct (truthy (directed g));
    [apply keeps_coherent_ret | apply keeps_coherent_for_reverse].
Qed.
End CoherentLoops.

Lemma keeps_coherent_neighbors v : keeps_coherent (neighbors v).
Proof.
  apply keeps_coherent_for_neighbors. intros; apply keeps_coherent_ret.
Qed.

Lemma keeps_coherent_push v st : keeps_coherent (push_unvisited_neighbors v st).
Proof.
  apply keeps_coherent_for_neighbors. intros n e [s visited].
  apply keeps_coherent_bind;
    [apply keeps_coherent_visit | intros [b visited']; apply keeps_coherent_ret].
Qed.

Lemma keeps_coherent_enqueue v st :
  keeps_coherent (enqueue_unvisited_neighbors v st).
Proof.
  apply keeps_coherent_for_neighbors. intros n e [s visited].
  apply keeps_coherent_bind;
    [apply keeps_coherent_visit | intros [b visited']; apply keeps_coherent_ret].
Qed.

Lemma keeps_coherent_dfs_loop fuel : forall st, keeps_coherent (dfs_loop fuel st).
Proof.
  induction fuel as [|fuel IH]; intros st; cbn.
  - apply keeps_coherent_out_of_fuel.
  - destruct (deque_pop (fst st)) as [[e s']|]; [|apply keeps_coherent_ret].
    apply keeps_coherent_bind; [apply keeps_coherent_push | auto].
Qed.

Lemma keeps_coherent_bfs_loop fuel : forall st, keeps_coherent (bfs_loop fuel st).
Proof.
  induction fuel as [|fuel IH]; intros st; cbn.
  - apply keeps_coherent_out_of_fuel.
  - destruct (deque_pop (fst st)) as [[e s']|]; [|apply keeps_coherent_ret].
    apply keeps_coherent_bind; [apply keeps_coherent_enqueue | auto].
Qed.

Lemma keeps_coherent_dfs fuel :
  forall v visited, keeps_coherent (dfs fuel v visited).
Proof.
  induction fuel as [|fuel IH]; intros v visited; cbn.
  - apply keeps_coherent_out_of_fuel.
  - apply keeps_coherent_for_neighbors. intros n e visited0.
    apply keeps_coherent_bind;
      [apply keeps_coherent_visit | intros [[] visited']]; auto.
    apply keeps_coherent_ret.
Qed.

Lemma keeps_coherent_dfs_traversal fuel v r :
  keeps_coherent (dfs_traversal fuel v r).
Proof.
  apply keeps_coherent_bind; [apply keeps_coherent_visit | intros [b visited]].
  destruct r; [apply keeps_coherent_dfs|].
  apply keeps_coherent_bind;
    [apply keeps_coherent_push | apply keeps_coherent_dfs_loop].
Qed.

Lemma keeps_coherent_bfs_traversal fuel v :
  keeps_coherent (bfs_traversal fuel v).
Proof.
  apply keeps_coherent_bind; [apply keeps_coherent_visit | intros [b visited]].
  apply keeps_coherent_bind;
    [apply keeps_coherent_enqueue | apply keeps_coherent_bfs_loop].
Qed.

Lemma keeps_coherent_shortest_path fuel n1 n2 s :
  keeps_coherent (shortest_path fuel n1 n2 s).
Proof.
  unfold shortest_path.
  repeat match goal with
         | |- keeps_coherent (if ?c then _ else _) => destruct c
         end;
    try apply keeps_coherent_ret;
    (apply keeps_coherent_bind; [|intros; apply keeps_coherent_ret]);
    auto using keeps_coherent_dfs_traversal, keeps_coherent_bfs_traversal.
Qed.

Lemma read_only_keeps_coherent A (m : M A) : read_only m -> keeps_coherent m.
Proof.
  destruct 1; auto using keeps_coherent_neighbors, keeps_coherent_total,
    keeps_coherent_min, keeps_coherent_dfs_traversal,
    keeps_coherent_bfs_traversal, keeps_coherent_shortest_path.
Qed.

(** A new edge between two vertices that held none leaves every stored
    sequence stored, with the weights it had. *)
Lemma add_edge_fresh_paths g g' a b e p :
  stored_edge g a b = None ->
  (forall u v, stored_edge g' u v =
               if Vertex_eqb a u && Vertex_eqb b v then Some e
               else stored_edge g u v) ->
  all_pairs_stored g p = true ->
  all_pairs_stored g' p = true /\ pair_weights g' p = pair_weights g p.
Proof.
  intros F S. induction p as [|u p IH]; [now split|].
  destruct p as [|v p]; [now split|].
  rewrite !all_pairs_stored_cons, !pair_weights_cons, S.
  destruct (stored_edge g u v) as [e'|] eqn:E; [|discriminate].
  intros A. destruct (IH A) as [IH1 IH2].
  destruct (Vertex_eqb a u && Vertex_eqb b v) eqn:B.
  - apply andb_prop in B. destruct B as [B1 B2].
    apply Vertex_eqb_eq in B1, B2. subst. congruence.
  - split; [exact IH1 | now rewrite IH2].
Qed.

Lemma add_edge_fresh_coherent g n1 n2 w :
  stored_edge g (mkVertex n1) (mkVertex n2) = None ->
  cache_coherent g -> cache_coherent (snd (add_edge n1 n2 w g)).
Proof.
  intros F H. destruct (String.eqb n1 n2) eqn:E.
  - unfold add_edge, edge_factory. rewrite E. exact H.
  - apply String.eqb_neq in E.
    destruct (@stored_edge_add_edge g n1 n2 w E) as (g' & -> & _ & _ & C & S).
    cbn [snd]. intros p x Hp. rewrite C in Hp.
    destruct (H p x Hp) as (N & A & W).
    destruct (@add_edge_fresh_paths g g' _ _ _ p F S A) as [A' P'].
    split; [exact N|]. split; [exact A'|].
    unfold path_sum. now rewrite P'.
Qed.

Lemma without_overwrite_coherent g : without_overwrite g -> cache_coherent g.
Proof.
  induction 1 as [nm flag | g n1 n2 w _ IH F | A m g _ IH R].
  - now apply cache_coherent_empty.
  - now apply add_edge_fresh_coherent.
  - now apply read_only_keeps_coherent.
Qed.

Lemma cache_get_In c p w : cache_get c p = Some w -> In (p, w) c.
Proof.
  induction c as [|[q x] c IH]; cbn [cache_get]; [discriminate|].
  destruct (path_eqb q p) eqn:E.
  - intros [= ->]. apply path_eqb_eq in E. subst q. now left.
  - intros H. right. now apply IH.
Qed.

(** X4.  The memo table of [total_vertex_sequence_weight] holds no stale
    entry as long as no edge is stored twice between the same two vertices:
    on a fresh graph, after [add_edge] for a pair that holds no edge, and
    after any read-only call, every memoised sequence is a non-empty
    sequence of stored edges and its number is the present sum of their
    weights.  This is stated for graphs whose weights are multiples of
    [2^-k] small enough for the sum of every memoised sequence to be a
    binary64 number ([exact_memo]): the memoised number is then also what
    the additions of the source give in binary64.  Only replacing an edge
    can make the table stale. *)
Theorem memo_table_holds_present_sums (g : Graph) (k : nat) (b : Z) :
  without_overwrite g -> exact_memo k b g = true ->
  cache_coherent g /\
  forall p w, cache_get (cache g) p = Some w ->
              w = path_sum g p /\
              binary64_total k g p = binary64_of k w.
Proof.
  intros H X. pose proof (without_overwrite_coherent H) as C.
  split; [exact C|]. intros p w Hp.
  destruct (C p w Hp) as (_ & _ & ->). split; [reflexivity|].
  unfold exact_memo in X. rewrite forallb_forall in X.
  specialize (X (p, path_sum g p) (cache_get_In _ _ Hp)). cbn [fst] in X.
  exact (proj2 (@path_sum_exact k b _ g p X (Nat.le_refl _))).
Qed.

Lemma memo_table_holds_present_sums_witness :
  cache_coherent
    (snd (min_vertex_sequence_weight [vtx_a; vtx_b; vtx_c] [vtx_a; vtx_c]
                                     triangle)) /\
  forall p w,
    cache_get (cache (snd (min_vertex_sequence_weight
                             [vtx_a; vtx_b; vtx_c] [vtx_a; vtx_c] triangle)))
              p = Some w ->
    w = path_sum (snd (min_vertex_sequence_weight
                         [vtx_a; vtx_b; vtx_c] [vtx_a; vtx_c] triangle)) p /\
    binary64_total 1 (snd (min_vertex_sequence_weight
                             [vtx_a; vtx_b; vtx_c] [vtx_a; vtx_c] triangle)) p
    = binary64_of 1 w.
Proof.
  apply (@memo_table_holds_present_sums _ 1%nat 1%Z); [|reflexivity].
  apply wo_read; [|constructor].
  change triangle
    with (snd (add_edge "b" "c" (1#2)
           (snd (add_edge "a" "c" (1#2)
             (snd (add_edge "a" "b" (1#2)
               (Graph_init "triangle" (Some true)))))))).
  repeat (apply wo_add_edge; [|reflexivity]).
  apply wo_init.
Defined.

(** X5.  On a graph whose memo table holds no stale entry and whose
    weights are multiples of [2^-k] small enough for the sums of the two
    sequences to be binary64 numbers ([exact_sums]),
    [min_vertex_sequence_weight] of two non-empty sequences of stored edges
    returns one of the two, and the one it returns is no heavier than
    either: the first when it is strictly lighter, the second otherwise.
    It is the sequence that the test of the source picks on the two sums
    formed in binary64.  The edges of the graph are left as they were. *)
Theorem min_vertex_sequence_weight_is_lightest
        (g : Graph) (p q : TypingPath) (k : nat) (b : Z) :
  cache_coherent g -> p <> [] -> q <> [] ->
  all_pairs_stored g p = true -> all_pairs_stored g q = true ->
  exact_sums k b (Nat.max (List.length p) (List.length q)) g = true ->
  exists r g',
    min_vertex_sequence_weight p q g = (Return r, g') /\
    same_edges g g' /\ cache_coherent g' /\
    (r = p \/ r = q) /\
    path_sum g r <= path_sum g p /\ path_sum g r <= path_sum g q /\
    (path_sum g p < path_sum g q -> r = p) /\
    (path_sum g q <= path_sum g p -> r = q) /\
    r = (if binary64_lighter k g p q then p else q).
Proof.
  intros C Np Nq Sp Sq X.
  pose proof (@binary64_lighter_exact k b _ g p q X
                (Nat.le_max_l _ _) (Nat.le_max_r _ _)) as BL.
  destruct (@min_stored g p q C Np Nq Sp Sq) as (g' & E & SE & C').
  exists (if Qltb (path_sum g p) (path_sum g q) then p else q), g'.
  split; [exact E|]. split; [exact SE|]. split; [exact C'|].
  rewrite BL.
  destruct (Qltb (path_sum g p) (path_sum g q)) eqn:L.
  - apply Qltb_lt in L.
    split; [now left|]. split; [apply Qle_refl|].
    split; [now apply Qlt_le_weak|]. split; [reflexivity|].
    split; [|reflexivity].
    intros H. exfalso. exact (Qlt_not_le _ _ L H).
  - assert (H : path_sum g q <= path_sum g p).
    { apply Qnot_lt_le. intros H. apply Qltb_lt in H. congruence. }
    split; [now right|]. split; [exact H|]. split; [apply Qle_refl|].
    split; [|split; reflexivity].
    intros H'. exfalso. exact (Qlt_not_le _ _ H' H).
Qed.

Lemma min_vertex_sequence_weight_is_lightest_witness :
  exists r g',
    min_vertex_sequence_weight [vtx_a; vtx_b; vtx_c] [vtx_a; vtx_c]
                               complete_diamond = (Return r, g') /\
    same_edges complete_diamond g' /\ cache_coherent g' /\
    (r = [vtx_a; vtx_b; vtx_c] \/ r = [vtx_a; vtx_c]) /\
    path_sum complete_diamond r
    <= path_sum complete_diamond [vtx_a; vtx_b; vtx_c] /\
    path_sum complete_diamond r <= path_sum complete_diamond [vtx_a; vtx_c] /\
    (path_sum complete_diamond [vtx_a; vtx_b; vtx_c]
     < path_sum complete_diamond [vtx_a; vtx_c] ->
     r = [vtx_a; vtx_b; vtx_c]) /\
    (path_sum complete_diamond [vtx_a; vtx_c]
     <= path_sum complete_diamond [vtx_a; vtx_b; vtx_c] ->
     r = [vtx_a; vtx_c]) /\
    r = (if binary64_lighter 1 complete_diamond
                             [vtx_a; vtx_b; vtx_c] [vtx_a; vtx_c]
         then [vtx_a; vtx_b; vtx_c] else [vtx_a; vtx_c]).
Proof.
  apply (@min_vertex_sequence_weight_is_lightest
           complete_diamond [vtx_a; vtx_b; vtx_c] [vtx_a; vtx_c] 1%nat 4%Z).
  - apply cache_coherent_empty. reflexivity.
  - discriminate.
  - discriminate.
  - reflexivity.
  - reflexivity.
  - reflexivity.
Defined.

(* ===================================================================== *)
(** ** Calls that do not raise *)
(* ===================================================================== *)

Lemma ensures_Return A (m : M A) g a g' (post : A -> Graph -> Prop) :
  m g = (Return a, g') -> post a g' -> ensures (m g) post.
Proof. intros -> H. exact H. Qed.

Lemma ensures_bind A B (m : M A) (k : A -> M B) g
      (mid : A -> Graph -> Prop) (post : B -> Graph -> Prop) :
  ensures (m g) mid ->
  (forall a g', mid a g' -> ensures (k a g') post) ->
  ensures (bind m k g) post.
Proof.
  intros Hm Hk. unfold bind.
  destruct (m g) as [[a| e |] g1]; cbn in *; auto.
Qed.

Lemma ensures_mono A (r : outcome A * Graph) (post post' : A -> Graph -> Prop) :
  ensures r post -> (forall a g, post a g -> post' a g) -> ensures r post'.
Proof.
  destruct r as [[a| e |] g]; cbn; auto.
Qed.

Lemma ensures_inv A (r : outcome A * Graph) (post : A -> Graph -> Prop) a g :
  ensures r post -> r = (Return a, g) -> post a g.
Proof. intros H ->. exact H. Qed.

Lemma ensures_no_raise A (r : outcome A * Graph) (post : A -> Graph -> Prop) e :
  ensures r post -> fst r <> Raise e.
Proof.
  destruct r as [[a| e' |] g]; cbn; [discriminate | tauto | discriminate].
Qed.

(** The loop over the items of an adjacency entry, with an invariant that
    knows which items have been met. *)
Lemma for_items_ensures S (body : Vertex -> TypingEdge -> S -> M S)
      (L : dict TypingEdge -> S -> Graph -> Prop) items :
  forall done all_items,
    all_items = done ++ items ->
    (forall done' n e rest s g,
        all_items = done' ++ (n, e) :: rest -> L done' s g ->
        ensures (body n e s g) (L (done' ++ [(n, e)]))) ->
    forall s g, L done s g ->
                ensures (for_items body items s g) (L all_items).
Proof.
  induction items as [|[n e] items IH]; intros done all_items Hall Hb s g Hl.
  - rewrite app_nil_r in Hall. subst. exact Hl.
  - cbn [for_items].
    apply (@ensures_bind _ _ _ _ _ (L (done ++ [(n, e)]))).
    + exact (Hb done n e items s g Hall Hl).
    + intros s' g' Hl'.
      apply (IH (done ++ [(n, e)]) all_items); auto.
      now rewrite <- app_assoc.
Qed.

(** The same for [neighbors] on a graph that stays directed. *)
Lemma for_neighbors_ensures S (body : Vertex -> TypingEdge -> S -> M S)
      (L : dict TypingEdge -> S -> Graph -> Prop) x s g inner g1 :
  adjacency_get x g = (Return inner, g1) ->
  (forall s' g', L inner s' g' -> truthy (directed g') = true) ->
  (forall done n e rest s' g',
      inner = done ++ (n, e) :: rest -> L done s' g' ->
      ensures (body n e s' g') (L (done ++ [(n, e)]))) ->
  L [] s g1 ->
  ensures (for_neighbors body x s g) (L inner).
Proof.
  intros E D Hb Hl. unfold for_neighbors.
  rewrite (bind_Return _ _ _ E).
  apply (@ensures_bind _ _ _ _ _ (L inner)).
  - apply (@for_items_ensures _ body L inner [] inner); auto.
  - intros s' g' Hl'. unfold bind, get_graph.
    rewrite (D s' g' Hl'). exact Hl'.
Qed.

(* ===================================================================== *)
(** ** What a visit does to the recorded paths *)
(* ===================================================================== *)

Lemma lightens_refl g visited : lightens g visited visited.
Proof. intros u H. split; [exact H | apply Qle_refl]. Qed.

Lemma lightens_trans g v1 v2 v3 :
  lightens g v1 v2 -> lightens g v2 v3 -> lightens g v1 v3.
Proof.
  intros H1 H2 u H. destruct (H1 u H) as (N1 & W1).
  destruct (H2 u N1) as (N2 & W2). split; [exact N2|].
  eapply Qle_trans; eauto.
Qed.

Lemma lightens_keeps g v1 v2 : lightens g v1 v2 -> keeps_visited v1 v2.
Proof. intros H u N. apply (H u N). Qed.

Lemma relaxed_lightens g visited visited' u :
  lightens g visited visited' ->
  recorded visited' u = recorded visited u ->
  relaxed g visited u -> relaxed g visited' u.
Proof.
  intros L E R v e S. destruct (R v e S) as (N & W).
  destruct (L v N) as (N' & W'). split; [exact N'|].
  rewrite E. eapply Qle_trans; eauto.
Qed.

Lemma starts_at_app p q s : starts_at p s -> starts_at (p ++ q) s.
Proof. intros (r & ->). now exists (r ++ q). Qed.

Lemma dict_get_recorded (visited : TypingVisited) v x p :
  recorded visited v = x :: p -> dict_get visited v = Some (x :: p).
Proof.
  unfold recorded. destruct (dict_get visited v); [now intros -> | discriminate].
Qed.

(** The visit of a vertex that has a recorded path, from one that has one,
    is the comparison of the two candidate sequences. *)
Lemma visit_visited visited v from_vertex x pv pf g :
  dict_get visited v = Some (x :: pv) ->
  dict_get visited from_vertex = Some pf ->
  visit_vertex_neighbors v from_vertex visited g
  = bind (min_vertex_sequence_weight (x :: pv) (pf ++ [v]))
         (fun chosen =>
            ret (path_eqb chosen (pf ++ [v]), dict_set visited v chosen)) g.
Proof.
  intros Gv Gf. unfold visit_vertex_neighbors, visited_get.
  unfold TypingVisited, TypingPath in *.
  rewrite Gv. cbv beta iota. rewrite Gf. cbv beta iota.
  rewrite Gv. cbv beta iota. unfold bind.
  destruct (min_vertex_sequence_weight (x :: pv) (pf ++ [v]) g)
    as [[chosen| e |] g']; try reflexivity.
  now rewrite dict_get_set_same.
Qed.

Lemma min_vertex_sequence_weight_lightest_aux g p q :
  cache_coherent g -> p <> [] -> q <> [] ->
  all_pairs_stored g p = true -> all_pairs_stored g q = true ->
  exists r g',
    min_vertex_sequence_weight p q g = (Return r, g') /\
    cache_coherent g' /\
    path_sum g r <= path_sum g p /\ path_sum g r <= path_sum g q.
Proof.
  intros C Np Nq Sp Sq.
  destruct (@min_stored g p q C Np Nq Sp Sq) as (g' & E & SE & C').
  exists (if Qltb (path_sum g p) (path_sum g q) then p else q), g'.
  split; [exact E|]. split; [exact C'|].
  destruct (Qltb (path_sum g p) (path_sum g q)) eqn:L.
  - apply Qltb_lt in L. split; [apply Qle_refl | now apply Qlt_le_weak].
  - split; [|apply Qle_refl].
    apply Qnot_lt_le. intros H. apply Qltb_lt in H. congruence.
Qed.

Lemma min_step (K : Prop) g0 g p q :
  grows g0 g -> (K -> cache_coherent g) -> p <> [] -> q <> [] ->
  all_pairs_stored g0 p = true -> all_pairs_stored g0 q = true ->
  exists r g',
    min_vertex_sequence_weight p q g = (Return r, g') /\
    grows g0 g' /\ (r = p \/ r = q) /\
    (K -> cache_coherent g' /\
          path_sum g0 r <= path_sum g0 p /\ path_sum g0 r <= path_sum g0 q).
Proof.
  intros G KC Np Nq Sp Sq.
  rewrite <- (@grows_all_pairs_stored g0 g p G) in Sp.
  rewrite <- (@grows_all_pairs_stored g0 g q G) in Sq.
  destruct (@min_returns g p q Np Nq Sp Sq) as (r & g' & E & SE & Hr).
  exists r, g'. split; [exact E|].
  split; [eapply grows_trans; [exact G | apply same_edges_grows, SE]|].
  split; [exact Hr|]. intros k.
  destruct (@min_vertex_sequence_weight_lightest_aux g p q (KC k) Np Nq Sp Sq)
    as (r' & g'' & E' & C' & W1 & W2).
  rewrite E in E'. injection E' as <- <-.
  rewrite <- !(@grows_path_sum g0 g _ G). auto.
Qed.

Lemma dict_get_recorded_nonempty (visited : TypingVisited) v :
  recorded visited v <> [] -> dict_get visited v = Some (recorded visited v).
Proof.
  unfold recorded. destruct (dict_get visited v); [reflexivity | contradiction].
Qed.

Lemma recorded_update_sound g0 s0 (visited visited' : TypingVisited) v :
  paths_stored g0 visited -> rooted s0 visited -> recorded visited s0 <> [] ->
  (forall u, u <> v -> recorded visited' u = recorded visited u) ->
  recorded visited' v <> [] ->
  all_pairs_stored g0 (recorded visited' v) = true ->
  ends_at (recorded visited' v) v -> starts_at (recorded visited' v) s0 ->
  paths_stored g0 visited' /\ rooted s0 visited' /\ recorded visited' s0 <> [].
Proof.
  intros P R S0 Ro N A E St. split; [|split].
  - intros u Hu. destruct (Vertex_eqb u v) eqn:B.
    + apply Vertex_eqb_eq in B. subst u. now split.
    + apply Vertex_eqb_neq in B. rewrite (Ro u B) in *. now apply P.
  - intros u Hu. destruct (Vertex_eqb u v) eqn:B.
    + apply Vertex_eqb_eq in B. subst u. exact St.
    + apply Vertex_eqb_neq in B. rewrite (Ro u B) in *. now apply R.
  - destruct (Vertex_eqb s0 v) eqn:B.
    + apply Vertex_eqb_eq in B. subst v. exact N.
    + apply Vertex_eqb_neq in B. now rewrite (Ro s0 B).
Qed.

(** A visit along a stored edge, from a vertex that has a recorded path. *)
Lemma visit_step (K : Prop) g0 s0 g visited v from_vertex e :
  sound_state K g0 s0 visited g ->
  stored_edge g0 from_vertex v = Some e ->
  recorded visited from_vertex <> [] ->
  exists b visited' g',
    visit_vertex_neighbors v from_vertex visited g
    = (Return (b, visited'), g') /\
    sound_state K g0 s0 visited' g' /\
    visit_effect K g0 v from_vertex e visited b visited'.
Proof.
  intros (G & P & R & S0 & KC) Se Hf.
  destruct (P from_vertex Hf) as (Sf & qf & Ef).
  assert (Snew : all_pairs_stored g0 (recorded visited from_vertex ++ [v]) = true).
  { rewrite Ef. eapply all_pairs_stored_snoc; eauto. now rewrite <- Ef. }
  assert (Wnew : path_sum g0 (recorded visited from_vertex ++ [v])
                 = path_sum g0 (recorded visited from_vertex) + weight e).
  { rewrite Ef. now apply path_sum_snoc. }
  assert (Rnew : starts_at (recorded visited from_vertex ++ [v]) s0)
    by (apply starts_at_app, R, Hf).
  assert (Enew : ends_at (recorded visited from_vertex ++ [v]) v)
    by (now eexists).
  assert (Nnew : recorded visited from_vertex ++ [v] <> [])
    by (destruct (recorded visited from_vertex); discriminate).
  destruct (recorded visited v) as [|x pv] eqn:Ev.
  - destruct (@visit_unvisited g visited v from_vertex Ev)
      as (visited' & E & Rv & Ro).
    exists true, visited', g. split; [exact E|].
    assert (Hv : s0 <> v) by (intros ->; contradiction).
    destruct (@recorded_update_sound g0 s0 visited visited' v P R S0 Ro)
      as (P' & R' & S0'); try (rewrite Rv; assumption).
    split.
    + split; [exact G|]. split; [exact P'|]. split; [exact R'|].
      split; [exact S0'|]. intros k. destruct (KC k) as (C & W0).
      split; [exact C|]. now rewrite (Ro s0 Hv).
    + split; [exact Ro|]. split; [now rewrite Rv|].
      split; [intros _; exact Rv|]. split; [discriminate|].
      intros k. split.
      * intros u Hu. destruct (Vertex_eqb u v) eqn:B.
        -- apply Vertex_eqb_eq in B. subst u. contradiction.
        -- apply Vertex_eqb_neq in B. rewrite (Ro u B).
           split; [exact Hu | apply Qle_refl].
      * rewrite Rv, Wnew. apply Qle_refl.
  - assert (Hv : recorded visited v <> []) by (rewrite Ev; discriminate).
    pose proof (@dict_get_recorded_nonempty visited v Hv) as Gv.
    pose proof (@dict_get_recorded_nonempty visited from_vertex Hf) as Gf.
    rewrite Ev in Gv.
    rewrite (@visit_visited visited v from_vertex x pv _ g Gv Gf).
    destruct (P v Hv) as (Sv & Endv). pose proof (R v Hv) as Stv.
    rewrite Ev in Sv, Endv, Stv.
    destruct (@min_step K g0 g (x :: pv) (recorded visited from_vertex ++ [v])
                G (fun k => proj1 (KC k)) ltac:(discriminate) Nnew Sv Snew)
      as (r & g' & Em & G' & Hr & HK).
    rewrite (bind_Return _ _ _ Em). unfold ret.
    exists (path_eqb r (recorded visited from_vertex ++ [v])),
           (dict_set visited v r), g'.
    split; [reflexivity|].
    assert (Rv : recorded (dict_set visited v r) v = r)
      by apply recorded_set_same.
    assert (Ro : forall u, u <> v ->
                 recorded (dict_set visited v r) u = recorded visited u).
    { intros u Hu. apply recorded_set_other. congruence. }
    assert (Hgood : r <> [] /\ all_pairs_stored g0 r = true /\
                    ends_at r v /\ starts_at r s0).
    { destruct Hr as [-> | ->]; repeat apply conj; auto. discriminate. }
    destruct Hgood as (Nr & Sr & Er & Str).
    destruct (@recorded_update_sound g0 s0 visited (dict_set visited v r) v
                P R S0 Ro) as (P' & R' & S0'); try (rewrite Rv; assumption).
    split.
    + split; [exact G'|]. split; [exact P'|]. split; [exact R'|].
      split; [exact S0'|]. intros k. destruct (HK k) as (C' & W1 & W2).
      destruct (KC k) as (_ & W0).
      split; [exact C'|]. destruct (Vertex_eqb s0 v) eqn:B.
      * apply Vertex_eqb_eq in B. subst v. rewrite Rv.
        rewrite Ev in W0. exact (Qle_trans _ _ _ W1 W0).
      * apply Vertex_eqb_neq in B. now rewrite (Ro s0 B).
    + split; [exact Ro|]. split; [now rewrite Rv|].
      split; [|split].
      * intros B. apply path_eqb_eq in B. now rewrite Rv.
      * intros B. rewrite Rv. destruct Hr as [-> | ->]; [now rewrite Ev|].
        now rewrite path_eqb_refl in B.
      * intros k. destruct (HK k) as (C' & W1 & W2). split.
        -- intros u Hu. destruct (Vertex_eqb u v) eqn:B.
           ++ apply Vertex_eqb_eq in B. subst u. rewrite Rv.
              split; [exact Nr | now rewrite Ev].
           ++ apply Vertex_eqb_neq in B. rewrite (Ro u B).
              split; [exact Hu | apply Qle_refl].
        -- rewrite Rv, <- Wnew. exact W2.
Qed.

(* ===================================================================== *)
(** ** The relaxation invariant of the traversals *)
(* ===================================================================== *)

Lemma no_self_loops_reachable g : reachable g -> no_self_loops g.
Proof.
  induction 1 as [nm flag | g n1 n2 w _ IH | A m g _ IH R].
  - intros u v e H. discriminate.
  - destruct (String.eqb n1 n2) eqn:E.
    + unfold add_edge, edge_factory. rewrite E. exact IH.
    + apply String.eqb_neq in E.
      destruct (@stored_edge_add_edge g n1 n2 w E) as (g' & -> & _ & _ & _ & S).
      cbn [snd]. intros u v e H. rewrite S in H.
      destruct (Vertex_eqb (mkVertex n1) u && Vertex_eqb (mkVertex n2) v) eqn:B.
      * apply andb_prop in B. destruct B as [B1 B2].
        apply Vertex_eqb_eq in B1, B2. subst u v. congruence.
      * exact (IH u v e H).
  - intros u v e H. pose proof (@read_only_query A m R g) as G.
    rewrite (@grows_stored_edge g _ u v G) in H. exact (IH u v e H).
Qed.

Lemma adjacency_get_sound (K : Prop) g0 s0 visited g x :
  sound_state K g0 s0 visited g ->
  exists inner g1,
    adjacency_get x g = (Return inner, g1) /\
    sound_state K g0 s0 visited g1 /\
    ((dict_get (adjacency_list g0) x = None /\ inner = []) \/
     dict_get (adjacency_list g0) x = Some inner).
Proof.
  intros (G & P & R & S0 & KC).
  destruct (dict_get (adjacency_list g) x) as [inner|] eqn:E.
  - exists inner, g. rewrite (adjacency_get_present _ _ E).
    split; [reflexivity|]. split; [repeat (split; [assumption|]); exact KC|].
    destruct G as (_ & _ & ks & A). rewrite A in E.
    destruct (dict_get (adjacency_list g0) x) as [i0|] eqn:E0.
    + rewrite (dict_get_app_l _ _ _ E0) in E. right. congruence.
    + rewrite (dict_get_app_r _ _ _ E0) in E. left. split; [reflexivity|].
      eapply dict_get_empty_entries; eauto.
  - exists [], (with_entry g x). rewrite (adjacency_get_absent _ _ E).
    split; [reflexivity|]. split.
    + split; [eapply grows_trans; [exact G | apply grows_with_entry]|].
      repeat (split; [assumption|]). intros k. destruct (KC k) as (C & W).
      split; [|exact W].
      apply (@cache_coherent_grows g); [apply grows_with_entry | reflexivity | exact C].
    + left. split; [|reflexivity].
      destruct G as (_ & _ & ks & A). rewrite A in E.
      destruct (dict_get (adjacency_list g0) x) as [i0|] eqn:E0;
        [|reflexivity].
      rewrite (dict_get_app_l _ _ _ E0) in E. discriminate.
Qed.

Lemma met_relaxed g0 x visited inner :
  (dict_get (adjacency_list g0) x = None /\ inner = []) \/
  dict_get (adjacency_list g0) x = Some inner ->
  met g0 x visited inner -> relaxed g0 visited x.
Proof.
  intros H M v e S.
  destruct (@stored_edge_Some g0 x v e S) as (inner' & G & D).
  destruct H as [[H _] | H]; [congruence|].
  assert (inner' = inner) by congruence. subst inner'.
  apply dict_get_In in D.
  destruct (M v e D) as (e' & S' & N & W).
  assert (e' = e) by congruence. subst e'. now split.
Qed.

Lemma met_step (K : Prop) g0 x n e e' visited b visited' done :
  K -> x <> n ->
  stored_edge g0 x n = Some e' ->
  met g0 x visited done ->
  visit_effect K g0 n x e' visited b visited' ->
  met g0 x visited' (done ++ [(n, e)]).
Proof.
  intros k Hxn Se M (Ro & N & _ & _ & HK).
  destruct (HK k) as (L & W).
  assert (Rx : recorded visited' x = recorded visited x) by now apply Ro.
  intros m em Hin. apply in_app_or in Hin. destruct Hin as [Hin | Hin].
  - destruct (M m em Hin) as (e1 & S1 & N1 & W1).
    exists e1. split; [exact S1|]. destruct (L m N1) as (N' & W').
    split; [exact N'|]. rewrite Rx. eapply Qle_trans; eauto.
  - destruct Hin as [[= <- <-] | []].
    exists e'. split; [exact Se|]. split; [exact N|]. now rewrite Rx.
Qed.

Lemma item_edge g0 x inner n e :
  well_keyed g0 -> no_self_loops g0 ->
  dict_get (adjacency_list g0) x = Some inner -> In (n, e) inner ->
  vertex1 e = x /\ vertex2 e = n /\ x <> n /\
  exists e', stored_edge g0 x n = Some e'.
Proof.
  intros WK NL G Hin. pose proof (dict_get_In _ _ G) as Hx.
  destruct (WK _ _ _ _ Hx Hin) as (K1 & K2).
  destruct (In_dict_get _ _ _ Hin) as (e' & Ge').
  assert (S : stored_edge g0 x n = Some e')
    by (unfold stored_edge; now rewrite G).
  repeat split; auto. - exact (NL x n e' S). - now exists e'.
Qed.

Lemma deque_pop_None s : deque_pop s = None -> s = [].
Proof.
  induction s as [|e s IH]; [reflexivity|]. cbn [deque_pop].
  destruct s as [|e' s]; [discriminate|].
  destruct (deque_pop (e' :: s)) as [[x r]|]; [discriminate|].
  intros _. specialize (IH eq_refl). discriminate.
Qed.

Lemma In_deque_append_iff s e x : In x (deque_append s e) <-> x = e \/ In x s.
Proof.
  unfold deque_append. rewrite in_app_iff. cbn. intuition auto.
Qed.

Lemma In_deque_appendleft_iff s e x :
  In x (deque_appendleft s e) <-> x = e \/ In x s.
Proof. unfold deque_appendleft. cbn. intuition auto. Qed.

Section Relaxation.
Variable K : Prop.
Variable g0 : Graph.
Variable s0 : Vertex.
Hypothesis directed_g0 : truthy (directed g0) = true.
Hypothesis keyed_g0 : well_keyed g0.
Hypothesis loops_g0 : no_self_loops g0.

Section WorkListRelaxation.
Variable add : deque -> TypingEdge -> deque.
Hypothesis In_add : forall s e x, In x (add s e) <-> x = e \/ In x s.

Lemma expand_step x done n e e' st g :
  vertex1 e = x -> vertex2 e = n -> x <> n ->
  stored_edge g0 x n = Some e' ->
  expanding K g0 s0 x done st g ->
  ensures (relax_and_add add n e st g)
          (expanding K g0 s0 x (done ++ [(n, e)])).
Proof.
  intros K1 K2 Hxn Se (Snd & T & Hx & HK).
  destruct st as [s visited]. cbn [fst snd] in *.
  destruct (@visit_step K g0 s0 g visited n x e' Snd Se Hx)
    as (b & visited' & g' & E & Snd' & Eff).
  unfold relax_and_add. rewrite K1, K2.
  rewrite (bind_Return _ _ _ E). unfold ret, ensures, expanding.
  cbn [fst snd].
  pose proof Eff as (Ro & N & Bt & Bf & EK).
  assert (KV : keeps_visited visited visited').
  { intros u Hu. destruct (Vertex_eqb u n) eqn:B.
    - apply Vertex_eqb_eq in B. now subst u.
    - apply Vertex_eqb_neq in B. now rewrite (Ro u B). }
  split; [exact Snd'|]. split; [|split].
  - intros e0 Hin. destruct b; [|apply KV, T, Hin].
    apply In_add in Hin. destruct Hin as [-> | Hin];
      [now rewrite K2 | apply KV, T, Hin].
  - now rewrite (Ro x Hxn).
  - intros k. destruct (HK k) as (C & M). destruct (EK k) as (L & W).
    split; [|exact (@met_step K g0 x n e e' visited b visited' done
                               k Hxn Se M Eff)].
    intros u Hu.
    assert (Hsame : recorded visited' u = recorded visited u ->
                    relaxed g0 visited' u \/
                    (pending (if b then add s e else s) u \/ u = x)).
    { intros Eu. rewrite Eu in Hu.
      destruct (C u Hu) as [Rel | [(e1 & I1 & V1) | ->]].
      - left. exact (@relaxed_lightens g0 visited visited' u L Eu Rel).
      - right. left. exists e1. split; [|exact V1].
        destruct b; [apply In_add; now right | exact I1].
      - right. now right. }
    destruct (Vertex_eqb u n) eqn:B.
    + apply Vertex_eqb_eq in B. subst u. destruct b.
      * right. left. exists e. split; [apply In_add; now left | exact K2].
      * apply Hsame, Bf. reflexivity.
    + apply Vertex_eqb_neq in B. apply Hsame, Ro, B.
Qed.

Lemma expand_ensures x s visited g :
  sound_state K g0 s0 visited g -> targets_visited visited s ->
  recorded visited x <> [] ->
  (K -> covered g0 visited (fun u => pending s u \/ u = x)) ->
  ensures (for_neighbors (relax_and_add add) x (s, visited) g)
          (work_list_state K g0 s0).
Proof.
  intros Snd T Hx HK.
  destruct (@adjacency_get_sound K g0 s0 visited g x Snd)
    as (inner & g1 & E & Snd1 & Hinner).
  apply (@ensures_mono _ _ (expanding K g0 s0 x inner)).
  - apply (@for_neighbors_ensures _ (relax_and_add add)
             (expanding K g0 s0 x) x (s, visited) g inner g1 E).
    + intros st' g' ((G & _) & _).
      exact (@grows_directed g0 directed_g0 g' G).
    + intros done n e rest st' g' Hall Hexp.
      destruct Hinner as [[_ ->] | Hg]; [destruct done; discriminate|].
      assert (Hin : In (n, e) inner)
        by (rewrite Hall; apply in_or_app; right; now left).
      destruct (@item_edge g0 x inner n e keyed_g0 loops_g0 Hg Hin)
        as (K1 & K2 & Hxn & e' & Se).
      exact (@expand_step x done n e e' st' g' K1 K2 Hxn Se Hexp).
    + unfold expanding. cbn [fst snd].
      split; [exact Snd1|]. split; [exact T|]. split; [exact Hx|].
      intros k. split; [exact (HK k) | intros n e []].
  - intros [s' visited'] g' (Snd' & T' & Hx' & HK'). cbn [fst snd] in *.
    split; [exact Snd'|]. split; [exact T'|]. cbn [fst snd].
    intros k. destruct (HK' k) as (C & M).
    pose proof (@met_relaxed g0 x visited' inner Hinner M) as Rx.
    intros u Hu. destruct (C u Hu) as [Rel | [Pend | ->]]; auto.
Qed.

Lemma pop_state st g e s' :
  work_list_state K g0 s0 st g ->
  deque_pop (fst st) = Some (e, s') ->
  targets_visited (snd st) s' /\
  recorded (snd st) (vertex2 e) <> [] /\
  (K -> covered g0 (snd st) (fun u => pending s' u \/ u = vertex2 e)).
Proof.
  intros (Snd & T & HK) Ep. apply deque_pop_snoc in Ep.
  split; [|split].
  - intros e0 Hin. apply T. rewrite Ep. apply in_or_app. now left.
  - apply T. rewrite Ep. apply in_or_app. right. now left.
  - intros k u Hu. destruct (HK k u Hu) as [Rel | (e1 & I1 & V1)];
      [now left | right].
    rewrite Ep in I1. apply in_app_or in I1. destruct I1 as [I1 | [<- | []]].
    + left. now exists e1.
    + now right.
Qed.

Lemma work_list_finished st g :
  work_list_state K g0 s0 st g -> deque_pop (fst st) = None ->
  finished K g0 s0 (snd st) g.
Proof.
  intros (Snd & T & HK) Ep. apply deque_pop_None in Ep.
  split; [exact Snd|]. intros k u Hu.
  destruct (HK k u Hu) as [Rel | (e1 & I1 & _)]; [now left|].
  rewrite Ep in I1. destruct I1.
Qed.
End WorkListRelaxation.

Lemma dfs_loop_ensures fuel : forall st g,
  work_list_state K g0 s0 st g ->
  ensures (dfs_loop fuel st g) (finished K g0 s0).
Proof.
  induction fuel as [|fuel IH]; intros st g W; [exact I|].
  cbn [dfs_loop].
  destruct (deque_pop (fst st)) as [[e s']|] eqn:Ep.
  - destruct (@pop_state st g e s' W Ep) as (T & Hx & HK).
    apply (@ensures_bind _ _ _ _ _ (work_list_state K g0 s0)).
    + exact (@expand_ensures deque_append In_deque_append_iff
               (vertex2 e) s' (snd st) g (proj1 W) T Hx HK).
    + intros st' g' W'. apply IH, W'.
  - exact (@work_list_finished st g W Ep).
Qed.

Lemma bfs_loop_ensures fuel : forall st g,
  work_list_state K g0 s0 st g ->
  ensures (bfs_loop fuel st g) (finished K g0 s0).
Proof.
  induction fuel as [|fuel IH]; intros st g W; [exact I|].
  cbn [bfs_loop].
  destruct (deque_pop (fst st)) as [[e s']|] eqn:Ep.
  - destruct (@pop_state st g e s' W Ep) as (T & Hx & HK).
    apply (@ensures_bind _ _ _ _ _ (work_list_state K g0 s0)).
    + exact (@expand_ensures deque_appendleft In_deque_appendleft_iff
               (vertex2 e) s' (snd st) g (proj1 W) T Hx HK).
    + intros st' g' W'. apply IH, W'.
  - exact (@work_list_finished st g W Ep).
Qed.

Lemma dfs_non_recursive_ensures fuel x visited g :
  sound_state K g0 s0 visited g -> recorded visited x <> [] ->
  (K -> covered g0 visited (fun u => u = x)) ->
  ensures (dfs_non_recursive fuel x visited g) (finished K g0 s0).
Proof.
  intros Snd Hx HK. unfold dfs_non_recursive.
  apply (@ensures_bind _ _ _ _ _ (work_list_state K g0 s0)).
  - apply (@expand_ensures deque_append In_deque_append_iff x [] visited g
             Snd (fun e0 (H : In e0 []) => match H with end) Hx).
    intros k u Hu. destruct (HK k u Hu); auto.
  - intros st' g' W'. apply dfs_loop_ensures, W'.
Qed.

Lemma bfs_ensures fuel x visited g :
  sound_state K g0 s0 visited g -> recorded visited x <> [] ->
  (K -> covered g0 visited (fun u => u = x)) ->
  ensures (bfs fuel x visited g) (finished K g0 s0).
Proof.
  intros Snd Hx HK. unfold bfs.
  apply (@ensures_bind _ _ _ _ _ (work_list_state K g0 s0)).
  - apply (@expand_ensures deque_appendleft In_deque_appendleft_iff
             x [] visited g
             Snd (fun e0 (H : In e0 []) => match H with end) Hx).
    intros k u Hu. destruct (HK k u Hu); auto.
  - intros st' g' W'. apply bfs_loop_ensures, W'.
Qed.

Lemma met_lightens g x visited visited' done :
  lightens g visited visited' ->
  recorded visited' x = recorded visited x ->
  met g x visited done -> met g x visited' done.
Proof.
  intros L Ex M m em Hin. destruct (M m em Hin) as (e1 & S1 & N1 & W1).
  exists e1. split; [exact S1|]. destruct (L m N1) as (N' & W').
  split; [exact N'|]. rewrite Ex. eapply Qle_trans; eauto.
Qed.

Lemma met_of_relaxed g x n e e' visited visited' done :
  stored_edge g x n = Some e' ->
  met g x visited done ->
  relaxed g visited' x ->
  met g x visited' (done ++ [(n, e)]).
Proof.
  intros Se M Rel m em Hin. apply in_app_or in Hin.
  destruct Hin as [Hin | [[= <- <-] | []]].
  - destruct (M m em Hin) as (e1 & S1 & _). exists e1.
    split; [exact S1 | exact (Rel m e1 S1)].
  - exists e'. split; [exact Se | exact (Rel n e' Se)].
Qed.

(** The recursive traversal: when the call for [x] returns, [x] is relaxed,
    and so is every other vertex, except for the vertices whose calls are
    still running and whose recorded path the call did not change. *)
Lemma dfs_ensures fuel : forall active x visited g,
  sound_state K g0 s0 visited g -> recorded visited x <> [] ->
  (K -> covered g0 visited (fun u => active u \/ u = x)) ->
  ensures (dfs fuel x visited g) (descended K g0 s0 active x visited).
Proof.
  induction fuel as [|fuel IH]; intros active x visited0 g Snd Hx HK;
    [exact I|].
  rewrite dfs_S.
  destruct (@adjacency_get_sound K g0 s0 visited0 g x Snd)
    as (inner & g1 & E & Snd1 & Hinner).
  apply (@ensures_mono _ _ (descending K g0 s0 active x visited0 inner)).
  - apply (@for_neighbors_ensures _ (relax_and_recurse (dfs fuel))
             (descending K g0 s0 active x visited0) x visited0 g inner g1 E).
    + intros v' g' ((G & _) & _).
      exact (@grows_directed g0 directed_g0 g' G).
    + intros done n e rest visited1 g2 Hall (Snd2 & KV & HK2).
      destruct Hinner as [[_ ->] | Hg]; [destruct done; discriminate|].
      assert (Hin : In (n, e) inner)
        by (rewrite Hall; apply in_or_app; right; now left).
      destruct (@item_edge g0 x inner n e keyed_g0 loops_g0 Hg Hin)
        as (K1 & K2 & Hxn & e' & Se).
      assert (Hx1 : recorded visited1 x <> []) by (apply KV, Hx).
      destruct (@visit_step K g0 s0 g2 visited1 n x e' Snd2 Se Hx1)
        as (b & visited2 & g3 & Ev & Snd3 & Eff).
      unfold relax_and_recurse. rewrite K1, K2, (bind_Return _ _ _ Ev).
      cbv beta iota.
      pose proof Eff as (Ro & N & Bt & Bf & EK).
      assert (KV12 : keeps_visited visited1 visited2).
      { intros u Hu. destruct (Vertex_eqb u n) eqn:B.
        - apply Vertex_eqb_eq in B. now subst u.
        - apply Vertex_eqb_neq in B. now rewrite (Ro u B). }
      destruct b.
      * apply (@ensures_mono _ _
                 (descended K g0 s0 (fun u => active u \/ u = x) n visited2)).
        -- apply IH; [exact Snd3 | exact N |].
           intros k u Hu. destruct (HK2 k) as (L01 & C & M).
           destruct (EK k) as (L12 & W).
           destruct (Vertex_eqb u n) eqn:B;
             [apply Vertex_eqb_eq in B; right; now right|].
           apply Vertex_eqb_neq in B. pose proof (Ro u B) as Eu.
           rewrite Eu in Hu.
           destruct (C u Hu) as [Rel | [(Au & _) | ->]].
           ++ left. exact (@relaxed_lightens g0 visited1 visited2 u L12 Eu Rel).
           ++ right. left. now left.
           ++ right. left. now right.
        -- intros visited3 g4 (Snd4 & KV23 & HK3).
           split; [exact Snd4|].
           split; [eapply keeps_visited_trans;
                   [exact KV | eapply keeps_visited_trans; eauto]|].
           intros k. destruct (HK2 k) as (L01 & C & M).
           destruct (EK k) as (L12 & W).
           destruct (HK3 k) as (L23 & Reln & C3).
           assert (L13 : lightens g0 visited1 visited3)
             by (eapply lightens_trans; eauto).
           split; [eapply lightens_trans; eauto|]. split.
           ++ intros u Hu.
              destruct (C3 u Hu) as [Rel | ([Au | ->] & Eu32)];
                [now left | | right; now right].
              destruct (Vertex_eqb u n) eqn:B.
              ** apply Vertex_eqb_eq in B. subst u. now left.
              ** apply Vertex_eqb_neq in B.
                 assert (Eu31 : recorded visited3 u = recorded visited1 u)
                   by (rewrite Eu32; apply Ro, B).
                 rewrite Eu31 in Hu.
                 destruct (C u Hu) as [Rel | [(_ & Eu10) | ->]].
                 --- left.
                     exact (@relaxed_lightens g0 visited1 visited3 u L13 Eu31 Rel).
                 --- right. left. split; [exact Au | congruence].
                 --- right. now right.
           ++ assert (Hx3 : recorded visited3 x <> [])
                by (apply KV23, KV12, Hx1).
              destruct (C3 x Hx3) as [Relx | (_ & Ex32)].
              ** exact (@met_of_relaxed g0 x n e e' visited1 visited3 done
                          Se M Relx).
              ** apply (@met_lightens g0 x visited2 visited3 _ L23 Ex32).
                 exact (@met_step K g0 x n e e' visited1 true visited2 done
                          k Hxn Se M Eff).
      * unfold ret, ensures.
        split; [exact Snd3|].
        split; [eapply keeps_visited_trans; eauto|].
        intros k. destruct (HK2 k) as (L01 & C & M).
        destruct (EK k) as (L12 & W).
        split; [eapply lightens_trans; eauto|]. split.
        -- intros u Hu.
           assert (Eu : recorded visited2 u = recorded visited1 u).
           { destruct (Vertex_eqb u n) eqn:B.
             - apply Vertex_eqb_eq in B. subst u. now apply Bf.
             - apply Vertex_eqb_neq in B. apply Ro, B. }
           rewrite Eu in Hu.
           destruct (C u Hu) as [Rel | [(Au & Eu10) | ->]].
           ++ left. exact (@relaxed_lightens g0 visited1 visited2 u L12 Eu Rel).
           ++ right. left. split; [exact Au | congruence].
           ++ right. now right.
        -- exact (@met_step K g0 x n e e' visited1 false visited2 done
                    k Hxn Se M Eff).
    + split; [exact Snd1|]. split; [apply keeps_visited_refl|].
      intros k. split; [apply lightens_refl|]. split; [|intros n e []].
      intros u Hu. destruct (HK k u Hu) as [Rel | [Au | ->]]; auto.
  - intros visited' g' (Snd' & KV & HK').
    split; [exact Snd'|]. split; [exact KV|].
    intros k. destruct (HK' k) as (L & C & M).
    pose proof (@met_relaxed g0 x visited' inner Hinner M) as Rx.
    split; [exact L|]. split; [exact Rx|].
    intros u Hu. destruct (C u Hu) as [Rel | [Au | ->]]; auto.
Qed.

Lemma recorded_start_only (v u : Vertex) : recorded [(v, [v])] u <> [] -> u = v.
Proof.
  unfold recorded. cbn [dict_get].
  destruct (Vertex_eqb v u) eqn:B; [|contradiction].
  apply Vertex_eqb_eq in B. auto.
Qed.

Lemma recorded_start_eq (v : Vertex) : recorded [(v, [v])] v = [v].
Proof. unfold recorded. cbn [dict_get]. now rewrite Vertex_eqb_refl. Qed.

Lemma start_state :
  (K -> cache_coherent g0) -> sound_state K g0 s0 [(s0, [s0])] g0.
Proof.
  intros KC. split; [apply grows_refl|].
  split; [apply paths_stored_start|]. split; [|split].
  - intros u Hu. apply recorded_start_only in Hu. subst u.
    rewrite recorded_start_eq. now exists [].
  - apply recorded_start.
  - intros k. split; [exact (KC k)|].
    rewrite recorded_start_eq. apply Qle_refl.
Qed.

(** Each traversal of [g0] from [s0] ends, if it ends, in a state where no
    stored edge improves a recorded path. *)
Lemma traverse_ensures how fuel :
  (K -> cache_coherent g0) ->
  ensures (traverse how fuel s0 g0) (finished K g0 s0).
Proof.
  intros KC. pose proof (start_state KC) as Snd.
  pose proof (recorded_start s0) as Hx.
  assert (C : K -> covered g0 [(s0, [s0])] (fun u => u = s0)).
  { intros _ u Hu. right. now apply recorded_start_only. }
  destruct how; cbn [traverse]; unfold dfs_traversal, bfs_traversal;
    rewrite (bind_Return _ _ _ (visit_start s0 g0)); cbv beta iota.
  - apply (@ensures_mono _ _
             (descended K g0 s0 (fun _ => False) s0 [(s0, [s0])])).
    + apply dfs_ensures; [exact Snd | exact Hx |].
      intros k u Hu. destruct (C k u Hu) as [Rel | ->]; auto.
    + intros visited g' (Snd' & _ & HK). split; [exact Snd'|].
      intros k u Hu. destruct (HK k) as (_ & _ & C').
      destruct (C' u Hu) as [Rel | ([] & _)]. now left.
  - now apply dfs_non_recursive_ensures.
  - now apply bfs_ensures.
Qed.
End Relaxation.

(* ===================================================================== *)
(** ** Lightest paths *)
(* ===================================================================== *)

Lemma all_pairs_stored_snoc_inv g q u v :
  all_pairs_stored g ((q ++ [u]) ++ [v]) = true ->
  all_pairs_stored g (q ++ [u]) = true /\
  exists e, stored_edge g u v = Some e.
Proof.
  induction q as [|x q IH].
  - cbn. destruct (stored_edge g u v) as [e|]; [|discriminate].
    intros _. split; [reflexivity | now exists e].
  - destruct q as [|y q].
    + cbn in *. destruct (stored_edge g x u); [|discriminate]. exact IH.
    + cbn [app] in *. rewrite !all_pairs_stored_cons.
      destruct (stored_edge g x y); [|discriminate]. exact IH.
Qed.

Lemma path_sum_single g v : path_sum g [v] = 0.
Proof. reflexivity. Qed.

(** In a state where no stored edge improves a recorded path, every vertex
    that a sequence of stored edges connects to the start has a recorded
    path, and that path is no heavier than the sequence. *)
Lemma finished_lightest (K : Prop) g0 s0 visited g :
  finished K g0 s0 visited g ->
  (forall v, recorded visited v <> [] ->
             stored_path g0 s0 v (recorded visited v)) /\
  (K -> forall v p, stored_path g0 s0 v p ->
                    recorded visited v <> [] /\
                    path_sum g0 (recorded visited v) <= path_sum g0 p).
Proof.
  intros ((G & P & R & S0 & KC) & HK). split.
  - intros v Hv. destruct (P v Hv) as (A & E).
    split; [exact A|]. split; [exact (R v Hv) | exact E].
  - intros k. destruct (KC k) as (_ & W0). pose proof (HK k) as C.
    assert (Rel : forall u, recorded visited u <> [] -> relaxed g0 visited u).
    { intros u Hu. destruct (C u Hu) as [H | []]. exact H. }
    intros v p. revert v.
    induction p as [|v' q IH] using rev_ind;
      intros v (A & (r & St) & (q' & En)); [discriminate|].
    apply app_inj_tail in En. destruct En as (<- & ->).
    destruct q as [|a q1].
    + cbn in St. injection St as -> _.
      split; [exact S0 | cbn [app]; now rewrite path_sum_single].
    + assert (a = s0) by (cbn in St; congruence). subst a.
      destruct (@exists_last _ (s0 :: q1) ltac:(discriminate))
        as (q2 & u & Eq).
      rewrite Eq in A, IH |- *.
      destruct (@all_pairs_stored_snoc_inv g0 q2 u v A) as (A' & e & Se).
      destruct (IH u) as (Nu & Wu).
      { split; [exact A'|]. split; [|now exists q2].
        exists q1. now rewrite <- Eq. }
      destruct (Rel u Nu v e Se) as (Nv & Wv).
      split; [exact Nv|].
      rewrite (@path_sum_snoc g0 q2 u v e Se).
      eapply Qle_trans; [exact Wv|].
      apply Qplus_le_compat; [exact Wu | apply Qle_refl].
Qed.

Lemma traverse_finished (K : Prop) g s how fuel :
  reachable g -> truthy (directed g) = true -> (K -> cache_coherent g) ->
  ensures (traverse how fuel s g) (finished K g s).
Proof.
  intros Hr Hd KC.
  exact (@traverse_ensures K g s Hd (@well_keyed_reachable g Hr)
           (@no_self_loops_reachable g Hr) how fuel KC).
Qed.

Lemma read_only_traverse how fuel s : read_only (traverse how fuel s).
Proof. destruct how; constructor. Qed.

(** X6.  On a directed graph built through the public methods, a traversal
    raises none of [KeyError], [IndexError], [RuntimeError] and
    [NotImplementedError], from any starting vertex, with or without
    cycles, whatever the weights and whatever the memo table holds: each
    run either returns or is not finished when its fuel is used up.  For
    the two work-list traversals the fuel counts the turns of the [while]
    loop, and a run that is not finished is a loop that goes on.  For the
    recursive traversal the fuel is the depth of the recursion: a run that
    is not finished is a recursion deeper than the fuel, which in Python,
    where the depth is limited, ends with [RecursionError]; nothing is
    claimed to be returned then.  When a traversal returns, the graph has
    only gained empty adjacency entries, the starting vertex has a recorded
    path, and every recorded path is a sequence of stored edges that leads
    from the starting vertex to the vertex it is recorded for. *)
Theorem directed_traversals_return_or_run_on
        (g : Graph) (s : Vertex) (how : strategy) (fuel : nat) :
  reachable g -> truthy (directed g) = true ->
  ((exists visited g', traverse how fuel s g = (Return visited, g')) \/
   fst (traverse how fuel s g) = OutOfFuel) /\
  (forall visited g',
      traverse how fuel s g = (Return visited, g') ->
      grows g g' /\ recorded visited s <> [] /\
      forall v, recorded visited v <> [] ->
                stored_path g s v (recorded visited v)).
Proof.
  intros Hr Hd.
  pose proof (@traverse_finished False g s how fuel Hr Hd
                (fun f => match f with end)) as H.
  split.
  - destruct (traverse how fuel s g) as [[visited | e |] g'] eqn:E.
    + left. now exists visited, g'.
    + destruct H.
    + now right.
  - intros visited g' E. pose proof (@ensures_inv _ _ _ _ _ H E) as F.
    destruct (@finished_lightest False g s visited g' F) as (L & _).
    destruct F as ((G & _ & _ & S0 & _) & _). auto.
Qed.

Lemma directed_traversals_return_or_run_on_witness :
  ((exists visited g',
       traverse DfsNonRecursive 3 vtx_a negative_cycle = (Return visited, g')) \/
   fst (traverse DfsNonRecursive 3 vtx_a negative_cycle) = OutOfFuel) /\
  (forall visited g',
      traverse DfsNonRecursive 3 vtx_a negative_cycle = (Return visited, g') ->
      grows negative_cycle g' /\ recorded visited vtx_a <> [] /\
      forall v, recorded visited v <> [] ->
                stored_path negative_cycle vtx_a v (recorded visited v)).
Proof.
  apply directed_traversals_return_or_run_on;
    [apply reachable_build | reflexivity].
Defined.


Lemma stored_path_grows g g' s v p :
  grows g g' -> (stored_path g' s v p <-> stored_path g s v p).
Proof.
  intros G. unfold stored_path.
  now rewrite (@grows_all_pairs_stored g g' p G).
Qed.

Lemma lightest_paths_after (g g1 : Graph) s how fuel visited g2 :
  reachable g -> truthy (directed g) = true -> cache_coherent g ->
  grows g g1 -> cache_coherent g1 -> reachable g1 ->
  traverse how fuel s g1 = (Return visited, g2) ->
  lightest_paths g s visited.
Proof.
  intros Hr Hd C G C1 Hr1 E.
  assert (Hd1 : truthy (directed g1) = true)
    by exact (@grows_directed g Hd g1 G).
  pose proof (@traverse_finished True g1 s how fuel Hr1 Hd1 (fun _ => C1)) as H.
  pose proof (@ensures_inv _ _ _ _ _ H E) as F.
  destruct (@finished_lightest True g1 s visited g2 F) as (L1 & L2).
  split.
  - intros v Hv. apply (@stored_path_grows g g1 s v _ G). now apply L1.
  - intros v p Hp. apply (@stored_path_grows g g1 s v p G) in Hp.
    destruct (L2 I v p Hp) as (N & W). split; [exact N|].
    now rewrite !(@grows_path_sum g g1 _ G) in W.
Qed.


Lemma shortest_path_traverse fuel n1 n2 how g :
  shortest_path fuel n1 n2 (search_name how) g
  = path_to (mkVertex n2) (traverse how fuel (mkVertex n1) g).
Proof.
  destruct how; unfold shortest_path;
    cbn [search_name traverse String.eqb Ascii.eqb Bool.eqb]; cbv iota;
    apply bind_path_to.
Qed.

Lemma traverse_returns g rank s how fuel :
  reachable g -> truthy (directed g) = true -> ranked g rank ->
  (rank s < fuel)%nat -> (S (max_degree g) ^ rank s <= fuel)%nat ->
  exists visited g', traverse how fuel s g = (Return visited, g').
Proof.
  intros Hr Hd Hrk F1 F2. pose proof (well_keyed_reachable Hr) as Hk.
  pose proof (grows_refl g) as G. pose proof (paths_stored_start g s) as P.
  pose proof (recorded_start s) as R.
  destruct how; cbn [traverse]; unfold dfs_traversal, bfs_traversal;
    rewrite (bind_Return _ _ _ (visit_start s g)); cbv beta iota.
  - destruct (dfs_returns Hd Hk Hrk s G P R F1) as (vis & g' & E & _).
    eauto.
  - destruct (dfs_non_recursive_returns Hd Hk Hrk s G P R F2)
      as (vis & g' & E & _).
    eauto.
  - destruct (bfs_returns Hd Hk Hrk s G P R F2) as (vis & g' & E & _).
    eauto.
Qed.

(** A sequence of stored edges of a graph without cycles has at most one
    vertex more than the rank of its first vertex. *)
Lemma ranked_path_length g rank :
  ranked g rank ->
  forall p u q, all_pairs_stored g p = true -> p = u :: q ->
                (List.length p <= Datatypes.S (rank u))%nat.
Proof.
  intros R. induction p as [|x p IH]; intros u q A E; [discriminate|].
  injection E as -> ->. destruct q as [|v q']; [cbn; lia|].
  change (all_pairs_stored g (u :: v :: q'))
    with (match stored_edge g u v with
          | Some _ => all_pairs_stored g (v :: q')
          | None => false
          end) in A.
  destruct (stored_edge g u v) as [e|] eqn:S; [|discriminate].
  destruct (@stored_edge_Some g u v e S) as (inner & G & D).
  apply dict_get_In in G, D.
  pose proof (R u inner v e G D) as L.
  specialize (IH v q' A eq_refl). cbn [List.length] in *. lia.
Qed.

Lemma highest_rank_bound g rank u inner :
  dict_get (adjacency_list g) u = Some inner ->
  (rank u <= highest_rank g rank)%nat.
Proof.
  intros H. apply dict_get_In in H. unfold highest_rank.
  assert (Hin : In (rank u) (map (fun kd => rank (fst kd)) (adjacency_list g))).
  { change (rank u)
      with ((fun kd : Vertex * dict TypingEdge => rank (fst kd)) (u, inner)).
    now apply in_map. }
  revert Hin. generalize (map (fun kd => rank (fst kd)) (adjacency_list g)).
  intros l. unfold list_max. induction l as [|a l IH]; cbn; [tauto|].
  intros [-> | H']; [lia | specialize (IH H'); lia].
Qed.

(** In a graph without cycles no sequence of stored edges has more vertices
    than the highest rank and one. *)
Lemma ranked_length g rank p :
  ranked g rank -> all_pairs_stored g p = true ->
  (List.length p <= Datatypes.S (highest_rank g rank))%nat.
Proof.
  intros R A. destruct p as [|u [|v q]]; [cbn; lia | cbn; lia |].
  pose proof (@ranked_path_length g rank R _ u (v :: q) A eq_refl) as L.
  change (all_pairs_stored g (u :: v :: q))
    with (match stored_edge g u v with
          | Some _ => all_pairs_stored g (v :: q)
          | None => false
          end) in A.
  destruct (stored_edge g u v) as [e|] eqn:S; [|discriminate].
  destruct (@stored_edge_Some g u v e S) as (inner & G & _).
  pose proof (@highest_rank_bound g rank u inner G). lia.
Qed.

(** On such a graph with weights in the range, a memo table without stale
    entries holds the numbers that the additions of the source give in
    binary64. *)
Lemma memo_exact_ranked g rank k b g' :
  ranked g rank ->
  exact_sums k b (Datatypes.S (highest_rank g rank)) g = true ->
  grows g g' -> cache_coherent g' ->
  forall p w, cache_get (cache g') p = Some w ->
              w = path_sum g p /\ binary64_total k g p = binary64_of k w.
Proof.
  intros R X G C p w Hp. destruct (C p w Hp) as (_ & A & ->).
  rewrite (@grows_all_pairs_stored g g' p G) in A.
  rewrite (@grows_path_sum g g' p G). split; [reflexivity|].
  exact (proj2 (@path_sum_exact k b _ g p X (@ranked_length g rank p R A))).
Qed.

(** X9.  On a directed graph without cycles, built through the public
    methods, with no stale entry in its memo table and with weights that
    are multiples of [2^-k] small enough for the sum of every sequence of
    stored edges to be a binary64 number ([exact_sums], for one vertex more
    than the highest rank), [shortest_path] returns for each of its three
    search names once the fuel covers the rank of the first vertex (for the
    recursive search the fuel is the depth of the recursion).  What it
    returns is the empty tuple exactly when no sequence of stored edges
    leads from the first vertex to the second, and otherwise such a
    sequence of the least total weight.  Every number of the memo table
    afterwards, so every sum that the search has formed, is the one that
    the additions of the source give in binary64, without rounding. *)
Theorem shortest_path_returns_lightest_path
        (g : Graph) (rank : Vertex -> nat) (n1 n2 : string)
        (how : strategy) (fuel : nat) (k : nat) (b : Z) :
  reachable g -> truthy (directed g) = true -> cache_coherent g ->
  ranked g rank ->
  exact_sums k b (Datatypes.S (highest_rank g rank)) g = true ->
  (rank (mkVertex n1) < fuel)%nat ->
  (Datatypes.S (max_degree g) ^ rank (mkVertex n1) <= fuel)%nat ->
  exists p g',
    shortest_path fuel n1 n2 (search_name how) g
    = (Return (PathResult p), g') /\
    grows g g' /\ cache_coherent g' /\
    (p = [] <-> forall q, ~ stored_path g (mkVertex n1) (mkVertex n2) q) /\
    (p <> [] ->
     stored_path g (mkVertex n1) (mkVertex n2) p /\
     forall q, stored_path g (mkVertex n1) (mkVertex n2) q ->
               path_sum g p <= path_sum g q) /\
    (forall q w, cache_get (cache g') q = Some w ->
                 w = path_sum g q /\
                 binary64_total k g q = binary64_of k w).
Proof.
  intros Hr Hd C Hrk X F1 F2.
  destruct (@traverse_returns g rank (mkVertex n1) how fuel Hr Hd Hrk F1 F2)
    as (visited & g' & E).
  pose proof (@traverse_finished True g (mkVertex n1) how fuel Hr Hd
                (fun _ => C)) as H.
  pose proof (@ensures_inv _ _ _ _ _ H E) as F.
  destruct (@finished_lightest True g (mkVertex n1) visited g' F)
    as (L1 & L2).
  destruct F as ((G & _ & _ & _ & KC) & _).
  exists (recorded visited (mkVertex n2)), g'.
  rewrite shortest_path_traverse, E. cbn [path_to].
  split; [reflexivity|]. split; [exact G|].
  split; [exact (proj1 (KC I))|]. split; [split|split].
  - intros Hp q Hq. destruct (L2 I _ q Hq) as (N & _). contradiction.
  - intros Hn.
    destruct (recorded visited (mkVertex n2)) as [|x p] eqn:Ep;
      [reflexivity|].
    exfalso. apply (Hn (x :: p)). rewrite <- Ep. apply L1.
    rewrite Ep. discriminate.
  - intros N. split; [exact (L1 _ N)|].
    intros q Hq. exact (proj2 (L2 I _ q Hq)).
  - exact (@memo_exact_ranked g rank k b g' Hrk X G (proj1 (KC I))).
Qed.

Lemma shortest_path_returns_lightest_path_witness :
  exists p g',
    shortest_path 64 "a" "d" (search_name Bfs) complete_diamond
    = (Return (PathResult p), g') /\
    grows complete_diamond g' /\ cache_coherent g' /\
    (p = [] <-> forall q, ~ stored_path complete_diamond vtx_a vtx_d q) /\
    (p <> [] ->
     stored_path complete_diamond vtx_a vtx_d p /\
     forall q, stored_path complete_diamond vtx_a vtx_d q ->
               path_sum complete_diamond p <= path_sum complete_diamond q) /\
    (forall q w, cache_get (cache g') q = Some w ->
                 w = path_sum complete_diamond q /\
                 binary64_total 1 complete_diamond q = binary64_of 1 w).
Proof.
  apply (@shortest_path_returns_lightest_path
           complete_diamond diamond_rank "a" "d" Bfs 64 1%nat 4%Z).
  - apply reachable_build.
  - reflexivity.
  - apply cache_coherent_empty. reflexivity.
  - apply ranked_complete_diamond.
  - reflexivity.
  - vm_compute. lia.
  - vm_compute. lia.
Defined.

(* ===================================================================== *)
(** ** The contract of the relaxation step *)
(* ===================================================================== *)

(** X10.  On a graph whose memo table holds no stale entry, a visit of [v]
    from [from_vertex] along a stored edge, with a visited map whose paths
    are sequences of stored edges and which has a path for [from_vertex],
    returns and changes at most the path recorded for [v].  Afterwards that
    path is no heavier than the path of [from_vertex] extended by the edge,
    and no heavier than the path recorded before; the result is [True]
    exactly when the path now recorded is the extended path.  The edges of
    the graph are left as they were.  This is stated for weights that are
    multiples of [2^-k] small enough for the sums of the two paths that the
    visit weighs to be binary64 numbers ([exact_sums]): the path recorded
    afterwards is then the one that the test of the source picks on the two
    sums formed in binary64. *)
Theorem visit_vertex_neighbors_relaxes
        (g : Graph) (visited : TypingVisited) (v from_vertex : Vertex)
        (e : TypingEdge) (k : nat) (b : Z) :
  cache_coherent g -> paths_stored g visited ->
  stored_edge g from_vertex v = Some e ->
  recorded visited from_vertex <> [] ->
  exact_sums k b (Nat.max (List.length (recorded visited v))
                          (Datatypes.S (List.length (recorded visited from_vertex))))
             g = true ->
  exists r visited' g',
    visit_vertex_neighbors v from_vertex visited g
    = (Return (r, visited'), g') /\
    same_edges g g' /\ cache_coherent g' /\ paths_stored g visited' /\
    (forall u, u <> v -> recorded visited' u = recorded visited u) /\
    (r = true <->
     recorded visited' v = recorded visited from_vertex ++ [v]) /\
    (r = false -> recorded visited' v = recorded visited v) /\
    path_sum g (recorded visited' v)
    <= path_sum g (recorded visited from_vertex) + weight e /\
    (recorded visited v <> [] ->
     path_sum g (recorded visited' v) <= path_sum g (recorded visited v) /\
     recorded visited' v
     = if binary64_lighter k g (recorded visited v)
                           (recorded visited from_vertex ++ [v])
       then recorded visited v
       else recorded visited from_vertex ++ [v]).
Proof.
  intros C P Se Hf X.
  destruct (P from_vertex Hf) as (Sf & qf & Ef).
  assert (Snew : all_pairs_stored g (recorded visited from_vertex ++ [v]) = true).
  { rewrite Ef. eapply all_pairs_stored_snoc; eauto. now rewrite <- Ef. }
  assert (Wnew : path_sum g (recorded visited from_vertex ++ [v])
                 = path_sum g (recorded visited from_vertex) + weight e).
  { rewrite Ef. now apply path_sum_snoc. }
  assert (Enew : ends_at (recorded visited from_vertex ++ [v]) v)
    by (now eexists).
  assert (Nnew : recorded visited from_vertex ++ [v] <> [])
    by (destruct (recorded visited from_vertex); discriminate).
  assert (Lnew : (List.length (recorded visited from_vertex ++ [v])
                  <= Nat.max (List.length (recorded visited v))
                             (Datatypes.S (List.length
                                             (recorded visited from_vertex))))%nat)
    by (rewrite length_app; cbn [List.length]; lia).
  pose proof (@binary64_lighter_exact k b _ g (recorded visited v)
                (recorded visited from_vertex ++ [v]) X
                (Nat.le_max_l _ _) Lnew) as BL.
  assert (Hv : recorded visited v = [] \/ recorded visited v <> [])
    by (destruct (recorded visited v); [now left | right; discriminate]).
  destruct Hv as [Ev | Hv].
  - destruct (@visit_unvisited g visited v from_vertex Ev)
      as (visited' & E & Rv & Ro).
    exists true, visited', g. split; [exact E|].
    split; [apply same_edges_refl|]. split; [exact C|]. split.
    { intros u Hu. destruct (Vertex_eqb u v) eqn:B.
      - apply Vertex_eqb_eq in B. subst u. rewrite Rv. now split.
      - apply Vertex_eqb_neq in B. rewrite (Ro u B) in *. now apply P. }
    split; [exact Ro|]. split; [now split|]. split; [discriminate|].
    split; [rewrite Rv, Wnew; apply Qle_refl|].
    intros N. contradiction.
  - pose proof (@dict_get_recorded_nonempty visited v Hv) as Gv.
    pose proof (@dict_get_recorded_nonempty visited from_vertex Hf) as Gf.
    destruct (P v Hv) as (Sv & Endv).
    rewrite BL. clear BL Lnew X.
    destruct (recorded visited v) as [|x pv] eqn:Ev; [contradiction|].
    rewrite (@visit_visited visited v from_vertex x pv _ g Gv Gf).
    destruct (@min_stored g (x :: pv) (recorded visited from_vertex ++ [v])
                C ltac:(discriminate) Nnew Sv Snew)
      as (g' & Em & SE & _).
    destruct (@min_vertex_sequence_weight_lightest_aux
                g (x :: pv) (recorded visited from_vertex ++ [v])
                C ltac:(discriminate) Nnew Sv Snew)
      as (r' & g'' & E' & C' & W1 & W2).
    rewrite Em in E'. injection E' as <- <-.
    rewrite (bind_Return _ _ _ Em). unfold ret.
    set (r := if Qltb (path_sum g (x :: pv))
                      (path_sum g (recorded visited from_vertex ++ [v]))
              then x :: pv else recorded visited from_vertex ++ [v]) in *.
    assert (Hr : r = x :: pv \/ r = recorded visited from_vertex ++ [v])
      by (unfold r;
          destruct (Qltb (path_sum g (x :: pv))
                         (path_sum g (recorded visited from_vertex ++ [v])));
          auto).
    exists (path_eqb r (recorded visited from_vertex ++ [v])),
           (dict_set visited v r), g'.
    assert (Rv : recorded (dict_set visited v r) v = r)
      by apply recorded_set_same.
    assert (Ro : forall u, u <> v ->
                 recorded (dict_set visited v r) u = recorded visited u).
    { intros u Hu. apply recorded_set_other. congruence. }
    split; [reflexivity|]. split; [exact SE|]. split; [exact C'|]. split.
    { intros u Hu. destruct (Vertex_eqb u v) eqn:B.
      - apply Vertex_eqb_eq in B. subst u. rewrite Rv.
        destruct Hr as [-> | ->]; now split.
      - apply Vertex_eqb_neq in B. rewrite (Ro u B) in *.
        now apply P. }
    split; [exact Ro|]. rewrite Rv. split; [apply path_eqb_eq|].
    split.
    { intros B. destruct Hr as [-> | ->]; [reflexivity|].
      now rewrite path_eqb_refl in B. }
    split; [rewrite <- Wnew; exact W2 | intros _; split; [exact W1 | reflexivity]].
Qed.

Lemma visit_vertex_neighbors_relaxes_witness :
  exists r visited' g',
    visit_vertex_neighbors vtx_d vtx_c diamond_visited_via_b complete_diamond
    = (Return (r, visited'), g') /\
    same_edges complete_diamond g' /\ cache_coherent g' /\
    paths_stored complete_diamond visited' /\
    (forall u, u <> vtx_d ->
               recorded visited' u = recorded diamond_visited_via_b u) /\
    (r = true <->
     recorded visited' vtx_d
     = recorded diamond_visited_via_b vtx_c ++ [vtx_d]) /\
    (r = false ->
     recorded visited' vtx_d = recorded diamond_visited_via_b vtx_d) /\
    path_sum complete_diamond (recorded visited' vtx_d)
    <= path_sum complete_diamond (recorded diamond_visited_via_b vtx_c)
       + weight (DirectedEdge vtx_c vtx_d (1 # 2)) /\
    (recorded diamond_visited_via_b vtx_d <> [] ->
     path_sum complete_diamond (recorded visited' vtx_d)
     <= path_sum complete_diamond (recorded diamond_visited_via_b vtx_d) /\
     recorded visited' vtx_d
     = if binary64_lighter 1 complete_diamond
                           (recorded diamond_visited_via_b vtx_d)
                           (recorded diamond_visited_via_b vtx_c ++ [vtx_d])
       then recorded diamond_visited_via_b vtx_d
       else recorded diamond_visited_via_b vtx_c ++ [vtx_d]).
Proof.
  apply (@visit_vertex_neighbors_relaxes
           complete_diamond diamond_visited_via_b vtx_d vtx_c
           (DirectedEdge vtx_c vtx_d (1 # 2)) 1%nat 4%Z).
  - apply cache_coherent_empty. reflexivity.
  - intros u Hu. unfold recorded, diamond_visited_via_b in *.
    cbn [dict_get] in *.
    destruct (Vertex_eqb vtx_a u) eqn:Ba;
      [apply Vertex_eqb_eq in Ba; subst u; split;
       [reflexivity | now exists []]|].
    destruct (Vertex_eqb vtx_b u) eqn:Bb;
      [apply Vertex_eqb_eq in Bb; subst u; split;
       [reflexivity | now exists [vtx_a]]|].
    destruct (Vertex_eqb vtx_c u) eqn:Bc;
      [apply Vertex_eqb_eq in Bc; subst u; split;
       [reflexivity | now exists [vtx_a]]|].
    destruct (Vertex_eqb vtx_d u) eqn:Bd;
      [apply Vertex_eqb_eq in Bd; subst u; split;
       [reflexivity | now exists [vtx_a; vtx_b]]|].
    contradiction.
  - reflexivity.
  - discriminate.
  - reflexivity.
Defined.

(* ===================================================================== *)
(** ** The listing of a graph *)
(* ===================================================================== *)

Lemma for_items_pure S (f : S -> Vertex * TypingEdge -> S) items :
  forall acc g,
    for_items (fun n e a => ret (f a (n, e))) items acc g
    = (Return (fold_left f items acc), g).
Proof.
  induction items as [|[n e] items IH]; intros acc g; cbn [for_items fold_left].
  - reflexivity.
  - unfold bind at 1, ret at 1. apply IH.
Qed.

Lemma for_reverse_pure S (f : S -> Vertex * TypingEdge -> S) g target keys :
  forall acc,
    (forall k, In k keys -> In k (dict_keys (adjacency_list g))) ->
    for_reverse (fun n e a => ret (f a (n, e))) keys
                (List.length (adjacency_list g)) target acc g
    = (Return (fold_left f
                 (flat_map (fun k => match stored_edge g k target with
                                     | Some e => [(k, e)]
                                     | None => []
                                     end) keys) acc), g).
Proof.
  induction keys as [|k keys IH]; intros acc Hin; cbn [for_reverse flat_map];
    unfold bind at 1; unfold check_size; rewrite Nat.eqb_refl.
  - reflexivity.
  - destruct (dict_keys_get _ _ (Hin k (or_introl eq_refl))) as [inner G].
    unfold bind at 1. rewrite (adjacency_get_present _ _ G).
    unfold stored_edge at 1. rewrite G.
    destruct (dict_get inner target) as [e|].
    + unfold bind at 1, ret at 1.
      rewrite IH by (intros; apply Hin; now right). reflexivity.
    + rewrite IH by (intros; apply Hin; now right). reflexivity.
Qed.

(** A consumer of [neighbors] that does not touch the graph, on a vertex
    that has an adjacency entry: it meets the listing of the vertex, and the
    graph is left as it was. *)
Lemma for_neighbors_pure S (f : S -> Vertex * TypingEdge -> S) g v acc :
  In v (dict_keys (adjacency_list g)) ->
  for_neighbors (fun n e a => ret (f a (n, e))) v acc g
  = (Return (fold_left f (listing g v) acc), g).
Proof.
  intros Hin. destruct (dict_keys_get _ _ Hin) as [inner G].
  unfold for_neighbors, listing. rewrite G.
  rewrite (bind_Return _ _ _ (adjacency_get_present _ _ G)).
  rewrite (bind_Return _ _ _ (for_items_pure f inner acc g)).
  unfold bind, get_graph. rewrite fold_left_app.
  destruct (truthy (directed g)); [reflexivity|].
  rewrite for_reverse_pure by auto. reflexivity.
Qed.

Lemma str_loop_spec repr_str repr_weight g keys :
  forall acc,
    (forall k, In k keys -> In k (dict_keys (adjacency_list g))) ->
    str_loop repr_str repr_weight keys (List.length (adjacency_list g)) acc g
    = (Return (fold_left (render_block repr_str repr_weight g) keys acc), g).
Proof.
  induction keys as [|k keys IH]; intros acc Hin; cbn [str_loop fold_left];
    unfold bind at 1; unfold check_size; rewrite Nat.eqb_refl.
  - reflexivity.
  - rewrite (bind_Return _ _ _
               (@for_neighbors_pure _ (str_line repr_str repr_weight) g k _
                  (Hin k (or_introl eq_refl)))).
    rewrite IH by (intros; apply Hin; now right). reflexivity.
Qed.

(** X11.  [str(graph)] returns for every graph, directed or not, and never
    raises: although it iterates over the adjacency mapping while it calls
    [neighbors], no entry is inserted and the graph is left exactly as it
    was.  The text is the title line followed, for each key of the
    adjacency mapping in insertion order, by a heading, one line for each
    neighbour that [neighbors] yields and an empty line.  With the [repr] of
    the names and floats of the test module, the text of the complete
    diamond is the one the test module expects. *)
Theorem Graph_str_lists_the_adjacency_mapping :
  (forall repr_str repr_weight g,
      Graph_str repr_str repr_weight g
      = (Return (render repr_str repr_weight g), g)) /\
  Graph_str test_repr_str test_repr_weight complete_diamond
  = (Return expected_complete_diamond_str, complete_diamond).
Proof.
  assert (H : forall repr_str repr_weight g,
             Graph_str repr_str repr_weight g
             = (Return (render repr_str repr_weight g), g)).
  { intros repr_str repr_weight g. unfold Graph_str, render.
    unfold bind at 1, get_graph at 1. now apply str_loop_spec. }
  split; [exact H|]. rewrite H. reflexivity.
Qed.

(* ===================================================================== *)
(** ** What [neighbors] yields *)
(* ===================================================================== *)

Lemma stored_edge_key g u v e :
  stored_edge g u v = Some e -> In u (dict_keys (adjacency_list g)).
Proof.
  intros H. destruct (@stored_edge_Some g u v e H) as (inner & G & _).
  apply dict_get_In in G. unfold dict_keys.
  exact (in_map fst _ _ G).
Qed.

Lemma In_reverse_scan g t n e :
  In (n, e) (reverse_scan g t) <-> stored_edge g n t = Some e.
Proof.
  unfold reverse_scan. rewrite in_flat_map. split.
  - intros (k & _ & Hin).
    destruct (stored_edge g k t) as [e'|] eqn:S; [|destruct Hin].
    destruct Hin as [[= <- <-] | []]. exact S.
  - intros S. exists n. split; [exact (@stored_edge_key g n t e S)|].
    rewrite S. now left.
Qed.

Lemma NoDup_dict_get V (d : dict V) k x :
  NoDup (dict_keys d) -> In (k, x) d -> dict_get d k = Some x.
Proof.
  unfold dict_keys. induction d as [|[k' y] d IH]; cbn [map dict_get fst];
    intros N Hin; [destruct Hin|].
  apply NoDup_cons_iff in N. destruct N as (N1 & N2).
  destruct Hin as [[= -> ->] | Hin].
  - now rewrite Vertex_eqb_refl.
  - destruct (Vertex_eqb k' k) eqn:B; [|now apply IH].
    apply Vertex_eqb_eq in B. subst k'. exfalso. apply N1.
    exact (in_map fst _ _ Hin).
Qed.

Lemma NoDup_dict_set V (d : dict V) k x :
  NoDup (dict_keys d) -> NoDup (dict_keys (dict_set d k x)).
Proof.
  intros N. destruct (dict_get d k) as [y|] eqn:G.
  - now rewrite (@dict_keys_set_present _ d k x y G).
  - rewrite (@dict_set_fresh _ d k x G). unfold dict_keys in *.
    rewrite map_app. cbn [map fst].
    apply NoDup_app; [exact N | constructor; [intros [] | constructor] |].
    intros a Ha [<- | []]. apply dict_get_None_keys in G. contradiction.
Qed.

(** In a graph built through the public methods no adjacency entry holds
    two edges for the same neighbour. *)
Lemma unique_keys_reachable g :
  reachable g ->
  forall u inner, In (u, inner) (adjacency_list g) -> NoDup (dict_keys inner).
Proof.
  induction 1 as [nm flag | g n1 n2 w _ IH | A m g _ IH R];
    intros u inner Hin.
  - destruct Hin.
  - unfold add_edge, edge_factory in Hin.
    destruct (String.eqb n1 n2); [exact (IH u inner Hin)|].
    cbn [truthy vertex1 vertex2] in Hin. unfold bind in Hin.
    destruct (dict_get (adjacency_list g) (mkVertex n1)) as [i|] eqn:G.
    + rewrite (adjacency_get_present _ _ G) in Hin.
      cbn [snd adjacency_list] in Hin. apply In_dict_set in Hin.
      destruct Hin as [(-> & ->) | Hin]; [|exact (IH u inner Hin)].
      apply NoDup_dict_set. exact (IH _ _ (dict_get_In _ _ G)).
    + rewrite (adjacency_get_absent _ _ G) in Hin.
      cbn [snd adjacency_list with_entry] in Hin. apply In_dict_set in Hin.
      destruct Hin as [(-> & ->) | Hin].
      * apply NoDup_dict_set. constructor.
      * apply in_app_or in Hin. destruct Hin as [Hin | [[= <- <-] | []]];
          [exact (IH u inner Hin) | constructor].
  - destruct (@read_only_query A m R g) as (_ & _ & ks & E).
    rewrite E in Hin. apply in_app_or in Hin. destruct Hin as [Hin | Hin];
      [exact (IH u inner Hin)|].
    apply In_empty_entries in Hin. subst inner. constructor.
Qed.

(** X12.  On a graph built through the public methods, [neighbors] of a
    vertex [t] returns, only ever adding an empty entry for [t].  It yields
    every edge stored under [t] with the vertex the edge leads to; when the
    graph is not directed it also yields every edge that leads to [t], this
    time with the vertex the edge comes from, so that the [vertex2] of such
    an edge is [t] itself and not the neighbour.  It yields nothing else:
    on a directed graph only the edges that leave [t]. *)
Theorem neighbors_yields_incident_edges (g : Graph) (t : Vertex) :
  reachable g ->
  exists l g1,
    neighbors t g = (Return l, g1) /\ grows g g1 /\
    (forall n e, stored_edge g t n = Some e -> In (n, e) l) /\
    (truthy (directed g) = false ->
     forall n e, stored_edge g n t = Some e -> In (n, e) l) /\
    (forall n e, In (n, e) l ->
                 (stored_edge g t n = Some e /\
                  vertex1 e = t /\ vertex2 e = n) \/
                 (truthy (directed g) = false /\
                  stored_edge g n t = Some e /\
                  vertex1 e = n /\ vertex2 e = t)).
Proof.
  intros Hr. pose proof (@well_keyed_reachable g Hr) as WK.
  destruct (neighbors_spec t g) as (inner & g1 & E & N).
  assert (G : grows g g1).
  { pose proof (query_adjacency_get t g) as Q. now rewrite E in Q. }
  assert (Hinner : forall n e, In (n, e) inner <->
                               (exists i, dict_get (adjacency_list g) t = Some i /\
                                          In (n, e) i)).
  { intros n e. unfold adjacency_get in E.
    destruct (dict_get (adjacency_list g) t) as [i|] eqn:Gt.
    - injection E as <- <-. split; [intros H; now exists i|].
      intros (i' & [= <-] & H). exact H.
    - injection E as <- <-. split; [intros []|]. intros (i' & [=] & _). }
  assert (Hkeyed : forall u n e,
             stored_edge g u n = Some e -> vertex1 e = u /\ vertex2 e = n).
  { intros u n e S. destruct (@stored_edge_Some g u n e S) as (i & Gu & Gn).
    exact (WK u i n e (dict_get_In _ _ Gu) (dict_get_In _ _ Gn)). }
  exists (if truthy (directed g) then inner else inner ++ reverse_scan g1 t), g1.
  split; [exact N|]. split; [exact G|]. split; [|split].
  - intros n e S. destruct (@stored_edge_Some g t n e S) as (i & Gt & Gn).
    assert (Hin : In (n, e) inner)
      by (apply Hinner; exists i; split; [exact Gt | now apply dict_get_In]).
    destruct (truthy (directed g)); [exact Hin|].
    apply in_or_app. now left.
  - intros D n e S. rewrite D. apply in_or_app. right.
    apply In_reverse_scan. now rewrite (@grows_stored_edge g g1 n t G).
  - intros n e Hin.
    assert (Hitems : In (n, e) inner ->
                     stored_edge g t n = Some e /\
                     vertex1 e = t /\ vertex2 e = n).
    { intros H. apply Hinner in H. destruct H as (i & Gt & H).
      destruct (WK t i n e (dict_get_In _ _ Gt) H) as (K1 & K2).
      split; [|now split]. unfold stored_edge. rewrite Gt.
      apply NoDup_dict_get; [|exact H].
      exact (@unique_keys_reachable g Hr t i (dict_get_In _ _ Gt)). }
    destruct (truthy (directed g)) eqn:D; [left; now apply Hitems|].
    apply in_app_or in Hin. destruct Hin as [Hin | Hin];
      [left; now apply Hitems|].
    right. apply In_reverse_scan in Hin.
    rewrite (@grows_stored_edge g g1 n t G) in Hin.
    split; [reflexivity|]. split; [exact Hin | exact (Hkeyed n t e Hin)].
Qed.

Lemma neighbors_yields_incident_edges_witness :
  exists l g1,
    neighbors vtx_c undirected_triangle = (Return l, g1) /\
    grows undirected_triangle g1 /\
    (forall n e, stored_edge undirected_triangle vtx_c n = Some e ->
                 In (n, e) l) /\
    (truthy (directed undirected_triangle) = false ->
     forall n e, stored_edge undirected_triangle n vtx_c = Some e ->
                 In (n, e) l) /\
    (forall n e, In (n, e) l ->
                 (stored_edge undirected_triangle vtx_c n = Some e /\
                  vertex1 e = vtx_c /\ vertex2 e = n) \/
                 (truthy (directed undirected_triangle) = false /\
                  stored_edge undirected_triangle n vtx_c = Some e /\
                  vertex1 e = n /\ vertex2 e = vtx_c)).
Proof.
  apply neighbors_yields_incident_edges. apply reachable_build.
Defined.

(* ===================================================================== *)
(** ** Graphs with positive weights *)
(* ===================================================================== *)

Lemma Vertex_eq_dec (u v : Vertex) : {u = v} + {u <> v}.
Proof.
  destruct (Vertex_eqb u v) eqn:B.
  - left. now apply Vertex_eqb_eq.
  - right. now apply Vertex_eqb_neq.
Qed.

Lemma NoDup_snoc A (l : list A) a : NoDup l -> ~ In a l -> NoDup (l ++ [a]).
Proof.
  intros N H. apply NoDup_app; [exact N | constructor; [intros [] | constructor] |].
  intros b Hb [<- | []]. contradiction.
Qed.

(** With positive weights, going on along stored edges makes a sequence
    heavier. *)
Lemma path_sum_extends g l y q :
  positive_weights g ->
  all_pairs_stored g ((l ++ [y]) ++ q) = true -> q <> [] ->
  path_sum g (l ++ [y]) < path_sum g ((l ++ [y]) ++ q).
Proof.
  intros Pos. induction q as [|z q0 IH] using rev_ind; intros A N;
    [contradiction|].
  rewrite app_assoc in A |- *.
  destruct (@exists_last _ ((l ++ [y]) ++ q0)) as (l' & y' & E).
  { destruct l; discriminate. }
  rewrite E in A |- *.
  destruct (@all_pairs_stored_snoc_inv g l' y' z A) as (A' & e & Se).
  rewrite (@path_sum_snoc g l' y' z e Se).
  pose proof (Pos y' z e Se) as W. rewrite <- E in A' |- *.
  destruct q0 as [|a q0].
  - rewrite app_nil_r. lra.
  - assert (H : path_sum g (l ++ [y]) < path_sum g ((l ++ [y]) ++ a :: q0))
      by (apply IH; [exact A' | discriminate]).
    lra.
Qed.

Lemma simple_state_ext g (visited visited' : TypingVisited) :
  (forall u, recorded visited' u = recorded visited u) ->
  simple_state g visited -> simple_state g visited'.
Proof.
  intros E (S1 & S2). split.
  - intros u. rewrite E. apply S1.
  - intros u p y q. rewrite !E. apply S2.
Qed.

Lemma simple_state_start g v : simple_state g [(v, [v])].
Proof.
  split.
  - intros u. unfold recorded. cbn [dict_get].
    destruct (Vertex_eqb v u); repeat constructor. intros [].
  - intros u p y q H N. exfalso.
    assert (L : (List.length (recorded [(v, [v])] u) <= 1)%nat).
    { unfold recorded. cbn [dict_get]. destruct (Vertex_eqb v u); cbn; lia. }
    rewrite H, !length_app in L. cbn in L.
    destruct q; [contradiction | cbn in L; lia].
Qed.

(** A visit along a stored edge of a graph with positive weights keeps the
    recorded paths free of repetitions. *)
Lemma visit_simple g0 (visited : TypingVisited) n x e b visited' :
  positive_weights g0 -> paths_stored g0 visited -> simple_state g0 visited ->
  stored_edge g0 x n = Some e -> x <> n -> recorded visited x <> [] ->
  visit_effect True g0 n x e visited b visited' ->
  simple_state g0 visited'.
Proof.
  intros Pos P (S1 & S2) Se Hxn Hx (Ro & N & Bt & Bf & EK).
  destruct (EK I) as (L & W).
  destruct b.
  2:{ apply (@simple_state_ext g0 visited); [|now split].
      intros u. destruct (Vertex_eq_dec u n) as [-> | Hu];
        [now apply Bf | now apply Ro]. }
  specialize (Bt eq_refl).
  destruct (P x Hx) as (Ax & qx & Ex).
  assert (Wnew : path_sum g0 (recorded visited x ++ [n])
                 = path_sum g0 (recorded visited x) + weight e).
  { rewrite Ex. now apply path_sum_snoc. }
  pose proof (Pos x n e Se) as We.
  assert (Hnot : ~ In n (recorded visited x)).
  { intros Hin. apply in_split in Hin. destruct Hin as (l1 & l2 & E).
    assert (Hl2 : l2 <> []).
    { intros ->. rewrite Ex in E.
      apply app_inj_tail in E. destruct E as (_ & E). congruence. }
    assert (E' : recorded visited x = (l1 ++ [n]) ++ l2)
      by (rewrite E, <- app_assoc; reflexivity).
    destruct (S2 x l1 n l2 E' Hl2) as (Nn & Wn).
    destruct (L n Nn) as (_ & Wn').
    assert (Hlt : path_sum g0 (l1 ++ [n]) < path_sum g0 (recorded visited x)).
    { rewrite E'. apply path_sum_extends; [exact Pos | | exact Hl2].
      now rewrite <- E'. }
    rewrite Bt, Wnew in Wn'. lra. }
  split.
  - intros u. destruct (Vertex_eq_dec u n) as [-> | Hu].
    + rewrite Bt. apply NoDup_snoc; [apply S1 | exact Hnot].
    + rewrite (Ro u Hu). apply S1.
  - assert (Hl : forall u p y q,
               recorded visited u = (p ++ [y]) ++ q -> q <> [] ->
               recorded visited' y <> [] /\
               path_sum g0 (recorded visited' y) <= path_sum g0 (p ++ [y])).
    { intros u p y q E Hq. destruct (S2 u p y q E Hq) as (Ny & Wy).
      destruct (L y Ny) as (Ny' & Wy'). split; [exact Ny' | lra]. }
    intros u p y q E Hq. destruct (Vertex_eq_dec u n) as [-> | Hu].
    + rewrite Bt in E.
      destruct (@exists_last _ q Hq) as (q' & z & ->).
      rewrite app_assoc in E. apply app_inj_tail in E. destruct E as (E & _).
      destruct q' as [|a q'].
      * rewrite app_nil_r in E.
        assert (Hy : y = x).
        { pose proof E as E2. rewrite Ex in E2.
          apply app_inj_tail in E2. destruct E2 as (_ & E2). congruence. }
        subst y. rewrite (Ro x Hxn). split; [exact Hx|].
        rewrite <- E. apply Qle_refl.
      * apply (Hl x p y (a :: q') E). discriminate.
    + rewrite (Ro u Hu) in E. exact (Hl u p y q E Hq).
Qed.

Lemma stored_edge_target g u v e :
  stored_edge g u v = Some e -> In v (targets g).
Proof.
  intros H. destruct (@stored_edge_Some g u v e H) as (inner & G & D).
  unfold targets. apply in_flat_map. exists (u, inner).
  split; [now apply dict_get_In|]. cbn [snd]. unfold dict_keys.
  exact (in_map fst _ _ (dict_get_In _ _ D)).
Qed.

Lemma stored_path_targets g q :
  forall a, all_pairs_stored g (a :: q) = true ->
            forall v, In v q -> In v (targets g).
Proof.
  induction q as [|v1 q IH]; intros a A v Hin; [destruct Hin|].
  rewrite all_pairs_stored_cons in A.
  destruct (stored_edge g a v1) as [e|] eqn:S; [|discriminate].
  destruct Hin as [<- | Hin]; [exact (@stored_edge_target g a v1 e S)|].
  exact (IH v1 A v Hin).
Qed.

(** A recorded path without repetition has fewer vertices than the bound. *)
Lemma recorded_length_bound g s0 (visited : TypingVisited) u :
  paths_stored g visited -> rooted s0 visited -> simple_state g visited ->
  (List.length (recorded visited u) <= vertex_bound g)%nat.
Proof.
  intros P R (S1 & _).
  assert (D : recorded visited u = [] \/ recorded visited u <> [])
    by (destruct (recorded visited u); [now left | right; discriminate]).
  destruct D as [-> | N]; [cbn; lia|].
  destruct (P u N) as (A & _). destruct (R u N) as (q & E).
  pose proof (S1 u) as ND. rewrite E in A, ND |- *.
  apply NoDup_cons_iff in ND. destruct ND as (_ & ND).
  unfold vertex_bound. cbn [List.length]. apply le_n_S.
  apply NoDup_incl_length; [exact ND|].
  intros v Hv. exact (@stored_path_targets g q s0 A v Hv).
Qed.

(** The sequences that a call adds to the memo table. *)
Lemma total_weighed p g q w :
  cache_get (cache (snd (total_vertex_sequence_weight p g))) q = Some w ->
  cache_get (cache g) q = Some w \/ q = p.
Proof.
  unfold total_vertex_sequence_weight.
  destruct (cache_get (cache g) p) as [w0|] eqn:H; [now left|].
  pose proof (total_body_cache p g) as C.
  destruct (total_body p g) as [[w1| e |] g2]; cbn [snd cache] in *.
  - rewrite cache_get_app, C.
    destruct (cache_get (cache g) q) eqn:Q; [now left|].
    destruct (path_eqb p q) eqn:E; [|discriminate].
    apply path_eqb_eq in E. now right.
  - rewrite C. now left.
  - rewrite C. now left.
Qed.

Lemma min_weighed p1 p2 g q w :
  cache_get (cache (snd (min_vertex_sequence_weight p1 p2 g))) q = Some w ->
  cache_get (cache g) q = Some w \/ q = p1 \/ q = p2.
Proof.
  unfold min_vertex_sequence_weight, bind.
  pose proof (@total_weighed p1 g q w) as T1.
  destruct (total_vertex_sequence_weight p1 g) as [[w1| e |] g1];
    cbn [snd] in *; [|tauto..].
  pose proof (@total_weighed p2 g1 q w) as T2.
  destruct (total_vertex_sequence_weight p2 g1) as [[w2| e |] g2];
    cbn [snd] in *; [|tauto..].
  destruct (Qltb w1 w2); cbn [ret snd]; tauto.
Qed.

Lemma visit_weighed v from_vertex visited g q w :
  recorded visited from_vertex <> [] ->
  cache_get (cache (snd (visit_vertex_neighbors v from_vertex visited g))) q
  = Some w ->
  cache_get (cache g) q = Some w \/
  q = recorded visited v \/ q = recorded visited from_vertex ++ [v].
Proof.
  intros Hf.
  assert (Hv : recorded visited v = [] \/ recorded visited v <> [])
    by (destruct (recorded visited v); [now left | right; discriminate]).
  destruct Hv as [Ev | Hv].
  - destruct (@visit_unvisited g visited v from_vertex Ev) as (visited' & E & _).
    rewrite E. cbn [snd]. now left.
  - pose proof (@dict_get_recorded_nonempty visited v Hv) as Gv.
    pose proof (@dict_get_recorded_nonempty visited from_vertex Hf) as Gf.
    destruct (recorded visited v) as [|x pv] eqn:Ev; [contradiction|].
    rewrite (@visit_visited visited v from_vertex x pv _ g Gv Gf).
    unfold bind.
    pose proof (@min_weighed (x :: pv) (recorded visited from_vertex ++ [v])
                  g q w) as M.
    destruct (min_vertex_sequence_weight (x :: pv)
                (recorded visited from_vertex ++ [v]) g) as [[r| e |] g1];
      cbn [snd ret] in *; tauto.
Qed.

Section PositiveWeights.
Variable g0 : Graph.
Variable s0 : Vertex.
Hypothesis directed_g0 : truthy (directed g0) = true.
Hypothesis keyed_g0 : well_keyed g0.
Hypothesis loops_g0 : no_self_loops g0.
Hypothesis positive_g0 : positive_weights g0.

Lemma steady_length visited g u :
  steady g0 s0 visited g ->
  (List.length (recorded visited u) <= vertex_bound g0)%nat.
Proof.
  intros ((_ & P & R & _) & S & _).
  exact (@recorded_length_bound g0 s0 visited u P R S).
Qed.

Lemma visit_steady x n e visited g :
  steady g0 s0 visited g -> stored_edge g0 x n = Some e -> x <> n ->
  recorded visited x <> [] ->
  exists b visited' g',
    visit_vertex_neighbors n x visited g = (Return (b, visited'), g') /\
    steady g0 s0 visited' g' /\
    visit_effect True g0 n x e visited b visited'.
Proof.
  intros St Se Hxn Hx.
  pose proof (@steady_length visited g n St) as Ln.
  pose proof (@steady_length visited g x St) as Lx.
  destruct St as (Snd & Sim & Mem).
  destruct (@visit_step True g0 s0 g visited n x e Snd Se Hx)
    as (b & visited' & g' & E & Snd' & Eff).
  exists b, visited', g'. split; [exact E|]. split; [|exact Eff].
  split; [exact Snd'|]. split.
  - destruct Snd as (_ & P & _).
    exact (@visit_simple g0 visited n x e b visited' positive_g0 P Sim Se Hxn
             Hx Eff).
  - intros p w Hp.
    replace g' with (snd (visit_vertex_neighbors n x visited g)) in Hp
      by now rewrite E.
    destruct (@visit_weighed n x visited g p w Hx Hp) as [H0 | [-> | ->]].
    + exact (Mem p w H0).
    + right. lia.
    + right. rewrite length_app. cbn [List.length]. lia.
Qed.

Lemma steady_lookup x visited g inner g1 :
  steady g0 s0 visited g -> adjacency_get x g = (Return inner, g1) ->
  sound_state True g0 s0 visited g1 -> steady g0 s0 visited g1.
Proof.
  intros (_ & Sim & Mem) E Snd1. split; [exact Snd1|]. split; [exact Sim|].
  intros p w H. apply Mem.
  pose proof (adjacency_get_cache x g) as C. rewrite E in C. cbn [snd] in C.
  now rewrite <- C.
Qed.

Lemma nonempty_length A (l : list A) k : (k + 1 <= List.length l)%nat -> l <> [].
Proof. destruct l; cbn; [lia | discriminate]. Qed.

(** The recursive traversal returns: a call at depth [k] is for a vertex
    whose recorded path has more than [k] vertices, and no recorded path has
    more vertices than the bound. *)
Lemma dfs_returns_positive fuel : forall k x visited g,
  steady g0 s0 visited g ->
  (k + 1 <= List.length (recorded visited x))%nat ->
  (vertex_bound g0 <= fuel + k)%nat ->
  exists visited' g',
    dfs fuel x visited g = (Return visited', g') /\
    diving g0 s0 k visited 0 visited' g'.
Proof.
  induction fuel as [|fuel IH]; intros k x visited0 g St Hk Hf.
  - pose proof (@steady_length visited0 g x St). lia.
  - rewrite dfs_S.
    destruct (@adjacency_get_sound True g0 s0 visited0 g x (proj1 St))
      as (inner & g1 & E & Snd1 & Hinner).
    assert (I0 : diving g0 s0 k visited0 0 visited0 g1).
    { split; [exact (@steady_lookup x visited0 g inner g1 St E Snd1)|].
      split; [apply lightens_refl | now left]. }
    assert (Hbody : forall j n e vis g2,
               In (n, e) inner -> diving g0 s0 k visited0 j vis g2 ->
               exists vis' g', relax_and_recurse (dfs fuel) n e vis g2
                               = (Return vis', g') /\
                               diving g0 s0 k visited0 (S j) vis' g').
    { intros j n e vis g2 Hin (St2 & L02 & Ch).
      destruct Hinner as [[_ ->] | Hg]; [destruct Hin|].
      destruct (@item_edge g0 x inner n e keyed_g0 loops_g0 Hg Hin)
        as (K1 & K2 & Hxn & e' & Se).
      assert (Hxl : (k + 1 <= List.length (recorded vis x))%nat).
      { destruct (Ch x) as [-> | H]; lia. }
      destruct (@visit_steady x n e' vis g2 St2 Se Hxn (nonempty_length _ Hxl))
        as (b & vis2 & g3 & Ev & St3 & Eff).
      unfold relax_and_recurse. rewrite K1, K2, (bind_Return _ _ _ Ev).
      cbv beta iota.
      pose proof Eff as (Ro & N & Bt & Bf & EK). destruct (EK I) as (L12 & _).
      assert (Ch2 : forall u, recorded vis2 u = recorded visited0 u \/
                              (k + 2 <= List.length (recorded vis2 u))%nat).
      { intros u. destruct (Vertex_eq_dec u n) as [-> | Hu].
        - destruct b.
          + right. rewrite (Bt eq_refl), length_app. cbn. lia.
          + rewrite (Bf eq_refl). apply Ch.
        - rewrite (Ro u Hu). apply Ch. }
      destruct b.
      - assert (Hn : (S k + 1 <= List.length (recorded vis2 n))%nat)
          by (rewrite (Bt eq_refl), length_app; cbn; lia).
        destruct (IH (S k) n vis2 g3 St3 Hn ltac:(lia))
          as (vis3 & g4 & E4 & St4 & L23 & Ch3).
        exists vis3, g4. split; [exact E4|]. split; [exact St4|].
        split; [eapply lightens_trans; [exact L02|];
                eapply lightens_trans; eauto|].
        intros u. destruct (Ch3 u) as [-> | H]; [apply Ch2 | right; lia].
      - exists vis2, g3. split; [reflexivity|]. split; [exact St3|].
        split; [eapply lightens_trans; eauto | exact Ch2]. }
    destruct (@for_items_invariant _ (relax_and_recurse (dfs fuel))
                (diving g0 s0 k visited0) inner Hbody 0%nat visited0 g1 I0)
      as (visited' & g' & E2 & (St' & L' & Ch')).
    exists visited', g'.
    split; [|split; [exact St' | split; [exact L' | exact Ch']]].
    apply (@for_neighbors_directed _ _ x visited0 g inner g1 visited' g' E E2).
    destruct St' as ((G' & _) & _).
    exact (@grows_directed g0 directed_g0 g' G').
Qed.

Section TaggedWorkList.
Variable add : deque -> TypingEdge -> deque.
Variable tadd : tagged -> TypingEdge * nat -> tagged.
Variable within : nat -> tagged -> Prop.
Hypothesis map_tadd :
  forall t ek, map fst (tadd t ek) = add (map fst t) (fst ek).
Hypothesis In_tadd : forall t ek x, In x (tadd t ek) <-> x = ek \/ In x t.
Hypothesis work_tadd :
  forall D N t ek,
    tagged_work D N (tadd t ek)
    = (tagged_work D N t + item_cost D N (snd ek))%nat.
Hypothesis within_tadd :
  forall k t e, within k t -> within k (tadd t (e, S k)).
Hypothesis within_le :
  forall k t e' k', within k t -> In (e', k') t -> (k' <= S k)%nat.

Lemma expand_positive_step x k t0 visited0 j n e e' st g :
  vertex1 e = x -> vertex2 e = n -> x <> n ->
  stored_edge g0 x n = Some e' ->
  (k + 1 <= List.length (recorded visited0 x))%nat ->
  expanding_positive g0 s0 within x k t0 visited0 j st g ->
  exists st' g',
    relax_and_add add n e st g = (Return st', g') /\
    expanding_positive g0 s0 within x k t0 visited0 (S j) st' g'.
Proof.
  intros K1 K2 Hxn Se Hk (St & Ex & t & Mt & W & TF & Wk).
  destruct st as [s vis]. cbn [fst snd] in *.
  assert (Hx : recorded vis x <> [])
    by (rewrite Ex; exact (nonempty_length _ Hk)).
  destruct (@visit_steady x n e' vis g St Se Hxn Hx)
    as (b & vis2 & g3 & Ev & St3 & Eff).
  unfold relax_and_add. rewrite K1, K2, (bind_Return _ _ _ Ev). unfold ret.
  destruct Eff as (Ro & _ & Bt & Bf & _).
  assert (Ex2 : recorded vis2 x = recorded visited0 x)
    by (rewrite (Ro x Hxn); exact Ex).
  destruct b.
  - exists (add s e, vis2), g3. split; [reflexivity|].
    split; [exact St3|]. split; [exact Ex2|].
    exists (tadd t (e, S k)). cbn [fst snd].
    split; [now rewrite map_tadd, Mt|].
    split; [now apply within_tadd|]. split.
    + intros e1 k1 Hin. apply In_tadd in Hin.
      assert (Hn : (S k + 1 <= List.length (recorded vis2 n))%nat)
        by (rewrite (Bt eq_refl), length_app, Ex; cbn; lia).
      destruct Hin as [[= -> ->] | Hin]; [now rewrite K2|].
      destruct (Vertex_eq_dec (vertex2 e1) n) as [-> | Hu].
      * pose proof (@within_le k t e1 k1 W Hin). lia.
      * rewrite (Ro _ Hu). exact (TF e1 k1 Hin).
    + rewrite work_tadd. cbn [snd]. lia.
  - exists (s, vis2), g3. split; [reflexivity|].
    split; [exact St3|]. split; [exact Ex2|].
    exists t. cbn [fst snd]. split; [exact Mt|]. split; [exact W|]. split.
    + intros e1 k1 Hin.
      destruct (Vertex_eq_dec (vertex2 e1) n) as [Hu | Hu].
      * rewrite Hu, (Bf eq_refl), <- Hu. exact (TF e1 k1 Hin).
      * rewrite (Ro _ Hu). exact (TF e1 k1 Hin).
    + lia.
Qed.

(** The expansion of the target [x] of an edge of generation [k] returns,
    and what it adds to the work list costs less than that edge. *)
Lemma expand_positive x k t visited g :
  steady g0 s0 visited g ->
  (k + 1 <= List.length (recorded visited x))%nat ->
  within k t -> tags_fit visited t ->
  exists t' visited' g',
    for_neighbors (relax_and_add add) x (map fst t, visited) g
    = (Return (map fst t', visited'), g') /\
    steady g0 s0 visited' g' /\ within k t' /\ tags_fit visited' t' /\
    (tagged_work (max_degree g0) (vertex_bound g0) t' + 1
     <= tagged_work (max_degree g0) (vertex_bound g0) t
        + item_cost (max_degree g0) (vertex_bound g0) k)%nat.
Proof.
  intros St Hk W TF.
  destruct (@adjacency_get_sound True g0 s0 visited g x (proj1 St))
    as (inner & g1 & E & Snd1 & Hinner).
  assert (Hlen : (List.length inner <= max_degree g0)%nat).
  { destruct Hinner as [[_ ->] | Hg]; [cbn; lia|].
    exact (@max_degree_bound g0 x inner Hg). }
  assert (I0 : expanding_positive g0 s0 within x k t visited
                                  0 (map fst t, visited) g1).
  { split; [exact (@steady_lookup x visited g inner g1 St E Snd1)|].
    split; [reflexivity|]. exists t. cbn [fst snd].
    split; [reflexivity|]. split; [exact W|]. split; [exact TF | lia]. }
  assert (Hbody : forall j n e st g2,
             In (n, e) inner ->
             expanding_positive g0 s0 within x k t visited j st g2 ->
             exists st' g', relax_and_add add n e st g2 = (Return st', g') /\
                            expanding_positive g0 s0 within x k t visited
                                               (S j) st' g').
  { intros j n e st g2 Hin Hexp.
    destruct Hinner as [[_ ->] | Hg]; [destruct Hin|].
    destruct (@item_edge g0 x inner n e keyed_g0 loops_g0 Hg Hin)
      as (K1 & K2 & Hxn & e' & Se).
    exact (@expand_positive_step x k t visited j n e e' st g2
             K1 K2 Hxn Se Hk Hexp). }
  destruct (@for_items_invariant _ (relax_and_add add)
              (expanding_positive g0 s0 within x k t visited) inner Hbody
              0%nat (map fst t, visited) g1 I0)
    as ([s' visited'] & g' & E2 & (St' & _ & t' & Mt' & W' & TF' & Wk')).
  cbn [fst snd] in *. subst s'.
  exists t', visited', g'. split.
  { apply (@for_neighbors_directed _ _ x _ g inner g1 _ g' E E2).
    destruct St' as ((G' & _) & _).
    exact (@grows_directed g0 directed_g0 g' G'). }
  split; [exact St'|]. split; [exact W'|]. split; [exact TF'|].
  pose proof (@steady_length visited g x St) as Hb.
  unfold item_cost in *.
  replace (vertex_bound g0 - k)%nat with (S (vertex_bound g0 - S k)) by lia.
  rewrite Nat.pow_succ_r'.
  pose proof (Nat.pow_nonzero (S (max_degree g0)) (vertex_bound g0 - S k)
                ltac:(lia)) as Hp.
  nia.
Qed.
End TaggedWorkList.

Lemma nondecreasing_snoc l a :
  nondecreasing (l ++ [a]) <->
  nondecreasing l /\ forall b, In b l -> (b <= a)%nat.
Proof.
  induction l as [|x l IH]; cbn [app nondecreasing].
  - split; [intros _; split; [exact I | intros b []]|].
    intros _. split; [intros b [] | exact I].
  - rewrite IH. split.
    + intros (H1 & H2 & H3). split; [split; [|exact H2]|].
      * intros b Hb. apply H1. apply in_or_app. now left.
      * intros b [<- | Hb]; [|now apply H3].
        apply H1. apply in_or_app. right. now left.
    + intros ((H1 & H2) & H3). split; [|split; [exact H2|]].
      * intros b Hb. apply in_app_or in Hb.
        destruct Hb as [Hb | [<- | []]]; [now apply H1|].
        apply H3. now left.
      * intros b Hb. apply H3. now right.
Qed.

Lemma map_fst_snoc_inv (t : tagged) s e :
  map fst t = s ++ [e] ->
  exists t' k, t = t' ++ [(e, k)] /\ map fst t' = s.
Proof.
  intros H. apply map_eq_app in H.
  destruct H as (t1 & t2 & -> & H1 & H2).
  destruct t2 as [|[e' k] t2]; [discriminate|].
  destruct t2; [|discriminate]. cbn in H2. injection H2 as ->.
  now exists t1, k.
Qed.

Lemma tagged_work_snoc D N t ek :
  tagged_work D N (t ++ [ek])
  = (tagged_work D N t + item_cost D N (snd ek))%nat.
Proof.
  unfold tagged_work. rewrite map_app, list_sum_app.
  unfold list_sum. cbn [map fold_right]. lia.
Qed.

Lemma tagged_work_cons D N t ek :
  tagged_work D N (ek :: t)
  = (tagged_work D N t + item_cost D N (snd ek))%nat.
Proof. unfold tagged_work, list_sum. cbn [map fold_right]. lia. Qed.

Lemma tags_fit_pop visited (t : tagged) e k :
  tags_fit visited (t ++ [(e, k)]) ->
  tags_fit visited t /\
  (k + 1 <= List.length (recorded visited (vertex2 e)))%nat.
Proof.
  intros H. split.
  - intros e1 k1 Hin. apply H. apply in_or_app. now left.
  - apply H. apply in_or_app. right. now left.
Qed.

Lemma stack_within_add k t e :
  stack_within k t -> stack_within k (t ++ [(e, S k)]).
Proof.
  intros (H1 & H2). unfold stack_within. rewrite map_app. cbn [map snd].
  split.
  - apply nondecreasing_snoc. now split.
  - intros k' Hin. apply in_app_or in Hin.
    destruct Hin as [Hin | [<- | []]]; [now apply H2 | lia].
Qed.

Lemma stack_within_le k (t : tagged) e' k' :
  stack_within k t -> In (e', k') t -> (k' <= S k)%nat.
Proof.
  intros (_ & H) Hin. apply H. exact (in_map snd _ _ Hin).
Qed.

Lemma stack_order_pop t e k :
  stack_order (t ++ [(e, k)]) -> stack_within k t.
Proof.
  unfold stack_order, stack_within. rewrite map_app. cbn [map snd].
  intros H. apply nondecreasing_snoc in H. destruct H as (H1 & H2).
  split; [exact H1|]. intros k' Hin. specialize (H2 k' Hin). lia.
Qed.

Lemma queue_within_add k t e :
  queue_within k t -> queue_within k ((e, S k) :: t).
Proof.
  intros (H1 & H2). unfold queue_within. cbn [map snd rev]. split.
  - apply nondecreasing_snoc. split; [exact H1|].
    intros b Hb. apply in_rev in Hb. specialize (H2 b Hb). lia.
  - intros k' [<- | Hin]; [lia | now apply H2].
Qed.

Lemma queue_within_le k (t : tagged) e' k' :
  queue_within k t -> In (e', k') t -> (k' <= S k)%nat.
Proof.
  intros (_ & H) Hin. apply H. exact (in_map snd _ _ Hin).
Qed.

Lemma queue_order_pop t e k :
  queue_order (t ++ [(e, k)]) -> queue_within k t.
Proof.
  intros (m & H1 & H2). unfold queue_within in *.
  rewrite map_app, rev_app_distr in H1. cbn [map snd rev app] in H1.
  destruct H1 as (H1 & H3). split; [exact H3|].
  intros k' Hin.
  assert (Hk : (m <= k <= S m)%nat).
  { apply H2. rewrite map_app. apply in_or_app. right. now left. }
  assert (Hk' : (m <= k' <= S m)%nat).
  { apply H2. rewrite map_app. apply in_or_app. now left. }
  split; [|lia]. apply H1. now apply in_rev in Hin.
Qed.

Lemma map_fst_snoc (t : tagged) ek :
  map fst (t ++ [ek]) = deque_append (map fst t) (fst ek).
Proof. unfold deque_append. now rewrite map_app. Qed.

Lemma In_snoc_iff A (l : list A) a x : In x (l ++ [a]) <-> x = a \/ In x l.
Proof. rewrite in_app_iff. cbn. intuition auto. Qed.

Lemma In_cons_iff A (l : list A) a x : In x (a :: l) <-> x = a \/ In x l.
Proof. cbn. intuition auto. Qed.

Lemma expand_stack x k t visited g :
  steady g0 s0 visited g ->
  (k + 1 <= List.length (recorded visited x))%nat ->
  stack_within k t -> tags_fit visited t ->
  exists t' visited' g',
    push_unvisited_neighbors x (map fst t, visited) g
    = (Return (map fst t', visited'), g') /\
    steady g0 s0 visited' g' /\ stack_within k t' /\ tags_fit visited' t' /\
    (tagged_work (max_degree g0) (vertex_bound g0) t' + 1
     <= tagged_work (max_degree g0) (vertex_bound g0) t
        + item_cost (max_degree g0) (vertex_bound g0) k)%nat.
Proof.
  exact (@expand_positive deque_append (fun t ek => t ++ [ek]) stack_within
           map_fst_snoc (fun t ek x => In_snoc_iff t ek x)
           tagged_work_snoc stack_within_add stack_within_le
           x k t visited g).
Qed.

Lemma expand_queue x k t visited g :
  steady g0 s0 visited g ->
  (k + 1 <= List.length (recorded visited x))%nat ->
  queue_within k t -> tags_fit visited t ->
  exists t' visited' g',
    enqueue_unvisited_neighbors x (map fst t, visited) g
    = (Return (map fst t', visited'), g') /\
    steady g0 s0 visited' g' /\ queue_within k t' /\ tags_fit visited' t' /\
    (tagged_work (max_degree g0) (vertex_bound g0) t' + 1
     <= tagged_work (max_degree g0) (vertex_bound g0) t
        + item_cost (max_degree g0) (vertex_bound g0) k)%nat.
Proof.
  exact (@expand_positive deque_appendleft (fun t ek => ek :: t) queue_within
           (fun t ek => eq_refl) (fun t ek x => In_cons_iff t ek x)
           tagged_work_cons queue_within_add queue_within_le
           x k t visited g).
Qed.

(** The loop of the iterative depth-first traversal ends within the fuel
    that its work list costs. *)
Lemma dfs_loop_positive fuel : forall t visited g,
  steady g0 s0 visited g -> stack_order t -> tags_fit visited t ->
  (tagged_work (max_degree g0) (vertex_bound g0) t < fuel)%nat ->
  exists visited' g',
    dfs_loop fuel (map fst t, visited) g = (Return visited', g') /\
    steady g0 s0 visited' g'.
Proof.
  induction fuel as [|fuel IH]; intros t visited g St O TF W; [lia|].
  cbn [dfs_loop fst snd].
  destruct (deque_pop (map fst t)) as [[e s']|] eqn:Ep.
  - apply deque_pop_snoc in Ep.
    destruct (@map_fst_snoc_inv t s' e Ep) as (t' & k & -> & <-).
    destruct (@tags_fit_pop visited t' e k TF) as (TF' & Hk).
    rewrite tagged_work_snoc in W. cbn [snd] in W.
    destruct (@expand_stack (vertex2 e) k t' visited g St Hk
                (@stack_order_pop t' e k O) TF')
      as (t2 & visited2 & g2 & E & St2 & W2 & TF2 & Wk).
    rewrite (bind_Return _ _ _ E).
    apply IH; [exact St2 | exact (proj1 W2) | exact TF2 | lia].
  - exists visited, g. split; [reflexivity | exact St].
Qed.

Lemma bfs_loop_positive fuel : forall t visited g,
  steady g0 s0 visited g -> queue_order t -> tags_fit visited t ->
  (tagged_work (max_degree g0) (vertex_bound g0) t < fuel)%nat ->
  exists visited' g',
    bfs_loop fuel (map fst t, visited) g = (Return visited', g') /\
    steady g0 s0 visited' g'.
Proof.
  induction fuel as [|fuel IH]; intros t visited g St O TF W; [lia|].
  cbn [bfs_loop fst snd].
  destruct (deque_pop (map fst t)) as [[e s']|] eqn:Ep.
  - apply deque_pop_snoc in Ep.
    destruct (@map_fst_snoc_inv t s' e Ep) as (t' & k & -> & <-).
    destruct (@tags_fit_pop visited t' e k TF) as (TF' & Hk).
    rewrite tagged_work_snoc in W. cbn [snd] in W.
    destruct (@expand_queue (vertex2 e) k t' visited g St Hk
                (@queue_order_pop t' e k O) TF')
      as (t2 & visited2 & g2 & E & St2 & W2 & TF2 & Wk).
    rewrite (bind_Return _ _ _ E).
    apply IH; [exact St2 | now exists k | exact TF2 | lia].
  - exists visited, g. split; [reflexivity | exact St].
Qed.

Lemma steady_start g :
  cache_coherent g0 -> grows g0 g -> cache_coherent g ->
  weighed_within (Datatypes.S (vertex_bound g0)) g0 g ->
  steady g0 s0 [(s0, [s0])] g.
Proof.
  intros C0 G C Mem. split; [|split; [apply simple_state_start | exact Mem]].
  destruct (@start_state True g0 s0 (fun _ => C0)) as (_ & P & R & N & W).
  split; [exact G|]. split; [exact P|]. split; [exact R|].
  split; [exact N|]. intros k. split; [exact C | exact (proj2 (W k))].
Qed.

(** With positive weights and enough fuel, each of the three traversals of
    [g0] from [s0] returns. *)
Lemma traverse_returns_positive how fuel :
  cache_coherent g0 -> (enough_fuel g0 <= fuel)%nat ->
  exists visited g',
    traverse how fuel s0 g0 = (Return visited, g') /\
    steady g0 s0 visited g'.
Proof.
  intros C F. unfold enough_fuel in F.
  pose proof (@steady_start g0 C (grows_refl g0) C
                (fun p w H => or_introl H)) as St.
  assert (Hk : (0 + 1 <= List.length (recorded [(s0, [s0])] s0))%nat)
    by (rewrite recorded_start_eq; cbn; lia).
  assert (TF : tags_fit [(s0, [s0])] []) by (intros e k []).
  destruct how; cbn [traverse]; unfold dfs_traversal, bfs_traversal;
    rewrite (bind_Return _ _ _ (visit_start s0 g0)); cbv beta iota.
  - destruct (@dfs_returns_positive fuel 0%nat s0 _ g0 St Hk ltac:(lia))
      as (visited & g' & E & St' & _).
    now exists visited, g'.
  - unfold dfs_non_recursive.
    destruct (@expand_stack s0 0%nat [] _ g0 St Hk
                (conj I (fun k' (H : In k' []) => match H with end)) TF)
      as (t2 & visited2 & g2 & E & St2 & W2 & TF2 & Wk).
    change (map fst []) with (@nil TypingEdge) in E.
    rewrite (bind_Return _ _ _ E).
    apply dfs_loop_positive; [exact St2 | exact (proj1 W2) | exact TF2 |].
    change (tagged_work (max_degree g0) (vertex_bound g0) []) with 0%nat in Wk.
    unfold item_cost in Wk. rewrite Nat.sub_0_r in Wk. lia.
  - unfold bfs.
    destruct (@expand_queue s0 0%nat [] _ g0 St Hk
                (conj I (fun k' (H : In k' []) => match H with end)) TF)
      as (t2 & visited2 & g2 & E & St2 & W2 & TF2 & Wk).
    change (map fst []) with (@nil TypingEdge) in E.
    rewrite (bind_Return _ _ _ E).
    apply bfs_loop_positive; [exact St2 | now exists 0%nat | exact TF2 |].
    change (tagged_work (max_degree g0) (vertex_bound g0) []) with 0%nat in Wk.
    unfold item_cost in Wk. rewrite Nat.sub_0_r in Wk. lia.
Qed.
End PositiveWeights.

Lemma all_positive_spec g : all_positive g = true -> positive_weights g.
Proof.
  intros H u v e S.
  destruct (@stored_edge_Some g u v e S) as (inner & G & D).
  apply dict_get_In in G, D. unfold all_positive in H.
  rewrite forallb_forall in H. specialize (H (u, inner) G). cbn [snd] in H.
  rewrite forallb_forall in H. specialize (H (v, e) D). cbn [snd] in H.
  now apply Qltb_lt.
Qed.

(** X13.  On a directed graph built through the public methods, with no
    stale entry in its memo table, only positive weights, and weights that
    are multiples of [2^-k] small enough for every sum of as many of them
    as a sequence without a repeated vertex and one more vertex can have to
    be a binary64 number ([exact_sums]), each of the three traversals
    returns from any starting vertex, cycles or not, once the fuel reaches
    a bound computed from the number of stored edges and the largest number
    of edges under one vertex (for the recursive traversal the fuel is the
    depth of the recursion).  The visited map then records, for exactly the
    vertices that stored edges connect to the start, a sequence of stored
    edges of least total weight, and no recorded path visits a vertex
    twice.  Every
    sequence that the traversal has weighed, which the memo table shows, is
    in that range: the number memoised for it is the one that the additions
    of the source give in binary64, without rounding.  [shortest_path]
    returns the path recorded for its second vertex. *)
Theorem positive_weights_traversals_return
        (g : Graph) (s : Vertex) (how : strategy) (fuel : nat)
        (k : nat) (b : Z) :
  reachable g -> truthy (directed g) = true -> cache_coherent g ->
  positive_weights g ->
  exact_sums k b (Datatypes.S (vertex_bound g)) g = true ->
  (enough_fuel g <= fuel)%nat ->
  exists visited g',
    traverse how fuel s g = (Return visited, g') /\
    lightest_paths g s visited /\
    (forall v, NoDup (recorded visited v)) /\
    (forall p w, cache_get (cache g') p = Some w ->
                 cache_get (cache g) p = Some w \/
                 (w = path_sum g p /\
                  binary64_total k g p = binary64_of k w)) /\
    grows g g' /\ cache_coherent g' /\
    forall n2,
      shortest_path fuel (name s) n2 (search_name how) g
      = (Return (PathResult (recorded visited (mkVertex n2))), g').
Proof.
  intros Hr Hd C Pos X F.
  destruct (@traverse_returns_positive g s Hd (@well_keyed_reachable g Hr)
              (@no_self_loops_reachable g Hr) Pos how fuel C F)
    as (visited & g' & E & (_ & Sim & Mem)).
  pose proof (@traverse_finished True g s how fuel Hr Hd (fun _ => C)) as H.
  pose proof (@ensures_inv _ _ _ _ _ H E) as Fin.
  destruct (@finished_lightest True g s visited g' Fin) as (L1 & L2).
  destruct Fin as ((G & _ & _ & _ & KC) & _).
  exists visited, g'. split; [exact E|].
  split; [split; [exact L1 | exact (L2 I)]|].
  split; [exact (proj1 Sim)|]. split.
  { intros p w Hp. destruct (Mem p w Hp) as [H0 | L]; [now left | right].
    destruct (proj1 (KC I) p w Hp) as (_ & _ & ->).
    rewrite (@grows_path_sum g g' p G). split; [reflexivity|].
    exact (proj2 (@path_sum_exact k b _ g p X L)). }
  split; [exact G|]. split; [exact (proj1 (KC I))|].
  intros n2. rewrite shortest_path_traverse.
  destruct s as [nm]. cbn [name]. now rewrite E.
Qed.

Lemma positive_weights_traversals_return_witness :
  exists visited g',
    traverse DfsNonRecursive 248 vtx_a positive_cycle = (Return visited, g') /\
    lightest_paths positive_cycle vtx_a visited /\
    (forall v, NoDup (recorded visited v)) /\
    (forall p w, cache_get (cache g') p = Some w ->
                 cache_get (cache positive_cycle) p = Some w \/
                 (w = path_sum positive_cycle p /\
                  binary64_total 1 positive_cycle p = binary64_of 1 w)) /\
    grows positive_cycle g' /\ cache_coherent g' /\
    forall n2,
      shortest_path 248 (name vtx_a) n2 (search_name DfsNonRecursive)
                    positive_cycle
      = (Return (PathResult (recorded visited (mkVertex n2))), g').
Proof.
  apply (@positive_weights_traversals_return
           positive_cycle vtx_a DfsNonRecursive 248 1%nat 4%Z).
  - apply reachable_build.
  - reflexivity.
  - apply cache_coherent_empty. reflexivity.
  - apply all_positive_spec. reflexivity.
  - reflexivity.
  - vm_compute. lia.
Defined.

(* ===================================================================== *)
(** ** More fuel returns the same *)
(* ===================================================================== *)

Lemma returns_as_refl A (m : M A) : returns_as m m.
Proof. intros g a g' H. exact H. Qed.

Lemma returns_as_trans A (m1 m2 m3 : M A) :
  returns_as m1 m2 -> returns_as m2 m3 -> returns_as m1 m3.
Proof. intros H1 H2 g a g' H. apply H2, H1, H. Qed.

Lemma returns_as_bind A B (m1 m2 : M A) (k1 k2 : A -> M B) :
  returns_as m1 m2 -> (forall a, returns_as (k1 a) (k2 a)) ->
  returns_as (bind m1 k1) (bind m2 k2).
Proof.
  intros Hm Hk g b g'. unfold bind.
  destruct (m1 g) as [[a| e |] g1] eqn:E; try discriminate.
  rewrite (Hm g a g1 E). apply Hk.
Qed.

Section MoreFuel.
Variable S : Type.
Variables body1 body2 : Vertex -> TypingEdge -> S -> M S.
Hypothesis body_returns_as :
  forall n e s, returns_as (body1 n e s) (body2 n e s).

Lemma for_items_returns_as items :
  forall s, returns_as (for_items body1 items s) (for_items body2 items s).
Proof.
  induction items as [|[n e] items IH]; intros s; cbn [for_items].
  - apply returns_as_refl.
  - apply returns_as_bind; [apply body_returns_as | exact IH].
Qed.

Lemma for_reverse_returns_as keys used target :
  forall s, returns_as (for_reverse body1 keys used target s)
                       (for_reverse body2 keys used target s).
Proof.
  induction keys as [|v1 keys IH]; intros s; cbn [for_reverse];
    (apply returns_as_bind; [apply returns_as_refl|]); intros _.
  - apply returns_as_refl.
  - apply returns_as_bind; [apply returns_as_refl|]. intros inner.
    destruct (dict_get inner target) as [edge|]; [|apply IH].
    apply returns_as_bind; [apply body_returns_as | exact IH].
Qed.

Lemma for_neighbors_returns_as x s :
  returns_as (for_neighbors body1 x s) (for_neighbors body2 x s).
Proof.
  unfold for_neighbors.
  apply returns_as_bind; [apply returns_as_refl|]. intros inner.
  apply returns_as_bind; [apply for_items_returns_as|]. intros s1.
  apply returns_as_bind; [apply returns_as_refl|]. intros g.
  destruct (truthy (directed g)); [apply returns_as_refl|].
  apply for_reverse_returns_as.
Qed.
End MoreFuel.

Lemma dfs_more_fuel n :
  forall x v, returns_as (dfs n x v) (dfs (Datatypes.S n) x v).
Proof.
  induction n as [|n IH]; intros x v; [intros g a g'; discriminate|].
  rewrite !dfs_S. apply for_neighbors_returns_as. intros nb e s.
  unfold relax_and_recurse.
  apply returns_as_bind; [apply returns_as_refl|]. intros [r visited'].
  destruct r; [apply IH | apply returns_as_refl].
Qed.

Lemma dfs_loop_more_fuel n :
  forall st, returns_as (dfs_loop n st) (dfs_loop (Datatypes.S n) st).
Proof.
  induction n as [|n IH]; intros st; [intros g a g'; discriminate|].
  change (dfs_loop (Datatypes.S (Datatypes.S n)) st)
    with (match deque_pop (fst st) with
          | None => ret (snd st)
          | Some (edge, s') =>
              bind (push_unvisited_neighbors (vertex2 edge) (s', snd st))
                   (fun st' => dfs_loop (Datatypes.S n) st')
          end).
  change (dfs_loop (Datatypes.S n) st)
    with (match deque_pop (fst st) with
          | None => ret (snd st)
          | Some (edge, s') =>
              bind (push_unvisited_neighbors (vertex2 edge) (s', snd st))
                   (fun st' => dfs_loop n st')
          end).
  destruct (deque_pop (fst st)) as [[edge s']|]; [|apply returns_as_refl].
  apply returns_as_bind; [apply returns_as_refl | exact IH].
Qed.

Lemma bfs_loop_more_fuel n :
  forall st, returns_as (bfs_loop n st) (bfs_loop (Datatypes.S n) st).
Proof.
  induction n as [|n IH]; intros st; [intros g a g'; discriminate|].
  change (bfs_loop (Datatypes.S (Datatypes.S n)) st)
    with (match deque_pop (fst st) with
          | None => ret (snd st)
          | Some (edge, q') =>
              bind (enqueue_unvisited_neighbors (vertex2 edge) (q', snd st))
                   (fun st' => bfs_loop (Datatypes.S n) st')
          end).
  change (bfs_loop (Datatypes.S n) st)
    with (match deque_pop (fst st) with
          | None => ret (snd st)
          | Some (edge, q') =>
              bind (enqueue_unvisited_neighbors (vertex2 edge) (q', snd st))
                   (fun st' => bfs_loop n st')
          end).
  destruct (deque_pop (fst st)) as [[edge q']|]; [|apply returns_as_refl].
  apply returns_as_bind; [apply returns_as_refl | exact IH].
Qed.

Lemma traverse_one_more how fuel s :
  returns_as (traverse how fuel s) (traverse how (Datatypes.S fuel) s).
Proof.
  destruct how; cbn [traverse]; unfold dfs_traversal, bfs_traversal;
    (apply returns_as_bind; [apply returns_as_refl|]); intros [r visited];
    cbv iota.
  - apply dfs_more_fuel.
  - unfold dfs_non_recursive.
    apply returns_as_bind; [apply returns_as_refl | apply dfs_loop_more_fuel].
  - unfold bfs.
    apply returns_as_bind; [apply returns_as_refl | apply bfs_loop_more_fuel].
Qed.

(** A traversal that returns within its fuel returns the same with more. *)
Lemma traverse_more_fuel how s fuel extra :
  returns_as (traverse how fuel s) (traverse how (extra + fuel) s).
Proof.
  induction extra as [|extra IH]; [apply returns_as_refl|].
  eapply returns_as_trans; [exact IH|]. apply traverse_one_more.
Qed.

(** On a graph with positive weights a traversal that returns has only
    weighed sequences without a repeated vertex, extended by one vertex. *)
Lemma weighed_when_returns g s how fuel visited g' :
  reachable g -> truthy (directed g) = true -> cache_coherent g ->
  positive_weights g ->
  traverse how fuel s g = (Return visited, g') ->
  weighed_within (Datatypes.S (vertex_bound g)) g g'.
Proof.
  intros Hr Hd C Pos E.
  pose proof (@traverse_more_fuel how s fuel (enough_fuel g) g visited g' E)
    as E'.
  destruct (@traverse_returns_positive g s Hd (@well_keyed_reachable g Hr)
              (@no_self_loops_reachable g Hr) Pos how
              (enough_fuel g + fuel)%nat C ltac:(lia))
    as (visited1 & g1 & E1 & (_ & _ & Mem)).
  rewrite E' in E1. injection E1 as <- <-. exact Mem.
Qed.

(** The numbers that a traversal has memoised are those that the additions
    of the source give in binary64. *)
Lemma weighed_exactly g s how fuel visited g' k b :
  reachable g -> truthy (directed g) = true -> cache_coherent g ->
  exact_traversal k b g ->
  traverse how fuel s g = (Return visited, g') ->
  grows g g' -> cache_coherent g' ->
  forall p w, cache_get (cache g') p = Some w ->
              cache_get (cache g) p = Some w \/
              (w = path_sum g p /\ binary64_total k g p = binary64_of k w).
Proof.
  intros Hr Hd C [(rank & R & X) | (Pos & X)] E G C' p w Hp.
  - right. exact (@memo_exact_ranked g rank k b g' R X G C' p w Hp).
  - destruct (@weighed_when_returns g s how fuel visited g' Hr Hd C Pos E
                p w Hp) as [H0 | L]; [now left | right].
    destruct (C' p w Hp) as (_ & _ & ->).
    rewrite (@grows_path_sum g g' p G). split; [reflexivity|].
    exact (proj2 (@path_sum_exact k b _ g p X L)).
Qed.

(** X7.  On a directed graph built through the public methods whose memo
    table holds no stale entry, and on which a traversal forms its sums
    without rounding ([exact_traversal]: no cycle or only positive weights,
    and weights that are multiples of [2^-k] small enough), whenever a
    traversal returns, with any of the three strategies, its visited map
    records a path for exactly the vertices that a sequence of stored edges
    connects to the starting vertex, and each recorded path is such a
    sequence of the least total weight.  The memo table still holds no
    stale entry afterwards, and every number that the traversal has added
    to it, so every sum that it has formed, is the one that the additions
    of the source give in binary64, without rounding. *)
Theorem traversals_record_lightest_paths
        (g : Graph) (s : Vertex) (how : strategy) (fuel : nat)
        (visited : TypingVisited) (g' : Graph) (k : nat) (b : Z) :
  reachable g -> truthy (directed g) = true -> cache_coherent g ->
  exact_traversal k b g ->
  traverse how fuel s g = (Return visited, g') ->
  lightest_paths g s visited /\ grows g g' /\ cache_coherent g' /\
  forall p w, cache_get (cache g') p = Some w ->
              cache_get (cache g) p = Some w \/
              (w = path_sum g p /\ binary64_total k g p = binary64_of k w).
Proof.
  intros Hr Hd C X E.
  pose proof (@traverse_finished True g s how fuel Hr Hd (fun _ => C)) as H.
  pose proof (@ensures_inv _ _ _ _ _ H E) as F.
  destruct (@finished_lightest True g s visited g' F) as (L1 & L2).
  destruct F as ((G & _ & _ & _ & KC) & _).
  split; [split; [exact L1 | exact (L2 I)]|].
  split; [exact G|]. split; [exact (proj1 (KC I))|].
  exact (@weighed_exactly g s how fuel visited g' k b Hr Hd C X E G
           (proj1 (KC I))).
Qed.

Lemma traversals_record_lightest_paths_witness :
  exists visited g',
    traverse DfsNonRecursive 6 vtx_a complete_diamond = (Return visited, g') /\
    lightest_paths complete_diamond vtx_a visited /\
    grows complete_diamond g' /\ cache_coherent g' /\
    forall p w, cache_get (cache g') p = Some w ->
                cache_get (cache complete_diamond) p = Some w \/
                (w = path_sum complete_diamond p /\
                 binary64_total 1 complete_diamond p = binary64_of 1 w).
Proof.
  eexists _, _. split; [vm_compute; reflexivity|].
  apply (@traversals_record_lightest_paths
           complete_diamond vtx_a DfsNonRecursive 6 _ _ 1%nat 4%Z).
  - apply reachable_build.
  - reflexivity.
  - apply cache_coherent_empty. reflexivity.
  - left. exists diamond_rank. split; [apply ranked_complete_diamond|].
    reflexivity.
  - vm_compute. reflexivity.
Defined.

(** X8.  Two traversals run one after the other on a directed graph built
    through the public methods, from the same starting vertex, with any two
    of the three strategies, agree whenever both return: they record a path
    for the same vertices, and for each vertex the two recorded paths have
    the same total weight.  (The paths themselves may differ when two
    sequences weigh the same.)  This is stated for graphs on which a
    traversal forms its sums without rounding ([exact_traversal], see
    [weighed_exactly]). *)
Theorem strategies_agree_on_weights
        (g : Graph) (s : Vertex) (how1 how2 : strategy) (fuel1 fuel2 : nat)
        (visited1 visited2 : TypingVisited) (g1 g2 : Graph)
        (k : nat) (b : Z) :
  reachable g -> truthy (directed g) = true -> cache_coherent g ->
  exact_traversal k b g ->
  traverse how1 fuel1 s g = (Return visited1, g1) ->
  traverse how2 fuel2 s g1 = (Return visited2, g2) ->
  forall v,
    (recorded visited1 v <> [] <-> recorded visited2 v <> []) /\
    path_sum g (recorded visited1 v) == path_sum g (recorded visited2 v).
Proof.
  intros Hr Hd C _ E1 E2.
  pose proof (@traverse_finished True g s how1 fuel1 Hr Hd (fun _ => C)) as H1.
  pose proof (@ensures_inv _ _ _ _ _ H1 E1) as F1.
  destruct F1 as ((G1 & _ & _ & _ & KC1) & _).
  assert (Hr1 : reachable g1).
  { replace g1 with (snd (traverse how1 fuel1 s g)) by now rewrite E1.
    apply reachable_read; [exact Hr | apply read_only_traverse]. }
  destruct (@lightest_paths_after g g s how1 fuel1 visited1 g1
              Hr Hd C (grows_refl g) C Hr E1) as (L1a & L1b).
  destruct (@lightest_paths_after g g1 s how2 fuel2 visited2 g2
              Hr Hd C G1 (proj1 (KC1 I)) Hr1 E2) as (L2a & L2b).
  intros v.
  assert (A1 : recorded visited1 v <> [] ->
               recorded visited2 v <> [] /\
               path_sum g (recorded visited2 v)
               <= path_sum g (recorded visited1 v))
    by (intros N; exact (L2b v _ (L1a v N))).
  assert (A2 : recorded visited2 v <> [] ->
               recorded visited1 v <> [] /\
               path_sum g (recorded visited1 v)
               <= path_sum g (recorded visited2 v))
    by (intros N; exact (L1b v _ (L2a v N))).
  split; [split; intros N; [apply A1 | apply A2]; exact N|].
  assert (D1 : recorded visited1 v = [] \/ recorded visited1 v <> [])
    by (destruct (recorded visited1 v); [now left | right; discriminate]).
  assert (D2 : recorded visited2 v = [] \/ recorded visited2 v <> [])
    by (destruct (recorded visited2 v); [now left | right; discriminate]).
  destruct D1 as [D1 | D1].
  - destruct D2 as [D2 | D2]; [rewrite D1, D2; reflexivity|].
    destruct (A2 D2) as (N & _). contradiction.
  - destruct (A1 D1) as (N2 & W2). destruct (A2 N2) as (_ & W1).
    now apply Qle_antisym.
Qed.

Lemma strategies_agree_on_weights_witness :
  exists visited1 g1 visited2 g2,
    traverse DfsRecursive 6 vtx_a complete_diamond = (Return visited1, g1) /\
    traverse Bfs 8 vtx_a g1 = (Return visited2, g2) /\
    forall v,
      (recorded visited1 v <> [] <-> recorded visited2 v <> []) /\
      path_sum complete_diamond (recorded visited1 v)
      == path_sum complete_diamond (recorded visited2 v).
Proof.
  eexists _, _, _, _. split; [vm_compute; reflexivity|].
  split; [vm_compute; reflexivity|].
  eapply (@strategies_agree_on_weights
            complete_diamond vtx_a DfsRecursive Bfs 6 8 _ _ _ _ 1%nat 4%Z).
  - apply reachable_build.
  - reflexivity.
  - apply cache_coherent_empty. reflexivity.
  - left. exists diamond_rank. split; [apply ranked_complete_diamond|].
    reflexivity.
  - vm_compute. reflexivity.
  - vm_compute. reflexivity.
Defined.

(* ===================================================================== *)
(** ** Cycles that are not positive *)
(* ===================================================================== *)

(** A visit along a stored edge that gives a path no heavier than the one
    recorded replaces the recorded path and asks for another expansion. *)
Lemma visit_replaces g0 g visited x y exy px py :
  same_edges g0 g -> cache_coherent g ->
  stored_edge g0 x y = Some exy ->
  dict_get visited x = Some px -> dict_get visited y = Some py ->
  all_pairs_stored g0 px = true -> ends_at px x ->
  all_pairs_stored g0 py = true -> ends_at py y ->
  path_sum g0 px + weight exy <= path_sum g0 py ->
  exists g',
    visit_vertex_neighbors y x visited g
    = (Return (true, dict_set visited y (px ++ [y])), g') /\
    same_edges g0 g' /\ cache_coherent g' /\
    all_pairs_stored g0 (px ++ [y]) = true /\
    path_sum g0 (px ++ [y]) = path_sum g0 px + weight exy.
Proof.
  intros Sg Hc Se Gx Gy Spx (qx & ->) Spy (qy & Epy) Hle.
  assert (Snew : all_pairs_stored g0 ((qx ++ [x]) ++ [y]) = true)
    by (eapply all_pairs_stored_snoc; eauto).
  pose proof (@path_sum_snoc g0 qx x y exy Se) as Wnew.
  assert (Npy : py <> []) by (rewrite Epy; destruct qy; discriminate).
  destruct (@visit_recorded g visited y x py (qx ++ [x]) Hc Gy Npy Gx)
    as (g' & E & Sg' & Hc').
  { now rewrite (same_edges_all_pairs_stored _ Sg). }
  { now rewrite (same_edges_all_pairs_stored _ Sg). }
  rewrite !(same_edges_path_sum _ Sg), Wnew in E.
  rewrite (Qltb_false_le Hle), path_eqb_refl in E.
  exists g'. split; [exact E|].
  split; [eapply same_edges_trans; eauto|]. auto.
Qed.

Section TwoCycle.
Variables w1 w2 : Q.
Hypothesis non_positive : w1 + w2 <= 0.

(** In a state of the cycle, the expansion of [x] meets one edge, and the
    visit along it succeeds and leads to a state of the cycle again. *)
Lemma circling_visit x visited g :
  circling w1 w2 x visited g ->
  exists visited' g',
    adjacency_get x g = (Return [(other x, out_edge w1 w2 x)], g) /\
    visit_vertex_neighbors (other x) x visited g
    = (Return (true, visited'), g') /\
    circling w1 w2 (other x) visited' g' /\
    truthy (directed g') = true.
Proof.
  intros (Sg & Hc & pa & pb & -> & Spa & Epa & Spb & Epb & Hs).
  assert (Hadj : adjacency_list g = adjacency_list (two_cycle w1 w2))
    by (destruct Sg as (_ & _ & ->); reflexivity).
  destruct Hs as [[-> Hle] | [-> Hle]].
  - destruct (@visit_replaces (two_cycle w1 w2) g
                [(vtx_a, pa); (vtx_b, pb)] vtx_a vtx_b
                (out_edge w1 w2 vtx_a) pa pb
                Sg Hc eq_refl eq_refl eq_refl Spa Epa Spb Epb Hle)
      as (g' & E & Sg' & Hc' & Snew & Wnew).
    eexists _, g'. split; [|split; [exact E|split]].
    + apply adjacency_get_present. rewrite Hadj. reflexivity.
    + split; [exact Sg'|]. split; [exact Hc'|].
      exists pa, (pa ++ [vtx_b]).
      split; [reflexivity|]. split; [exact Spa|]. split; [exact Epa|].
      split; [exact Snew|]. split; [now exists pa|].
      right. split; [reflexivity|]. rewrite Wnew.
      change (weight (out_edge w1 w2 vtx_a)) with w1. lra.
    + destruct Sg' as (_ & -> & _). reflexivity.
  - destruct (@visit_replaces (two_cycle w1 w2) g
                [(vtx_a, pa); (vtx_b, pb)] vtx_b vtx_a
                (out_edge w1 w2 vtx_b) pb pa
                Sg Hc eq_refl eq_refl eq_refl Spb Epb Spa Epa Hle)
      as (g' & E & Sg' & Hc' & Snew & Wnew).
    eexists _, g'. split; [|split; [exact E|split]].
    + apply adjacency_get_present. rewrite Hadj. reflexivity.
    + split; [exact Sg'|]. split; [exact Hc'|].
      exists (pb ++ [vtx_a]), pb.
      split; [reflexivity|]. split; [exact Snew|]. split; [now exists pb|].
      split; [exact Spb|]. split; [exact Epb|].
      left. split; [reflexivity|]. rewrite Wnew.
      change (weight (out_edge w1 w2 vtx_b)) with w2. lra.
    + destruct Sg' as (_ & -> & _). reflexivity.
Qed.

Lemma circling_expand add x visited g :
  (forall e, add [] e = [e]) ->
  circling w1 w2 x visited g ->
  exists visited' g',
    for_neighbors (relax_and_add add) x ([], visited) g
    = (Return ([out_edge w1 w2 x], visited'), g') /\
    circling w1 w2 (other x) visited' g'.
Proof.
  intros Hadd H.
  destruct (circling_visit H) as (visited' & g' & Ga & Ev & H' & D).
  exists visited', g'. split; [|exact H'].
  eapply for_neighbors_directed; [exact Ga | | exact D].
  cbn [for_items]. unfold bind at 1. unfold relax_and_add.
  cbn [vertex1 vertex2 out_edge].
  rewrite (bind_Return _ _ _ Ev). unfold ret. now rewrite Hadd.
Qed.

Lemma other_target x : vertex2 (out_edge w1 w2 x) = other x.
Proof. reflexivity. Qed.

Lemma dfs_loop_circles n : forall x visited g,
  circling w1 w2 (other x) visited g ->
  fst (dfs_loop n ([out_edge w1 w2 x], visited) g) = OutOfFuel.
Proof.
  induction n as [|n IH]; intros x visited g H; [reflexivity|].
  cbn [dfs_loop fst snd deque_pop]. rewrite other_target.
  destruct (@circling_expand deque_append (other x) visited g
              (fun e => eq_refl) H) as (visited' & g' & E & H').
  change (for_neighbors (relax_and_add deque_append) (other x) ([], visited) g)
    with (push_unvisited_neighbors (other x) ([], visited) g) in E.
  unfold deque in *. rewrite (bind_Return _ _ _ E).
  exact (IH (other x) visited' g' H').
Qed.

Lemma bfs_loop_circles n : forall x visited g,
  circling w1 w2 (other x) visited g ->
  fst (bfs_loop n ([out_edge w1 w2 x], visited) g) = OutOfFuel.
Proof.
  induction n as [|n IH]; intros x visited g H; [reflexivity|].
  cbn [bfs_loop fst snd deque_pop]. rewrite other_target.
  destruct (@circling_expand deque_appendleft (other x) visited g
              (fun e => eq_refl) H) as (visited' & g' & E & H').
  change (for_neighbors (relax_and_add deque_appendleft) (other x)
                        ([], visited) g)
    with (enqueue_unvisited_neighbors (other x) ([], visited) g) in E.
  unfold deque in *. rewrite (bind_Return _ _ _ E).
  exact (IH (other x) visited' g' H').
Qed.

Lemma dfs_circles n : forall x visited g,
  circling w1 w2 x visited g -> diverges (dfs n x visited g).
Proof.
  induction n as [|n IH]; intros x visited g H; [reflexivity|].
  rewrite dfs_S.
  destruct (circling_visit H) as (visited' & g' & Ga & Ev & H' & _).
  apply (@for_neighbors_items (dfs n) x visited g _ g Ga).
  apply (@items_true (dfs n) (other x) (out_edge w1 w2 x) [] visited g
           visited' g' Ev).
  exact (IH (other x) visited' g' H').
Qed.

Lemma circling_start :
  circling w1 w2 vtx_b [(vtx_a, [vtx_a]); (vtx_b, [vtx_a; vtx_b])]
           (two_cycle w1 w2).
Proof.
  split; [apply same_edges_refl|].
  split; [now apply cache_coherent_empty|].
  exists [vtx_a], [vtx_a; vtx_b].
  split; [reflexivity|]. split; [reflexivity|]. split; [now exists []|].
  split; [reflexivity|]. split; [now exists [vtx_a]|].
  right. split; [reflexivity|].
  change (path_sum (two_cycle w1 w2) [vtx_a; vtx_b]) with (0 + w1).
  change (path_sum (two_cycle w1 w2) [vtx_a]) with 0. lra.
Qed.

Lemma two_cycle_never_returns how fuel :
  fst (traverse how fuel vtx_a (two_cycle w1 w2)) = OutOfFuel.
Proof.
  assert (Ga : adjacency_get vtx_a (two_cycle w1 w2)
               = (Return [(vtx_b, out_edge w1 w2 vtx_a)], two_cycle w1 w2))
    by reflexivity.
  assert (Ev : visit_vertex_neighbors vtx_b vtx_a [(vtx_a, [vtx_a])]
                                      (two_cycle w1 w2)
               = (Return (true, [(vtx_a, [vtx_a]); (vtx_b, [vtx_a; vtx_b])]),
                  two_cycle w1 w2))
    by reflexivity.
  destruct how; cbn [traverse]; unfold dfs_traversal, bfs_traversal;
    rewrite (bind_Return _ _ _ (visit_start vtx_a (two_cycle w1 w2)));
    cbv beta iota.
  - destruct fuel as [|n]; [reflexivity|]. rewrite dfs_S.
    apply (@for_neighbors_items (dfs n) vtx_a _ _ _ _ Ga).
    apply (@items_true (dfs n) vtx_b (out_edge w1 w2 vtx_a) [] _ _ _ _ Ev).
    exact (@dfs_circles n vtx_b _ _ circling_start).
  - unfold dfs_non_recursive.
    assert (E : push_unvisited_neighbors vtx_a ([], [(vtx_a, [vtx_a])])
                                         (two_cycle w1 w2)
                = (Return ([out_edge w1 w2 vtx_a],
                           [(vtx_a, [vtx_a]); (vtx_b, [vtx_a; vtx_b])]),
                   two_cycle w1 w2))
      by reflexivity.
    rewrite (bind_Return _ _ _ E).
    exact (@dfs_loop_circles fuel vtx_a _ _ circling_start).
  - unfold bfs.
    assert (E : enqueue_unvisited_neighbors vtx_a ([], [(vtx_a, [vtx_a])])
                                            (two_cycle w1 w2)
                = (Return ([out_edge w1 w2 vtx_a],
                           [(vtx_a, [vtx_a]); (vtx_b, [vtx_a; vtx_b])]),
                   two_cycle w1 w2))
      by reflexivity.
    rewrite (bind_Return _ _ _ E).
    exact (@bfs_loop_circles fuel vtx_a _ _ circling_start).
Qed.
End TwoCycle.

(** X14.  On the directed graph with the two edges a->b and b->a, whenever
    the two weights add up to zero or less, none of the three traversals
    from [a] returns, however much fuel it is given: each expansion finds a
    path that is no heavier than the recorded one, records it and asks for
    the expansion of the other vertex.  This includes two edges of weight
    zero, where no path ever gets lighter: a path of equal weight replaces
    the recorded one. *)
Theorem non_positive_cycle_never_returns
        (w1 w2 : Q) (how : strategy) (fuel : nat) :
  w1 + w2 <= 0 ->
  reachable (two_cycle w1 w2) /\
  truthy (directed (two_cycle w1 w2)) = true /\
  cache_coherent (two_cycle w1 w2) /\
  fst (traverse how fuel vtx_a (two_cycle w1 w2)) = OutOfFuel.
Proof.
  intros H. split; [apply reachable_build|]. split; [reflexivity|].
  split; [now apply cache_coherent_empty|].
  exact (@two_cycle_never_returns w1 w2 H how fuel).
Qed.

Lemma non_positive_cycle_never_returns_witness :
  reachable (two_cycle 0 0) /\
  truthy (directed (two_cycle 0 0)) = true /\
  cache_coherent (two_cycle 0 0) /\
  fst (traverse Bfs 1000 vtx_a (two_cycle 0 0)) = OutOfFuel.
Proof.
  apply (@non_positive_cycle_never_returns 0 0 Bfs 1000). discriminate.
Defined.
